(** * Phixeo: parser, fractal optimizer, persistence format and runtime

    A shallow embedding of the Phixeo visual-language core:
    - [PyStr]   : the Python string primitives the sources rely on;
    - [Layout]  : the golden-spiral placement of [PhixeoParser.parse];
    - [Parser]  : [phixeo_parser.py] (classification, connections, optimize);
    - [Editor]  : [save_phixeo] / [load_phixeo] of [phixeo_editor.py];
    - [Runtime] : [phixeo_runtime.py], the worker pool included;
    - [ParserOps] : the export [to_python] of [phixeo_parser.py];
    - [Persistence], [RuntimeOrder], [RuntimeEdge] : the vocabulary of
      the further properties of the persistence format and the runtime.

    The definitions come first, module by module; the properties follow in
    [PyStrFacts], [ParserFacts], [ParserOpsFacts], [ToPythonFacts],
    [EditorFacts], [PersistenceFacts], [RuntimeFacts], [RuntimeInvariant],
    [RuntimeOrderFacts] and [RuntimeEdgeFacts].

    Python strings are strings of code points below 256.  Python floats
    are idealised: the coordinates that the parser computes are real
    numbers ([R]), those that the runtime sorts by are rationals.  The
    rounding and the overflow of binary64 are outside the model; the
    properties below are about kinds, texts, connections and the order of
    the operations, and coordinates have values only in the examples,
    where they are small integers. *)

From Stdlib Require Import String Ascii List Arith ZArith QArith Reals Lra Lia Bool.
From Stdlib Require Import DecimalString.
From Stdlib Require Import Relations.Relation_Operators.
From Stdlib Require Import Sorting.Permutation.
From stdpp Require Import gmap.
Import ListNotations.

Open Scope string_scope.
Open Scope list_scope.
Open Scope nat_scope.

(* stdpp blocks the reduction of string concatenation; the proofs below
   compute with it. *)
Arguments String.append !s1 s2 : simpl nomatch.

(* ===================================================================== *)
(** * Python string primitives *)
(* ===================================================================== *)

Module PyStr.

(** [str.isspace] on one character (code points below 256):
    TAB..CR, FS..US, SPACE, NEL and NBSP. *)
Definition isspace (c : ascii) : bool :=
  let n := nat_of_ascii c in
  ((9 <=? n) && (n <=? 13)) || ((28 <=? n) && (n <=? 32))
  || (n =? 133) || (n =? 160).

(** [s.lstrip()] *)
Fixpoint lstrip (s : string) : string :=
  match s with
  | EmptyString => EmptyString
  | String c s' => if isspace c then lstrip s' else s
  end.

(** [s.rstrip()] *)
Fixpoint rstrip (s : string) : string :=
  match s with
  | EmptyString => EmptyString
  | String c s' =>
      match rstrip s' with
      | EmptyString => if isspace c then EmptyString else String c EmptyString
      | r => String c r
      end
  end.

(** [s.strip()] *)
Definition strip (s : string) : string := lstrip (rstrip s).

(** [s.rstrip(":")]: every trailing colon is removed. *)
Fixpoint rstrip_colon (s : string) : string :=
  match s with
  | EmptyString => EmptyString
  | String c s' =>
      match rstrip_colon s' with
      | EmptyString => if Ascii.eqb c ":" then EmptyString else String c EmptyString
      | r => String c r
      end
  end.

(** [pat] occurs in [s] as a substring: what [pat in s] decides. *)
Definition occurs (pat s : string) : Prop :=
  exists a b : string, s = (a ++ pat ++ b)%string.

(** [pat in s] *)
Fixpoint contains (pat s : string) : bool :=
  String.prefix pat s ||
  match s with
  | EmptyString => false
  | String _ s' => contains pat s'
  end.

(** The line boundaries of [str.splitlines] (code points below 256):
    LF, VT, FF, CR, FS, GS, RS and NEL; CR LF counts as one boundary. *)
Definition is_linebreak (c : ascii) : bool :=
  let n := nat_of_ascii c in
  ((10 <=? n) && (n <=? 13)) || ((28 <=? n) && (n <=? 30)) || (n =? 133).

Definition is_cr (c : ascii) : bool := nat_of_ascii c =? 13.
Definition is_lf (c : ascii) : bool := nat_of_ascii c =? 10.

Definition rev_string (l : list ascii) : string :=
  string_of_list_ascii (rev l).

(** [splitlines_from s cur after_cr]: [cur] is the current line, reversed;
    [after_cr] tells that the previous character was a CR, so that a LF
    right behind it belongs to the same boundary. *)
Fixpoint splitlines_from (s : string) (cur : list ascii) (after_cr : bool)
  : list string :=
  match s with
  | EmptyString =>
      match cur with
      | [] => []
      | _ => [rev_string cur]
      end
  | String c s' =>
      if after_cr && is_lf c then splitlines_from s' cur false
      else if is_linebreak c
           then rev_string cur :: splitlines_from s' [] (is_cr c)
           else splitlines_from s' (c :: cur) false
  end.

(** [s.splitlines()] *)
Definition splitlines (s : string) : list string := splitlines_from s [] false.

(** The characters of [s] up to the first white space. *)
Fixpoint take_token (s : string) : string :=
  match s with
  | EmptyString => EmptyString
  | String c s' => if isspace c then EmptyString else String c (take_token s')
  end.

(** [s.split()[0]]; [None] stands for the [IndexError] raised when [s]
    holds no token. *)
Definition first_token (s : string) : option string :=
  match lstrip s with
  | EmptyString => None
  | t => Some (take_token t)
  end.

(** [split_from sep s skip cur]: [skip] characters of a separator found
    earlier are still to be passed over; [cur] is the current piece,
    reversed. *)
Fixpoint split_from (sep s : string) (skip : nat) (cur : list ascii)
  : list string :=
  match s with
  | EmptyString => [rev_string cur]
  | String c s' =>
      match skip with
      | S k => split_from sep s' k cur
      | O =>
          if String.prefix sep s
          then rev_string cur :: split_from sep s' (String.length sep - 1) []
          else split_from sep s' 0 (c :: cur)
      end
  end.

(** [s.split(sep)] for a non-empty separator. *)
Definition split (sep s : string) : list string := split_from sep s 0 [].

(** The line feed. *)
Definition LF : string := String (ascii_of_nat 10) EmptyString.

(** [sep.join(l)] *)
Fixpoint join (sep : string) (l : list string) : string :=
  match l with
  | [] => EmptyString
  | [s] => s
  | s :: l' => s ++ sep ++ join sep l'
  end.

End PyStr.

(* ===================================================================== *)
(** * Spiral layout *)
(* ===================================================================== *)

Module Layout.

Local Open Scope R_scope.

(** [self.phi = (1 + sqrt(5)) / 2] *)
Definition phi : R := (1 + sqrt 5) / 2.

(** [self.base_a = 50.0] *)
Definition base_a : R := 50.

(** [self.golden_angle = 2.399] *)
Definition golden_angle : R := 2399 / 1000.

(** [theta = n * self.golden_angle] *)
Definition theta (n : nat) : R := INR n * golden_angle.

(** [r = self.base_a * (self.phi ** (n / 2))] *)
Definition radius (n : nat) : R := base_a * Rpower phi (INR n / 2).

(** [x, y = r * cos(theta), r * sin(theta)] *)
Definition position (n : nat) : R * R :=
  (radius n * cos (theta n), radius n * sin (theta n)).

End Layout.

(* ===================================================================== *)
(** * The parser: [phixeo_parser.py] *)
(* ===================================================================== *)

Module Parser.

Import PyStr.

(** The four values of a node's ["type"] entry. *)
Inductive node_type : Set :=
| Tetrahedral   (* statement *)
| Hexagonal     (* loop *)
| Pentagonal    (* conditional *)
| Fractal.      (* function, and the optimizer's aggregate *)

Definition node_type_eqb (a b : node_type) : bool :=
  match a, b with
  | Tetrahedral, Tetrahedral | Hexagonal, Hexagonal
  | Pentagonal, Pentagonal | Fractal, Fractal => true
  | _, _ => false
  end.

(** A node dictionary.  A reference to another dictionary of [self.nodes]
    is the position of that dictionary in [self.nodes] when the reference
    was taken.  [None] in [n_connections] or [n_subnodes] means that the
    key is absent. *)
#[warnings="-register-all"]
Inductive node : Type :=
  Node {
    n_type : node_type;
    n_size : R;
    n_value : string;
    n_x : R;
    n_y : R;
    n_color : string;
    n_connections : option (list nat);
    n_subnodes : option (list node)
  }.

(** [self.constants] *)
Definition constants (t : node_type) : R :=
  match t with
  | Tetrahedral => (PI ^ 2 + Layout.phi * sqrt 5) / 2
  | Hexagonal => PI + (2 * sqrt 3) / Layout.phi
  | Pentagonal => (PI + Layout.phi + sqrt 5) / 3
  | Fractal => PI * Layout.phi ^ 2 + sqrt 2
  end%R.

Definition _create_node (line : string) (x y : R) : option node :=
  if contains "print" line || contains "=" line then
    Some (Node Tetrahedral (constants Tetrahedral) line x y "red" None None)
  else if contains "for" line then
    Some (Node Hexagonal (constants Hexagonal) line x y "blue" (Some []) None)
  else if contains "if" line then
    Some (Node Pentagonal (constants Pentagonal) line x y "green" (Some []) None)
  else if contains "def" line then
    Some (Node Fractal (constants Fractal) line x y "purple" (Some []) None)
  else None.

(** First loop of [parse]: line number [n] onwards.  Every line that is not
    blank yields a task, kept with its line number. *)
Fixpoint submit_lines (n : nat) (lines : list string)
  : list (nat * option node) :=
  match lines with
  | [] => []
  | l :: rest =>
      match strip l with
      | EmptyString => submit_lines (S n) rest
      | line =>
          (n, _create_node line (fst (Layout.position n))
                                (snd (Layout.position n)))
            :: submit_lines (S n) rest
      end
  end.

(** Second loop of [parse]: the results that are nodes, in order (each with
    the number of the line it was made from). *)
Fixpoint collect (futures : list (nat * option node)) : list (nat * node) :=
  match futures with
  | [] => []
  | (n, Some nd) :: rest => (n, nd) :: collect rest
  | (_, None) :: rest => collect rest
  end.

Definition created (lines : list string) : list (nat * node) :=
  collect (submit_lines 0 lines).

(** [len(l) - len(l.lstrip())] *)
Definition indent_of (l : string) : nat :=
  String.length l - String.length (lstrip l).

(** [for j in range(j0 - 1, -1, -1)]: the first [j] whose line is indented
    less than [indent_level]. *)
Fixpoint scan_back (lines : list string) (indent_level j0 : nat) : option nat :=
  match j0 with
  | O => None
  | S j =>
      if indent_of (nth j lines EmptyString) <? indent_level
      then Some j
      else scan_back lines indent_level j
  end.

(** [_process_connections]: [conns] is the node's ["connections"] list and
    the result is that list after the call.  [lines[index]] is read with
    the node's position in [self.nodes]. *)
Definition _process_connections (conns : list nat) (lines : list string)
  (index : nat) : list nat :=
  let indent_level := indent_of (nth index lines EmptyString) in
  if 0 <? indent_level then
    match scan_back lines indent_level index with
    | Some j => conns ++ [j]
    | None => conns
    end
  else conns.

(** One round of the loop of [_add_connections_parallel]: a node with a
    ["connections"] key is handed to [_process_connections]. *)
Definition connect_node (nd : node) (lines : list string) (i : nat) : node :=
  match n_connections nd with
  | Some conns =>
      Node (n_type nd) (n_size nd) (n_value nd) (n_x nd) (n_y nd)
           (n_color nd)
           (Some (_process_connections conns lines i)) (n_subnodes nd)
  | None => nd
  end.

(** [_add_connections_parallel], from position [i] on.  Each task appends
    to the list of its own node only, so the order in which the pool runs
    the tasks does not show in the result. *)
Fixpoint add_connections_from (i : nat) (nodes : list node)
  (lines : list string) : list node :=
  match nodes with
  | [] => []
  | nd :: rest => connect_node nd lines i :: add_connections_from (S i) rest lines
  end.

Definition _add_connections_parallel (nodes : list node)
  (lines : list string) : list node :=
  add_connections_from 0 nodes lines.

(** [parse] on the lines of the source. *)
Definition parse_lines (lines : list string) : list node :=
  _add_connections_parallel (map snd (created lines)) lines.

Definition parse (code : string) : list node :=
  parse_lines (splitlines code).

(** [_nodes_are_similar]; [None] is the [IndexError] of [split()[0]] on a
    value without a token.  The right operand of [and] is evaluated only
    when the types agree. *)
Definition _nodes_are_similar (node1 node2 : node) : option bool :=
  if node_type_eqb (n_type node1) (n_type node2) then
    match first_token (n_value node1), first_token (n_value node2) with
    | Some t1, Some t2 => Some (String.eqb t1 t2)
    | _, _ => None
    end
  else Some false.

(** The loop of [_group_similar_nodes] with its two variables. *)
Fixpoint group_loop (nodes : list node) (groups : list (list node))
  (current_group : list node) : option (list (list node) * list node) :=
  match nodes with
  | [] => Some (groups, current_group)
  | nd :: rest =>
      match current_group with
      | [] => group_loop rest groups [nd]
      | c :: cs =>
          match _nodes_are_similar (List.last cs c) nd with
          | None => None
          | Some true => group_loop rest groups (current_group ++ [nd])
          | Some false => group_loop rest (groups ++ [current_group]) [nd]
          end
      end
  end.

Definition _group_similar_nodes (nodes : list node)
  : option (list (list node)) :=
  match group_loop nodes [] [] with
  | None => None
  | Some (groups, []) => Some groups
  | Some (groups, current_group) => Some (groups ++ [current_group])
  end.

(** [type.lower()] *)
Definition type_lower (t : node_type) : string :=
  match t with
  | Tetrahedral => "tetrahedral"
  | Hexagonal => "hexagonal"
  | Pentagonal => "pentagonal"
  | Fractal => "fractal"
  end.

Definition sum_R (l : list R) : R := fold_left Rplus l 0%R.

(** [_create_fractal_parent] for the group [first :: others]. *)
Definition _create_fractal_parent (first : node) (others : list node) : node :=
  let group := first :: others in
  Node Fractal (constants Fractal)
       ("group_" ++ type_lower (n_type first))
       (sum_R (map n_x group) / INR (List.length group))%R
       (sum_R (map n_y group) / INR (List.length group))%R
       "purple" (Some []) (Some group).

(** The body of the loop of [optimize]; an empty group would raise at
    [group[0]], [_group_similar_nodes] makes none. *)
Definition optimize_group (group : list node) : option node :=
  match group with
  | [] => None
  | [nd] => Some nd
  | first :: others => Some (_create_fractal_parent first others)
  end.

Fixpoint optimize_groups (groups : list (list node)) : option (list node) :=
  match groups with
  | [] => Some []
  | g :: rest =>
      match optimize_group g, optimize_groups rest with
      | Some nd, Some nds => Some (nd :: nds)
      | _, _ => None
      end
  end.

(** [optimize]: the new value of [self.nodes], or [None] when the call
    raises. *)
Definition optimize (nodes : list node) : option (list node) :=
  match _group_similar_nodes nodes with
  | None => None
  | Some groups => optimize_groups groups
  end.

(** Leaves of a node, counting into ["subnodes"]. *)
Fixpoint count_leaves (nd : node) : nat :=
  match n_subnodes nd with
  | None => 1
  | Some subs =>
      (fix sum_leaves (l : list node) : nat :=
         match l with
         | [] => 0
         | m :: l' => count_leaves m + sum_leaves l'
         end) subs
  end.

Definition total_leaves (nodes : list node) : nat :=
  list_sum (map count_leaves nodes).

(** ** Vocabulary of the properties *)

(** The classifier as the specification words it, for comparison with
    [_create_node]: [for ], [if ] and [def ] are tried before the
    statement rule. *)
Definition spec_classify (line : string) : option node_type :=
  if contains "for " line then Some Hexagonal
  else if contains "if " line then Some Pentagonal
  else if contains "def " line then Some Fractal
  else if contains "print" line || contains "=" line then Some Tetrahedral
  else None.

(** The dispatch of [_create_node], in terms of substring occurrence. *)
Inductive dispatch (line : string) : option node_type -> Prop :=
| dispatch_statement :
    occurs "print" line \/ occurs "=" line ->
    dispatch line (Some Tetrahedral)
| dispatch_loop :
    ~ occurs "print" line -> ~ occurs "=" line ->
    occurs "for" line ->
    dispatch line (Some Hexagonal)
| dispatch_conditional :
    ~ occurs "print" line -> ~ occurs "=" line -> ~ occurs "for" line ->
    occurs "if" line ->
    dispatch line (Some Pentagonal)
| dispatch_function :
    ~ occurs "print" line -> ~ occurs "=" line -> ~ occurs "for" line ->
    ~ occurs "if" line ->
    occurs "def" line ->
    dispatch line (Some Fractal)
| dispatch_skip :
    ~ occurs "print" line -> ~ occurs "=" line -> ~ occurs "for" line ->
    ~ occurs "if" line -> ~ occurs "def" line ->
    dispatch line None.

(** The parent of node [i]: the node its ["connections"] list refers to. *)
Definition parent_of (nodes : list node) (i : nat) : option nat :=
  match nth_error nodes i with
  | Some nd =>
      match n_connections nd with
      | Some (j :: _) => Some j
      | _ => None
      end
  | None => None
  end.

(** [j] is an ancestor of [i]: parent, parent of the parent, ... *)
Definition ancestor (nodes : list node) : nat -> nat -> Prop :=
  clos_trans nat (fun i j => parent_of nodes i = Some j).

(** The indentation of node [i]: that of the line it was created from. *)
Definition node_indent (lines : list string) (i : nat) : nat :=
  match nth_error (created lines) i with
  | Some (n, _) => indent_of (nth n lines EmptyString)
  | None => 0
  end.

(** [j] is the nearest node created before [i] whose indentation is
    strictly less than that of [i]. *)
Definition nearest_less (lines : list string) (i j : nat) : Prop :=
  j < i /\ node_indent lines j < node_indent lines i /\
  forall k, j < k < i -> ~ node_indent lines k < node_indent lines i.

(** Every line of the source yields a node, so that the position of a node
    in [self.nodes] is the number of its line. *)
Definition every_line_yields_a_node (lines : list string) : Prop :=
  List.length (created lines) = List.length lines.

(** No node of the list is an aggregate. *)
Definition no_aggregate (nodes : list node) : Prop :=
  Forall (fun nd => n_subnodes nd = None) nodes.

(** Every value holds a token, as the value of every node that [parse] or
    [optimize] makes does. *)
Definition values_have_tokens (nodes : list node) : Prop :=
  Forall (fun nd => first_token (n_value nd) <> None) nodes.

(** A run: every node is similar to the one before it. *)
Fixpoint similar_run (group : list node) : Prop :=
  match group with
  | a :: (b :: _) as rest => _nodes_are_similar a b = Some true /\ similar_run rest
  | _ => True
  end.

(** What [optimize] puts in the place of a group: the node itself for a
    group of one, a wrapper that holds the group otherwise. *)
Inductive wraps : list node -> node -> Prop :=
| wraps_single (nd : node) : wraps [nd] nd
| wraps_run (first second : node) (others : list node) :
    wraps (first :: second :: others)
          (_create_fractal_parent first (second :: others)).

(** What [parse] knows of a node it has just created from line [n]. *)
Definition fresh_node (p : nat * node) : Prop :=
  exists line : string,
    line <> EmptyString /\ lstrip line = line /\
    _create_node line (fst (Layout.position (fst p)))
                      (snd (Layout.position (fst p))) = Some (snd p).

(** The parent that [_process_connections] records for position [i]. *)
Definition recorded_parent (lines : list string) (i : nat) : option nat :=
  let indent_level := indent_of (nth i lines EmptyString) in
  if 0 <? indent_level then scan_back lines indent_level i else None.

(** The source at the end of [phixeo_parser.py].  Its first line is blank,
    so that [_process_connections] reads, for every node, the line before
    the one the node was made from: the unindented [if i > 2:] is given the
    indented [print(i)] as parent, and [def my_func():] is given
    [print('Big')]. *)
Definition demo_code : string :=
  LF ++ "print('Start')" ++ LF ++ "for i in range(5):" ++ LF ++
  "    print(i)" ++ LF ++ "if i > 2:" ++ LF ++ "    print('Big')" ++ LF ++
  "def my_func():" ++ LF ++ "    print('Func')" ++ LF.

End Parser.

(* ===================================================================== *)
(** * The persistence format: [save_phixeo] and [load_phixeo] *)
(* ===================================================================== *)

Module Editor.

Import Parser.

(** A node of the editor: a scene item and its [data(0)] dictionary.
    [it_id] is the identity of the item; a connection is a reference to an
    item, that is, its identity. *)
Record item : Type :=
  Item {
    it_id : nat;
    it_type : node_type;
    it_value : string;
    it_x : R;
    it_y : R;
    it_connections : list nat
  }.

(** One record of a [.phix] file: the keys ["type"], ["x"], ["y"],
    ["value"] and ["connections"]. *)
Record phix_record : Type :=
  PhixRecord {
    r_type : node_type;
    r_x : R;
    r_y : R;
    r_value : string;
    r_connections : list Z
  }.

(** [ids.index(c)]: the first position of [c]; [None] is the [ValueError]
    for an element that is not in the list. *)
Fixpoint index (ids : list nat) (c : nat) : option nat :=
  match ids with
  | [] => None
  | i :: rest =>
      if Nat.eqb i c then Some 0 else option_map S (index rest c)
  end.

(** [l[i]] for a Python integer: a negative index counts from the end;
    [None] is the [IndexError]. *)
Definition getitem {A : Type} (l : list A) (i : Z) : option A :=
  if (0 <=? i)%Z then nth_error l (Z.to_nat i)
  else if (- Z.of_nat (List.length l) <=? i)%Z
       then nth_error l (Z.to_nat (Z.of_nat (List.length l) + i))
       else None.

(** A list comprehension whose body may raise. *)
Fixpoint traverse {A B : Type} (f : A -> option B) (l : list A)
  : option (list B) :=
  match l with
  | [] => Some []
  | a :: rest =>
      match f a, traverse f rest with
      | Some b, Some bs => Some (b :: bs)
      | _, _ => None
      end
  end.

(** The dictionary that [save_phixeo] writes for the node [n]. *)
Definition save_item (nodes : list item) (n : item) : option phix_record :=
  match traverse (index (map it_id nodes)) (it_connections n) with
  | Some idxs =>
      Some (PhixRecord (it_type n) (it_x n) (it_y n) (it_value n)
                       (map Z.of_nat idxs))
  | None => None
  end.

(** [save_phixeo]: the list handed to [json.dump]. *)
Definition save_phixeo (nodes : list item) : option (list phix_record) :=
  traverse (save_item nodes) nodes.

(** First loop of [load_phixeo]: one new item per record, without
    connections; the new items get the identities [next], [next + 1], ... *)
Fixpoint load_items (next : nat) (data : list phix_record) : list item :=
  match data with
  | [] => []
  | r :: rest =>
      Item next (r_type r) (r_value r) (r_x r) (r_y r) []
        :: load_items (S next) rest
  end.

(** Second loop of [load_phixeo], on the items that are still to be
    linked.  For every index of the record [nodes[conn_idx]] is read, which
    raises for an index out of range.  The statement
    [nodes[i].data(0)["connections"].append(nodes[conn_idx])] then appends
    to the list of the dictionary that [data(0)] hands out, and that is a
    copy of the one [setData] stored: the list [it_connections it ++
    targets] is built in the copy and dropped with it, and the item keeps
    the connections it had. *)
Fixpoint load_connections (nodes todo : list item) (data : list phix_record)
  : option (list item) :=
  match todo, data with
  | it :: todo', r :: data' =>
      match traverse (fun idx => option_map it_id (getitem nodes idx))
                     (r_connections r),
            load_connections nodes todo' data' with
      | Some targets, Some rest =>
          let appended := it_connections it ++ targets in
          Some (it :: rest)
      | _, _ => None
      end
  | _, _ => Some []
  end.

(** [load_phixeo]: the new value of [self.nodes] for the list that
    [json.load] returns; [next] is the identity of the first new item. *)
Definition load_phixeo (next : nat) (data : list phix_record)
  : option (list item) :=
  load_connections (load_items next data) (load_items next data) data.

(** ** Vocabulary of the properties *)

(** A forest: the items are distinct and every connection leads to an item
    of the forest. *)
Definition forest (nodes : list item) : Prop :=
  List.NoDup (map it_id nodes) /\
  Forall (fun n => Forall (fun c => In c (map it_id nodes)) (it_connections n))
         nodes.

End Editor.
(* ===================================================================== *)
(** * The persistence format: what a file can hold *)
(* ===================================================================== *)

Module Persistence.

Import Parser Editor.

(** The node [n] has a connection to an item that is not in [nodes]. *)
Definition dangling (nodes : list item) (n : item) : Prop :=
  Exists (fun c => ~ In c (map it_id nodes)) (it_connections n).

(** An index that [l[idx]] rejects for a list of [len] elements. *)
Definition out_of_range (len : nat) (idx : Z) : Prop :=
  (idx < - Z.of_nat len \/ Z.of_nat len <= idx)%Z.

(** The record [r] with an empty ["connections"] list. *)
Definition without_connections (r : phix_record) : phix_record :=
  PhixRecord (r_type r) (r_x r) (r_y r) (r_value r) [].

End Persistence.

(* ===================================================================== *)
(** * The parser: export to Python, and what the optimizer compares *)
(* ===================================================================== *)

Module ParserOps.

Import PyStr Parser.

(** [s * k] for a string [s]. *)
Fixpoint repeat_string (s : string) (k : nat) : string :=
  match k with
  | O => EmptyString
  | S k' => s ++ repeat_string s k'
  end.

(** [len(node.get("connections", []))] *)
Definition connection_count (nd : node) : nat :=
  match n_connections nd with
  | Some conns => List.length conns
  | None => 0
  end.

(** The text that the loop of [to_python] adds for a node. *)
Definition python_line (nd : node) : string :=
  repeat_string "    " (connection_count nd) ++ n_value nd ++ LF.

(** The loop of [to_python]. *)
Fixpoint python_lines (nodes : list node) : string :=
  match nodes with
  | [] => EmptyString
  | nd :: rest => python_line nd ++ python_lines rest
  end.

(** [to_python] *)
Definition to_python (nodes : list node) : string :=
  strip (python_lines nodes).

(** ** Vocabulary of the properties *)

(** The kind of the node that [_create_node] makes of the line, if it
    makes one; the coordinates have no part in it. *)
Definition kind_of (line : string) : option node_type :=
  option_map n_type (_create_node line 0 0).

(** What a line of the source leaves in the list of [parse]: the kind and
    the text of its node, or nothing. *)
Definition line_node (l : string) : list (node_type * string) :=
  match kind_of (strip l) with
  | Some t => [(t, strip l)]
  | None => []
  end.

(** The line of a node in the exported source: its value behind four
    blanks for each of its connections. *)
Definition export_line (nd : node) : string :=
  repeat_string "    " (connection_count nd) ++ n_value nd.

(** A value as [parse] makes them: not empty, without white space at
    either end. *)
Definition trimmed (v : string) : Prop :=
  v <> EmptyString /\ lstrip v = v /\ rstrip v = v.

(** The line that a group of [_group_similar_nodes] is left with in the
    source exported after [optimize]: that of the node for a group of
    one, the value of the wrapper for a longer group. *)
Definition group_line (group : list node) : string :=
  match group with
  | [] => EmptyString
  | [nd] => export_line nd
  | first :: _ => "group_" ++ type_lower (n_type first)
  end.

(** The pairs of neighbours of a list. *)
Fixpoint neighbours (l : list node) : list (node * node) :=
  match l with
  | a :: (b :: _) as rest => (a, b) :: neighbours rest
  | _ => []
  end.

(** [_nodes_are_similar] answers [True]. *)
Definition similar (p : node * node) : bool :=
  match _nodes_are_similar (fst p) (snd p) with
  | Some true => true
  | _ => false
  end.

(** The number of nodes of the list that are similar to the node before
    them. *)
Definition similar_neighbours (l : list node) : nat :=
  List.length (List.filter similar (neighbours l)).

(** The kind and the text of a node. *)
Definition kind_and_text (nd : node) : node_type * string :=
  (n_type nd, n_value nd).

End ParserOps.


(* ===================================================================== *)
(** * The runtime: [phixeo_runtime.py] *)
(* ===================================================================== *)

Module Runtime.

Import PyStr Parser.

(** The identity of a scene item, and the handle of a submitted task. *)
Definition node_id := nat.
Definition future := nat.

(** A scene item as the runtime reads it: the dictionary [data(0)] and
    [pos()].  [None] in [d_connections] or [d_subnodes] means that the key
    is absent.  Coordinates are taken as rationals. *)
Record node_data : Type :=
  NodeData {
    d_type : node_type;
    d_value : string;
    d_connections : option (list node_id);
    d_subnodes : option (list node_id);
    d_pos : Q * Q
  }.

(** The arguments of [PhixeoRuntime]: [objects] holds the items by
    identity, [nodes] is [self.nodes]. *)
Record runtime : Type :=
  Runtime {
    objects : list node_data;
    nodes : list node_id
  }.

(** What one draw of a [for] statement gives: the next value (its [str]),
    the end of the iteration, or the message of the exception that the
    draw raised. *)
Inductive draw : Type :=
| Yielded (val : string)
| Stopped
| Raised (msg : string).

(** What a [for] statement iterates over.  The values are drawn one at a
    time, each when the round before is over: a draw runs in the globals of
    its moment and gives the new globals, the strings it printed and its
    result; [rest] is the iterator that the draw leaves behind.  An
    iterator comes to its end after finitely many draws. *)
Inductive iterator (Env : Type) : Type :=
| Exhausted
| Pending (next : Env -> Env * list string * draw)
          (rest : Env -> iterator Env).

Arguments Exhausted {Env}.
Arguments Pending {Env}.

(** The Python interpreter behind [exec] and [eval], with [_common_ops] as
    globals.  A call returns the new globals, the strings that the [print]
    entry of [_common_ops] appended to [self.output], and, for [exec], the
    message of the exception raised if any, for [eval], that message or the
    value.  [py_iter] gives what the [for] statement iterates over for the
    value of the loop range (through [np.arange] for a [range]), or the
    message of the exception that [np.arange] or the [for] statement
    raises for that value. *)
Record Python : Type :=
  MkPython {
    Val : Type;
    Env : Type;
    py_exec : string -> Env -> Env * list string * option string;
    py_eval : string -> Env -> Env * list string * (string + Val);
    py_truthy : Val -> bool;
    py_iter : Val -> string + iterator Env;
    py_init : Env
  }.

Section Programs.

Context (py : Python).

(** The code of a thread, as the sequence of its operations on what the
    threads share; each operation is one atomic step. *)
Inductive prog : Type :=
| Return
| AddExecuted (n : node_id) (k : prog)           (* executed.add(n) *)
| InExecuted (n : node_id) (k : bool -> prog)    (* n in executed *)
| Append (s : string) (k : prog)                 (* self.output.append(s) *)
| PyExec (code : string) (k : option string -> prog)
| PyEval (code : string) (k : string + Val py -> prog)
| PyNext (next : Env py -> Env py * list string * draw)
         (k : Env py -> draw -> prog)           (* one draw of a [for] *)
| Submit (n : node_id) (k : future -> prog)      (* self.executor.submit *)
| Result (f : future) (k : prog).                (* f.result() *)

(** [for conn in conns: if conn not in executed: futures.append(submit)] *)
Fixpoint dispatch_loop (conns : list node_id) (futures : list future)
  (k : list future -> prog) : prog :=
  match conns with
  | [] => k futures
  | conn :: rest =>
      InExecuted conn (fun b =>
        if b then dispatch_loop rest futures k
        else Submit conn (fun f => dispatch_loop rest (futures ++ [f]) k))
  end.

(** [for future in futures: future.result()] *)
Fixpoint wait_all (futures : list future) (k : prog) : prog :=
  match futures with
  | [] => k
  | f :: rest => Result f (wait_all rest k)
  end.

Definition run_children (conns : list node_id) (k : prog) : prog :=
  dispatch_loop conns [] (fun futures => wait_all futures k).

(** The message of the [KeyError] for a missing ["connections"] key. *)
Definition key_error_connections : string := "'connections'".

(** The messages of the [ValueError] of [loop_var, loop_range = ...]. *)
Definition unpack_too_few : string :=
  "not enough values to unpack (expected 2, got 1)".
Definition unpack_too_many : string :=
  "too many values to unpack (expected 2)".

(** [for val in values: ...] of the ["Hexagonal"] branch, inside its
    [try]: a draw that raises ends the loop with the error marker. *)
Fixpoint loop_body (d : node_data) (values : iterator (Env py)) : prog :=
  match values with
  | Exhausted => Return
  | Pending next rest =>
      PyNext next (fun g r =>
        match r with
        | Yielded val =>
            Append (d_value d ++ "  # " ++ val)
              match d_connections d with
              | Some conns => run_children conns (loop_body d (rest g))
              | None =>
                  Append ("Error in loop: " ++ key_error_connections) Return
              end
        | Stopped => Return
        | Raised e => Append ("Error in loop: " ++ e) Return
        end)
  end.

Definition execute_tetrahedral (d : node_data) : prog :=
  PyExec (d_value d) (fun r =>
    match r with
    | Some e => Append ("Error: " ++ e) Return
    | None => Return
    end).

Definition execute_hexagonal (d : node_data) : prog :=
  match split " in " (d_value d) with
  | [loop_var; loop_range] =>
      PyEval loop_range (fun r =>
        match r with
        | inl e => Append ("Error in loop: " ++ e) Return
        | inr v =>
            match py_iter py v with
            | inl e => Append ("Error in loop: " ++ e) Return
            | inr values => loop_body d values
            end
        end)
  | [_] => Append ("Error in loop: " ++ unpack_too_few) Return
  | _ => Append ("Error in loop: " ++ unpack_too_many) Return
  end.

Definition execute_pentagonal (d : node_data) : prog :=
  PyEval (rstrip_colon (d_value d)) (fun r =>
    match r with
    | inl e => Append ("Error in if: " ++ e) Return
    | inr v =>
        if py_truthy py v then
          Append (d_value d)
            match d_connections d with
            | Some conns => run_children conns Return
            | None => Append ("Error in if: " ++ key_error_connections) Return
            end
        else Return
    end).

Definition execute_fractal (d : node_data) : prog :=
  Append (d_value d)
    match d_subnodes d with
    | Some subnodes => run_children subnodes Return
    | None => Return
    end.

(** [_execute_node_parallel(node, executed)] *)
Definition _execute_node_parallel (rt : runtime) (node : node_id) : prog :=
  match nth_error (objects rt) node with
  | Some d =>
      AddExecuted node
        match d_type d with
        | Tetrahedral => execute_tetrahedral d
        | Hexagonal => execute_hexagonal d
        | Pentagonal => execute_pentagonal d
        | Fractal => execute_fractal d
        end
  | None => Return   (* not the identity of an item *)
  end.

(** [all(conn in executed for conn in conns)] *)
Fixpoint all_executed (conns : list node_id) (k : bool -> prog) : prog :=
  match conns with
  | [] => k true
  | conn :: rest =>
      InExecuted conn (fun b => if b then all_executed rest k else k false)
  end.

(** [_can_execute(node, executed)] *)
Definition _can_execute (rt : runtime) (node : node_id) (k : bool -> prog)
  : prog :=
  match nth_error (objects rt) node with
  | Some d =>
      match d_connections d with
      | Some conns => all_executed conns k
      | None => k true
      end
  | None => k true
  end.

(** The first loop of [execute], then the second. *)
Fixpoint submit_ready (rt : runtime) (sorted_nodes : list node_id)
  (futures : list future) : prog :=
  match sorted_nodes with
  | [] => wait_all futures Return
  | node :: rest =>
      InExecuted node (fun b =>
        if b then submit_ready rt rest futures
        else _can_execute rt node (fun ok =>
               if ok
               then Submit node (fun f => submit_ready rt rest (futures ++ [f]))
               else submit_ready rt rest futures))
  end.

(** The square of [_compute_node_distance], on coordinates read as exact
    rationals: the nodes are sorted as their exact distances are.  In
    binary64 two distances that differ can round to the same float, and
    Python's sort then keeps the order of [self.nodes] between the two;
    the examples use coordinates whose distances differ by more than a
    rounding, and the properties of [execute] on every forest use of the
    sorted list only that it holds the nodes of [self.nodes]. *)
Definition distance2 (rt : runtime) (node1 node2 : node_id) : Q :=
  match nth_error (objects rt) node1, nth_error (objects rt) node2 with
  | Some d1, Some d2 =>
      let dx := (fst (d_pos d1) - fst (d_pos d2))%Q in
      let dy := (snd (d_pos d1) - snd (d_pos d2))%Q in
      (dx * dx + dy * dy)%Q
  | _, _ => 0%Q
  end.

(** [sorted(l, key=...)]: stable, smaller keys first. *)
Fixpoint insert_sorted (key : node_id -> Q) (n : node_id) (l : list node_id)
  : list node_id :=
  match l with
  | [] => [n]
  | m :: rest =>
      if Qle_bool (key n) (key m) then n :: l
      else m :: insert_sorted key n rest
  end.

Definition sorted (key : node_id -> Q) (l : list node_id) : list node_id :=
  fold_right (insert_sorted key) [] l.

(** [execute]; the value it returns is the output joined with line feeds
    when the thread reaches [Return]. *)
Definition execute (rt : runtime) : prog :=
  match nodes rt with
  | [] => Return
  | first :: _ =>
      submit_ready rt (sorted (fun n => distance2 rt n first) (nodes rt)) []
  end.

(** ** The worker pool *)

(** What the threads share: the [executed] set, [self.output], the
    globals, and the executor's queue and futures.  [entered] logs the
    calls of [_execute_node_parallel], each when a worker takes its task
    from the queue. *)
Record shared : Type :=
  Shared {
    executed : gset node_id;
    output : list string;
    globals : Env py;
    work_queue : list (future * node_id);
    next_future : future;
    finished : gset future;
    entered : list node_id
  }.

(** A pool: the shared part, the worker threads (idle, or running a task
    for a future), and the thread that called [execute]. *)
Record pool : Type :=
  Pool {
    sh : shared;
    workers : list (option (future * prog));
    main : prog
  }.

(** One operation of a thread; [None] when the thread has returned or
    waits for a future that is not finished. *)
Definition perform (s : shared) (p : prog) : option (shared * prog) :=
  match p with
  | Return => None
  | AddExecuted n k =>
      Some (Shared ({[n]} ∪ executed s) (output s) (globals s) (work_queue s)
                   (next_future s) (finished s) (entered s), k)
  | InExecuted n k => Some (s, k (bool_decide (n ∈ executed s)))
  | Append str k =>
      Some (Shared (executed s) (output s ++ [str]) (globals s) (work_queue s)
                   (next_future s) (finished s) (entered s), k)
  | PyExec code k =>
      let '(g, printed, r) := py_exec py code (globals s) in
      Some (Shared (executed s) (output s ++ printed) g (work_queue s)
                   (next_future s) (finished s) (entered s), k r)
  | PyEval code k =>
      let '(g, printed, r) := py_eval py code (globals s) in
      Some (Shared (executed s) (output s ++ printed) g (work_queue s)
                   (next_future s) (finished s) (entered s), k r)
  | PyNext next k =>
      let '(g, printed, r) := next (globals s) in
      Some (Shared (executed s) (output s ++ printed) g (work_queue s)
                   (next_future s) (finished s) (entered s),
            k (globals s) r)
  | Submit n k =>
      Some (Shared (executed s) (output s) (globals s)
                   (work_queue s ++ [(next_future s, n)])
                   (S (next_future s)) (finished s) (entered s),
            k (next_future s))
  | Result f k =>
      if bool_decide (f ∈ finished s) then Some (s, k) else None
  end.

(** The first idle worker. *)
Fixpoint first_idle (ws : list (option (future * prog))) : option nat :=
  match ws with
  | [] => None
  | None :: _ => Some 0
  | Some _ :: rest => option_map S (first_idle rest)
  end.

Fixpoint set_worker (ws : list (option (future * prog))) (i : nat)
  (w : option (future * prog)) : list (option (future * prog)) :=
  match ws, i with
  | [], _ => []
  | _ :: rest, O => w :: rest
  | w0 :: rest, S j => w0 :: set_worker rest j w
  end.

(** Who moves: the main thread, an idle worker that takes the task at the
    head of the queue, or worker [i] with the next operation of its task. *)
Inductive choice : Set :=
| Main
| Start
| Worker (i : nat).

Definition step (rt : runtime) (c : choice) (st : pool) : option pool :=
  match c with
  | Main =>
      match perform (sh st) (main st) with
      | Some (s, p) => Some (Pool s (workers st) p)
      | None => None
      end
  | Start =>
      match work_queue (sh st), first_idle (workers st) with
      | (f, n) :: queue, Some i =>
          let s := sh st in
          Some (Pool (Shared (executed s) (output s) (globals s) queue
                             (next_future s) (finished s) (entered s ++ [n]))
                     (set_worker (workers st) i
                        (Some (f, _execute_node_parallel rt n)))
                     (main st))
      | _, _ => None
      end
  | Worker i =>
      match nth_error (workers st) i with
      | Some (Some (f, Return)) =>
          let s := sh st in
          Some (Pool (Shared (executed s) (output s) (globals s) (work_queue s)
                             (next_future s) ({[f]} ∪ finished s) (entered s))
                     (set_worker (workers st) i None)
                     (main st))
      | Some (Some (f, p)) =>
          match perform (sh st) p with
          | Some (s, p') =>
              Some (Pool s (set_worker (workers st) i (Some (f, p'))) (main st))
          | None => None
          end
      | _ => None
      end
  end.

(** The pool after the threads have moved as the schedule says; [None]
    when one of them could not. *)
Fixpoint run_schedule (rt : runtime) (schedule : list choice) (st : pool)
  : option pool :=
  match schedule with
  | [] => Some st
  | c :: rest =>
      match step rt c st with
      | Some st' => run_schedule rt rest st'
      | None => None
      end
  end.

(** [PhixeoRuntime(nodes, lines).execute()] with a pool of [max_workers]
    threads ([max_workers=4] in [__init__]). *)
Definition start (rt : runtime) (max_workers : nat) : pool :=
  Pool (Shared ∅ [] (py_init py) [] 0 ∅ [])
       (repeat None max_workers)
       (execute rt).

(** [self.executor.submit(self._execute_node_parallel, node, executed)
    .result()] for a given [executed] set. *)
Definition start_node (rt : runtime) (max_workers : nat) (node : node_id)
  (executed0 : gset node_id) : pool :=
  Pool (Shared executed0 [] (py_init py) [(0, node)] 1 ∅ [])
       (repeat None max_workers)
       (Result 0 Return).

(** The run is over when the main thread has returned. *)
Definition returned (st : pool) : bool :=
  match main st with
  | Return => true
  | _ => false
  end.

(** The moves that a pool of that many workers can make. *)
Definition choices (st : pool) : list choice :=
  Main :: Start :: map Worker (seq 0 (List.length (workers st))).

(** How a run ends. *)
Inductive outcome : Type :=
| Returned (out : list string) (calls : list node_id)
| Stuck        (* no thread can move: the run never returns *)
| Unfinished.  (* more steps than the bound *)

(** Every way the pool can run, up to [bound] steps. *)
Fixpoint outcomes (rt : runtime) (bound : nat) (st : pool) : list outcome :=
  if returned st then [Returned (output (sh st)) (entered (sh st))]
  else
    match bound with
    | O => [Unfinished]
    | S bound' =>
        match flat_map (fun c => match step rt c st with
                                 | Some st' => outcomes rt bound' st'
                                 | None => []
                                 end) (choices st) with
        | [] => [Stuck]
        | l => l
        end
    end.

(** [P] holds of every way the pool can run, up to [bound] steps. *)
Fixpoint every_run (P : outcome -> bool) (rt : runtime) (bound : nat)
  (st : pool) : bool :=
  if returned st then P (Returned (output (sh st)) (entered (sh st)))
  else
    match bound with
    | O => P Unfinished
    | S bound' =>
        match flat_map (fun c => match step rt c st with
                                 | Some st' => [st']
                                 | None => []
                                 end) (choices st) with
        | [] => P Stuck
        | next => forallb (every_run P rt bound') next
        end
    end.

(** ** The operations of one thread *)

Inductive event : Type :=
| EvAdd (n : node_id)
| EvCheck (n : node_id) (b : bool)
| EvAppend (s : string)
| EvExec (code : string) (r : option string)
| EvEval (code : string) (r : string + Val py)
| EvNext (g : Env py) (r : draw)      (* a draw in the globals [g] *)
| EvSubmit (n : node_id) (f : future)
| EvResult (f : future).

(** [runs p t]: the thread with code [p] can perform the operations [t],
    with the answers recorded in them, and then return. *)
Inductive runs : prog -> list event -> Prop :=
| runs_return : runs Return []
| runs_add n k t : runs k t -> runs (AddExecuted n k) (EvAdd n :: t)
| runs_check n b k t : runs (k b) t -> runs (InExecuted n k) (EvCheck n b :: t)
| runs_append s k t : runs k t -> runs (Append s k) (EvAppend s :: t)
| runs_exec code r k t : runs (k r) t -> runs (PyExec code k) (EvExec code r :: t)
| runs_eval code r k t : runs (k r) t -> runs (PyEval code k) (EvEval code r :: t)
| runs_next next g r k t : runs (k g r) t -> runs (PyNext next k) (EvNext g r :: t)
| runs_submit n f k t : runs (k f) t -> runs (Submit n k) (EvSubmit n f :: t)
| runs_result f k t : runs k t -> runs (Result f k) (EvResult f :: t).

(** The operations of a dispatch loop over [conns]: every node is looked
    up in the [executed] set, in order, and submitted when the answer is
    no; [futures] are the handles of the submitted ones. *)
Inductive dispatches : list node_id -> list event -> list future -> Prop :=
| dispatches_nil : dispatches [] [] []
| dispatches_skip conn conns t futures :
    dispatches conns t futures ->
    dispatches (conn :: conns) (EvCheck conn true :: t) futures
| dispatches_submit conn conns f t futures :
    dispatches conns t futures ->
    dispatches (conn :: conns)
               (EvCheck conn false :: EvSubmit conn f :: t) (f :: futures).

(** The operations of a dispatch of [conns] and of the wait for what it
    submitted. *)
Definition children_run (conns : list node_id) (t : list event) : Prop :=
  exists (ds : list event) (futures : list future),
    dispatches conns ds futures /\ t = ds ++ map EvResult futures.

(** One round of a loop over [val]: the record, then the dispatch of the
    children and the wait for them. *)
Definition loop_round (d : node_data) (conns : list node_id) (val : string)
  (round : list event) : Prop :=
  exists body : list event,
    children_run conns body /\
    round = EvAppend (d_value d ++ "  # " ++ val) :: body.

(** The operations of a loop over the iterator [values]: draw after draw,
    and after every draw that gives a value the round of that value; the
    loop ends with the draw that finds the iterator at its end, or with a
    draw that raises and the error marker. *)
Inductive loop_rounds (d : node_data) (conns : list node_id)
  : iterator (Env py) -> list event -> Prop :=
| rounds_exhausted : loop_rounds d conns Exhausted []
| rounds_stopped next rest g :
    loop_rounds d conns (Pending next rest) [EvNext g Stopped]
| rounds_raised next rest g e :
    loop_rounds d conns (Pending next rest)
                [EvNext g (Raised e); EvAppend ("Error in loop: " ++ e)]
| rounds_yielded next rest g val round t :
    loop_round d conns val round ->
    loop_rounds d conns (rest g) t ->
    loop_rounds d conns (Pending next rest)
                (EvNext g (Yielded val) :: round ++ t).

(** The number of calls of [eval] among the operations. *)
Definition count_evals (t : list event) : nat :=
  List.length (List.filter (fun e => match e with EvEval _ _ => true | _ => false end) t).

(** ** Forests without aggregates *)

(** The ["connections"] of a node, none when the key is absent. *)
Definition connections_of (rt : runtime) (n : node_id) : list node_id :=
  match nth_error (objects rt) n with
  | Some d =>
      match d_connections d with
      | Some conns => conns
      | None => []
      end
  | None => []
  end.

(** Code that submits nothing as long as the nodes of [E] are in the
    [executed] set: it looks up nodes of [E] only. *)
Inductive quiet (E : gset node_id) : prog -> Prop :=
| quiet_return : quiet E Return
| quiet_add n k : quiet E k -> quiet E (AddExecuted n k)
| quiet_check n k : n ∈ E -> quiet E (k true) -> quiet E (InExecuted n k)
| quiet_append s k : quiet E k -> quiet E (Append s k)
| quiet_exec code k : (forall r, quiet E (k r)) -> quiet E (PyExec code k)
| quiet_eval code k : (forall r, quiet E (k r)) -> quiet E (PyEval code k)
| quiet_next next k : (forall g r, quiet E (k g r)) -> quiet E (PyNext next k)
| quiet_result f k : quiet E k -> quiet E (Result f k).

(** Code that submits nodes of the list [ns] only, in the order of the
    list and each at most once, and a node only with all its connections
    in the [executed] set, of which [E] is a part. *)
Inductive top_level (rt : runtime) (E : gset node_id)
  : list node_id -> prog -> Prop :=
| top_return ns : top_level rt E ns Return
| top_result ns f k : top_level rt E ns k -> top_level rt E ns (Result f k)
| top_check ns n k :
    top_level rt ({[n]} ∪ E) ns (k true) -> top_level rt E ns (k false) ->
    top_level rt E ns (InExecuted n k)
| top_submit n rest k :
    (forall c, In c (connections_of rt n) -> c ∈ E) ->
    (forall f, top_level rt E rest (k f)) ->
    top_level rt E (n :: rest) (Submit n k)
| top_skip n rest p : top_level rt E rest p -> top_level rt E (n :: rest) p.

(** What holds of every pool that [execute] reaches on a forest without
    aggregates: the main thread alone submits, every node once at most and
    only with its connections executed, so that no task has anything left
    to submit. *)
Definition pool_inv (rt : runtime) (st : pool) : Prop :=
  exists ns : list node_id,
    top_level rt (executed (sh st)) ns (main st) /\
    List.NoDup (entered (sh st) ++ map snd (work_queue (sh st)) ++ ns) /\
    Forall (fun fn => forall c, In c (connections_of rt (snd fn)) ->
                                c ∈ executed (sh st))
           (work_queue (sh st)) /\
    Forall (fun w => match w with
                     | Some (_, p) => quiet (executed (sh st)) p
                     | None => True
                     end)
           (workers st).

End Programs.

Arguments Return {py}.
Arguments AddExecuted {py}.
Arguments InExecuted {py}.
Arguments Append {py}.
Arguments PyExec {py}.
Arguments PyEval {py}.
Arguments PyNext {py}.
Arguments Submit {py}.
Arguments Result {py}.
Arguments EvAdd {py}.
Arguments EvCheck {py}.
Arguments EvAppend {py}.
Arguments EvExec {py}.
Arguments EvEval {py}.
Arguments EvNext {py}.
Arguments EvSubmit {py}.
Arguments EvResult {py}.
Arguments Shared {py}.
Arguments Pool {py}.
Arguments executed {py}.
Arguments output {py}.
Arguments globals {py}.
Arguments work_queue {py}.
Arguments next_future {py}.
Arguments finished {py}.
Arguments entered {py}.
Arguments sh {py}.
Arguments workers {py}.
Arguments main {py}.

(** ** An interpreter for the examples *)

(** The values of the expressions used in the examples: [True] and
    [False], [range(stop)], and the generator that
    [(lambda: [(yield 1.0), (yield 1/0)])()] makes. *)
Inductive example_val : Set :=
| VBool (b : bool)
| VRange (stop : nat)
| VGenerator.

(** An iterator over values that are at hand: no draw prints, raises or
    touches the globals. *)
Fixpoint iterate {Env : Type} (values : list string) : iterator Env :=
  match values with
  | [] => Exhausted
  | val :: rest => Pending (fun g => (g, [], Yielded val)) (fun _ => iterate rest)
  end.

(** The generator of [(lambda: [(yield 1.0), (yield 1/0)])()]: its first
    draw gives [1.0], its second divides by zero. *)
Definition yield_then_raise {Env : Type} : iterator Env :=
  Pending (fun g => (g, [], Yielded "1.0"))
          (fun _ => Pending (fun g => (g, [], Raised "division by zero"))
                            (fun _ => Exhausted)).

(** The values that the iterator yields when it is drawn from in the
    globals [g] and nothing else touches them. *)
Fixpoint drawn {Env : Type} (values : iterator Env) (g : Env) : list string :=
  match values with
  | Exhausted => []
  | Pending next rest =>
      match next g with
      | (g', _, Yielded val) => val :: drawn (rest g) g'
      | _ => []
      end
  end.

Definition syntax_error : string := "invalid syntax (<string>, line 1)".

(** What Python answers on the source strings of the examples: three
    [print] statements, [range(2)], [True], [False], the generator, and
    ["if True"], which is not an expression.  Every other
    string is answered as a syntax error; the examples use none. *)
Definition example_python : Python :=
  MkPython example_val unit
    (fun code g =>
       if String.eqb code "print('x')" then (g, ["x"], None)
       else if String.eqb code "print(1)" then (g, ["1"], None)
       else if String.eqb code "print([i for i in range(10**6)][-1])"
            then (g, ["999999"], None)
       else (g, [], Some syntax_error))
    (fun code g =>
       if String.eqb code "range(2)" then (g, [], inr (VRange 2))
       else if String.eqb code "(lambda: [(yield 1.0), (yield 1/0)])()"
            then (g, [], inr VGenerator)
       else if String.eqb code "True" then (g, [], inr (VBool true))
       else if String.eqb code "False" then (g, [], inr (VBool false))
       else (g, [], inl syntax_error))
    (fun v => match v with
              | VBool b => b
              | VRange stop => negb (stop =? 0)
              | VGenerator => true
              end)
    (fun v =>
       match v with
       | VBool _ => inl "'bool' object is not iterable"
       | VRange stop =>
           inr (iterate (map (fun n => NilEmpty.string_of_uint (Nat.to_uint n))
                             (seq 0 stop)))
       | VGenerator => inr yield_then_raise
       end)
    tt.

(** ** The forests of the examples *)

(** A loop over [range(2)] with one child, a [print]. *)
Definition loop_with_child : runtime :=
  Runtime [NodeData Hexagonal "i in range(2)" (Some [1]) None (50, 0)%Q;
           NodeData Tetrahedral "print('x')" (Some []) None (-47, 43)%Q]
          [0; 1].

(** The same, the child having been created first. *)
Definition child_before_loop : runtime :=
  Runtime [NodeData Tetrahedral "print('x')" (Some []) None (50, 0)%Q;
           NodeData Hexagonal "i in range(2)" (Some [0]) None (-47, 43)%Q]
          [0; 1].

(** A conditional with the text of a source line, and one child. *)
Definition conditional_with_child : runtime :=
  Runtime [NodeData Pentagonal "if True:" (Some [1]) None (50, 0)%Q;
           NodeData Tetrahedral "print('x')" (Some []) None (-47, 43)%Q]
          [0; 1].

(** A conditional with a bare condition, and one child. *)
Definition bare_conditional_with_child : runtime :=
  Runtime [NodeData Pentagonal "True" (Some [1]) None (50, 0)%Q;
           NodeData Tetrahedral "print('x')" (Some []) None (-47, 43)%Q]
          [0; 1].

(** A loop over a generator whose second draw raises, and one child. *)
Definition loop_over_generator : runtime :=
  Runtime [NodeData Hexagonal "i in (lambda: [(yield 1.0), (yield 1/0)])()" (Some [1])
                    None (50, 0)%Q;
           NodeData Tetrahedral "print('x')" (Some []) None (-47, 43)%Q]
          [0; 1].

(** A loop whose text lacks [" in "], and one child. *)
Definition malformed_loop_with_child : runtime :=
  Runtime [NodeData Hexagonal "for x range(3):" (Some [1]) None (50, 0)%Q;
           NodeData Tetrahedral "print('x')" (Some []) None (-47, 43)%Q]
          [0; 1].

(** A loop over [range(2)] with two children. *)
Definition loop_with_two_children : runtime :=
  Runtime [NodeData Hexagonal "i in range(2)" (Some [1; 2]) None (50, 0)%Q;
           NodeData Tetrahedral "print('x')" (Some []) None (-47, 43)%Q;
           NodeData Tetrahedral "print(1)" (Some []) None (10, -80)%Q]
          [0; 1; 2].

(** A loop whose text lacks [" in "], beside a statement. *)
Definition malformed_loop_and_sibling : runtime :=
  Runtime [NodeData Hexagonal "for x range(3):" (Some []) None (50, 0)%Q;
           NodeData Tetrahedral "print('x')" (Some []) None (-47, 43)%Q]
          [0; 1].

(** Two statements, the first of which takes its time, and a loop that is
    connected to both. *)
Definition loop_after_statements : runtime :=
  Runtime [NodeData Tetrahedral "print([i for i in range(10**6)][-1])"
                    (Some []) None (50, 0)%Q;
           NodeData Tetrahedral "print('x')" (Some []) None (-47, 43)%Q;
           NodeData Hexagonal "i in range(2)" (Some [0; 1]) None (-60, -90)%Q]
          [0; 1; 2].

(** An aggregate that holds one statement. *)
Definition aggregate_with_subnode : runtime :=
  Runtime [NodeData Fractal "group_tetrahedral" (Some []) (Some [1]) (50, 0)%Q;
           NodeData Tetrahedral "print(1)" (Some []) None (-47, 43)%Q]
          [0; 1].

(** What a schedule makes of [execute] with the interpreter of the
    examples: whether [execute] has returned, the output, and the calls of
    [_execute_node_parallel] in the order in which the workers took them
    from the queue. *)
Definition observe (rt : runtime) (max_workers : nat) (schedule : list choice)
  : option (bool * list string * list node_id) :=
  match run_schedule example_python rt schedule
          (start example_python rt max_workers) with
  | Some st => Some (returned example_python st, output (sh st), entered (sh st))
  | None => None
  end.

(** The main thread runs its first loop before any worker starts. *)
Definition main_first : list choice :=
  [Main; Main; Main; Main;
   Start; Worker 0; Worker 0; Worker 0;
   Main].

(** The first task is finished before the main thread looks at the second
    node. *)
Definition worker_first : list choice :=
  [Main; Main;
   Start; Worker 0; Worker 0; Worker 0;
   Main; Main; Main;
   Start; Worker 0; Worker 0; Worker 0; Worker 0; Worker 0; Worker 0;
   Worker 0; Worker 0; Worker 0;
   Main; Main].

(** One worker; the first statement is still running when the main thread
    looks at the loop, and the second statement waits in the queue. *)
Definition one_worker_busy : list choice :=
  [Main; Main; Start; Worker 0;
   Main; Main; Main; Main; Main;
   Worker 0; Worker 0;
   Main;
   Start; Worker 0; Worker 0; Worker 0;
   Main].

(** Four workers; the first statement is still running when the second is
    submitted, a second worker runs the second statement at once, and the
    main thread then finds both in the [executed] set and submits the
    loop. *)
Definition second_worker_helps : list choice :=
  [Main; Main; Start; Worker 0;
   Main; Main; Start; Worker 1; Worker 1; Worker 1;
   Main; Main; Main; Main;
   Start; Worker 1; Worker 1; Worker 1; Worker 1; Worker 1; Worker 1;
   Worker 1; Worker 1; Worker 1; Worker 1; Worker 1;
   Worker 0; Worker 0;
   Main; Main; Main].

(** The main thread submits the aggregate and its subnode before a worker
    starts; the aggregate then finds the subnode not yet executed. *)
Definition submitted_twice : list choice :=
  [Main; Main; Main; Main;
   Start; Worker 0; Worker 0; Worker 0; Worker 0;
   Start; Start;
   Worker 1; Worker 1; Worker 1;
   Worker 2; Worker 2; Worker 2;
   Worker 0; Worker 0;
   Main; Main].

(** Some run returns with the output [out]. *)
Definition returns_output (out : list string) (os : list outcome) : bool :=
  existsb (fun o => match o with
                    | Returned out' _ =>
                        if List.list_eq_dec string_dec out out' then true
                        else false
                    | _ => false
                    end) os.

End Runtime.
(* ===================================================================== *)
(** * The runtime: the order of the calls and the futures *)
(* ===================================================================== *)

Module RuntimeOrder.

Import Parser Runtime.

Section Predicates.

Context (py : Python).

(** Code of a task that goes straight to its end as long as the nodes of
    [E] are in the [executed] set: it looks up nodes of [E] only, adds
    nodes of [l] only, submits nothing and waits for nothing. *)
Inductive calm (E : gset node_id) (l : list node_id) : prog py -> Prop :=
| calm_return : calm E l Return
| calm_add n k : In n l -> calm E l k -> calm E l (AddExecuted n k)
| calm_check n k : n ∈ E -> calm E l (k true) -> calm E l (InExecuted n k)
| calm_append s k : calm E l k -> calm E l (Append s k)
| calm_exec code k : (forall r, calm E l (k r)) -> calm E l (PyExec code k)
| calm_eval code k : (forall r, calm E l (k r)) -> calm E l (PyEval code k)
| calm_next next k :
    (forall g r, calm E l (k g r)) -> calm E l (PyNext next k).

(** Code that waits for the future [f] before it returns. *)
Inductive will_wait (f : future) : prog py -> Prop :=
| will_wait_here k : will_wait f (Result f k)
| will_wait_later g k : will_wait f k -> will_wait f (Result g k)
| will_wait_check n k :
    (forall b, will_wait f (k b)) -> will_wait f (InExecuted n k)
| will_wait_submit n k :
    (forall g, will_wait f (k g)) -> will_wait f (Submit n k).

(** Code of a thread that only looks up, submits and waits, when [nf] is
    the handle of the next task: it submits nodes of [N] only, waits for
    handles that have been given out only, and waits for every task it
    submits. *)
Inductive supervises (N : list node_id) (nf : future) : prog py -> Prop :=
| supervises_return : supervises N nf Return
| supervises_result f k :
    f < nf -> supervises N nf k -> supervises N nf (Result f k)
| supervises_check n k :
    (forall b, supervises N nf (k b)) -> supervises N nf (InExecuted n k)
| supervises_submit n k :
    In n N -> will_wait nf (k nf) -> supervises N (S nf) (k nf) ->
    supervises N nf (Submit n k).

(** Code that submits the nodes of the list, all of them and in that
    order, as long as it finds none of them in the [executed] set. *)
Inductive submits : list node_id -> prog py -> Prop :=
| submits_return : submits [] Return
| submits_result ns f k : submits ns k -> submits ns (Result f k)
| submits_check n ns k :
    submits (n :: ns) (k false) -> submits (n :: ns) (InExecuted n k)
| submits_submit n ns k :
    (forall f, submits ns (k f)) -> submits (n :: ns) (Submit n k).

(** The handles of the tasks that the workers are running. *)
Definition held (ws : list (option (future * prog py))) : list future :=
  flat_map (fun w => match w with
                     | Some (f, _) => [f]
                     | None => []
                     end) ws.

(** In the list of the calls every node comes behind all the nodes it is
    connected to. *)
Definition prerequisites_first (rt : runtime) (calls : list node_id) : Prop :=
  forall (pre post : list node_id) (n : node_id),
    calls = pre ++ n :: post ->
    forall c, In c (connections_of rt n) -> In c pre.

(** What holds of every pool that [execute] reaches on a forest without
    aggregates, beside [pool_inv]: the calls are for nodes of
    [self.nodes], in the order in which the main thread submitted them,
    the [k]-th call being that of the task with handle [k]; a node is
    called behind its connections; a task runs to its end without
    waiting; every handle belongs to a task that is queued, running or
    finished, and the main thread waits for each of them. *)
Definition order_inv (rt : runtime) (max_workers : nat) (st : pool py)
  : Prop :=
  let s := sh st in
  pool_inv py rt st /\
  List.length (workers st) = max_workers /\
  (forall x, x ∈ executed s -> In x (entered s)) /\
  incl (entered s ++ map snd (work_queue s)) (nodes rt) /\
  Forall (fun w => match w with
                   | Some (_, p) => calm (executed s) (entered s) p
                   | None => True
                   end) (workers st) /\
  prerequisites_first rt (entered s) /\
  supervises (nodes rt) (next_future s) (main st) /\
  map fst (work_queue s)
  = seq (List.length (entered s)) (List.length (work_queue s)) /\
  next_future s = List.length (entered s) + List.length (work_queue s) /\
  List.NoDup (held (workers st)) /\
  (forall f, In f (held (workers st)) ->
             f < List.length (entered s) /\ f ∉ finished s) /\
  (forall f, f ∈ finished s -> f < List.length (entered s)) /\
  (forall f, f < List.length (entered s) ->
             f ∈ finished s \/ In f (held (workers st))) /\
  (forall f, f < next_future s -> f ∈ finished s \/ will_wait f (main st)).

(** A forest in which no node has a connection. *)
Definition unconnected (rt : runtime) : Prop :=
  Forall (fun d => d_connections d = None \/ d_connections d = Some [])
         (objects rt).

(** The nodes in the order in which [execute] looks at them. *)
Definition sorted_nodes (rt : runtime) : list node_id :=
  match nodes rt with
  | [] => []
  | first :: _ => sorted (fun n => distance2 rt n first) (nodes rt)
  end.

(** On a forest without connections the main thread submits every node:
    the calls, the queue and the nodes still to be submitted make up the
    sorted list. *)
Definition complete_inv (rt : runtime) (st : pool py) : Prop :=
  exists ns : list node_id,
    submits ns (main st) /\
    entered (sh st) ++ map snd (work_queue (sh st)) ++ ns = sorted_nodes rt.

End Predicates.

(** ** Schedules of the examples *)

(** One worker runs the two tasks one after the other, then the main
    thread ends its two waits. *)
Definition one_by_one : list choice :=
  [Main; Main; Main; Main;
   Start; Worker 0; Worker 0; Worker 0;
   Start; Worker 0; Worker 0; Worker 0;
   Main; Main].

(** The main thread has submitted the two nodes and waits for the first. *)
Definition both_submitted : list choice := [Main; Main; Main; Main].

End RuntimeOrder.

(* ===================================================================== *)
(** * The runtime: nodes at the edge of what a branch expects *)
(* ===================================================================== *)

Module RuntimeEdge.

Import Parser Runtime.

(** A loop whose dictionary has no ["connections"] key. *)
Definition loop_without_connections : runtime :=
  Runtime [NodeData Hexagonal "i in range(2)" None None (50, 0)%Q] [0].

(** A loop over a comprehension: its text holds [" in "] twice. *)
Definition loop_over_comprehension : runtime :=
  Runtime [NodeData Hexagonal "i in [j for j in range(2)]" (Some []) None
                    (50, 0)%Q]
          [0].

(** Four aggregates, each of which holds one statement; the statements
    are not in [self.nodes], as for the aggregates that [optimize]
    makes. *)
Definition four_aggregates : runtime :=
  Runtime [NodeData Fractal "group_tetrahedral" (Some []) (Some [4]) (50, 0)%Q;
           NodeData Fractal "group_tetrahedral" (Some []) (Some [5]) (60, 0)%Q;
           NodeData Fractal "group_tetrahedral" (Some []) (Some [6]) (70, 0)%Q;
           NodeData Fractal "group_tetrahedral" (Some []) (Some [7]) (80, 0)%Q;
           NodeData Tetrahedral "print(1)" None None (50, 10)%Q;
           NodeData Tetrahedral "print(1)" None None (60, 10)%Q;
           NodeData Tetrahedral "print(1)" None None (70, 10)%Q;
           NodeData Tetrahedral "print(1)" None None (80, 10)%Q]
          [0; 1; 2; 3].

(** The main thread submits the four aggregates; each of the four workers
    takes one and runs it up to the wait for its statement. *)
Definition all_workers_wait : list choice :=
  [Main; Main; Main; Main; Main; Main; Main; Main;
   Start; Start; Start; Start;
   Worker 0; Worker 0; Worker 0; Worker 0;
   Worker 1; Worker 1; Worker 1; Worker 1;
   Worker 2; Worker 2; Worker 2; Worker 2;
   Worker 3; Worker 3; Worker 3; Worker 3].

End RuntimeEdge.


(* ===================================================================== *)
(** * Properties of the string primitives *)
(* ===================================================================== *)

Module PyStrFacts.
Import PyStr.

Lemma prefix_iff (p s : string) :
  String.prefix p s = true <-> exists b : string, s = (p ++ b)%string.
Proof.
  revert s; induction p as [|c p IH]; intros [|d s]; simpl;
    try (split; [intros _; eexists; reflexivity | reflexivity]).
  - split; [discriminate | intros [b Hb]; discriminate].
  - destruct (ascii_dec c d) as [->|Hne].
    + split.
      * intros H. apply IH in H as [b ->]. now exists b.
      * intros [b Hb]. apply IH. exists b. simpl in Hb. congruence.
    + split; [discriminate | intros [b Hb]; simpl in Hb; congruence].
Qed.

Lemma contains_iff (pat s : string) : contains pat s = true <-> occurs pat s.
Proof.
  split.
  - induction s as [|c s IH]; cbn [contains]; rewrite orb_true_iff;
      intros [H|H]; try discriminate.
    + apply prefix_iff in H as [b Hb]. exists EmptyString, b. exact Hb.
    + apply prefix_iff in H as [b Hb]. exists EmptyString, b. exact Hb.
    + destruct (IH H) as (a & b & ->). exists (String c a), b. reflexivity.
  - intros (a & b & ->). induction a as [|c a IH].
    + change (EmptyString ++ pat ++ b)%string with (pat ++ b)%string.
      assert (Hp : String.prefix pat (pat ++ b) = true)
        by (apply prefix_iff; eauto).
      destruct (pat ++ b)%string; cbn [contains]; rewrite Hp; reflexivity.
    + change (String c a ++ pat ++ b)%string
        with (String c (a ++ pat ++ b))%string.
      cbn [contains]. rewrite IH. apply orb_true_r.
Qed.

Lemma contains_false_iff (pat s : string) :
  contains pat s = false <-> ~ occurs pat s.
Proof.
  rewrite <- contains_iff. destruct (contains pat s); split; congruence.
Qed.

Lemma rev_string_snoc (c : ascii) (cur : list ascii) (s : string) :
  (rev_string (c :: cur) ++ s)%string = (rev_string cur ++ String c s)%string.
Proof.
  unfold rev_string; simpl. induction (rev cur) as [|d l IH]; simpl.
  - reflexivity.
  - now rewrite IH.
Qed.

(** Without an occurrence of the separator, [split] returns the whole
    string as its only piece. *)
Lemma split_from_absent (sep s : string) (cur : list ascii) :
  contains sep s = false ->
  split_from sep s 0 cur = [(rev_string cur ++ s)%string].
Proof.
  revert cur; induction s as [|c s IH]; intros cur H.
  - cbn [split_from]. f_equal. unfold rev_string.
    induction (rev cur) as [|d l IHl]; simpl; congruence.
  - cbn [contains] in H. apply orb_false_iff in H as [Hp Hc].
    cbn [split_from]. rewrite Hp, (IH _ Hc). now rewrite rev_string_snoc.
Qed.

Lemma split_absent (sep s : string) :
  contains sep s = false -> split sep s = [s].
Proof. intros H. unfold split. now rewrite split_from_absent. Qed.

End PyStrFacts.

(* ===================================================================== *)
(** * Properties of the parser *)
(* ===================================================================== *)

Module ParserFacts.

Import PyStr PyStrFacts Parser.

(** ** Classification *)

Ltac split_contains pat line :=
  let H := fresh "H" in
  destruct (contains pat line) eqn:H;
  [apply contains_iff in H | apply contains_false_iff in H].

Lemma create_node_value (line : string) (x y : R) (nd : node) :
  _create_node line x y = Some nd ->
  n_value nd = line /\ n_x nd = x /\ n_y nd = y /\ n_subnodes nd = None /\
  n_connections nd =
    match n_type nd with Tetrahedral => None | _ => Some [] end.
Proof.
  unfold _create_node.
  destruct (contains "print" line || contains "=" line);
    [|destruct (contains "for" line);
      [|destruct (contains "if" line);
        [|destruct (contains "def" line)]]];
    intros H; inversion H; subst; simpl; auto.
Qed.

(** C3 as stated fails: ["if x == 2:"] holds an ["="], and the statement
    rule, which [_create_node] tries first, takes it. *)
Lemma create_node_order_counterexample :
  ~ (forall (line : string) (x y : R),
        strip line = line -> line <> EmptyString ->
        option_map n_type (_create_node line x y) = spec_classify line).
Proof.
  intros H.
  specialize (H "if x == 2:" 0%R 0%R eq_refl ltac:(discriminate)).
  lazy in H. discriminate H.
Qed.

(** C3, amended: [_create_node] tries the statement rule (["print"] or
    ["="]) first, then ["for"], ["if"] and ["def"] (no blank after the
    keyword), and skips every other line; a created node carries the line as
    its value; in particular ["if x == 2:"] becomes a statement. *)
Theorem create_node_dispatch (line : string) (x y : R) :
  dispatch line (option_map n_type (_create_node line x y)) /\
  option_map n_value (_create_node line x y)
    = option_map (fun _ => line) (_create_node line x y) /\
  option_map n_type (_create_node "if x == 2:" x y) = Some Tetrahedral.
Proof.
  split; [|split; [|reflexivity]].
  - unfold _create_node.
    split_contains "print" line; [constructor 1; auto|].
    split_contains "=" line; [constructor 1; auto|].
    split_contains "for" line; [constructor 2; auto|].
    split_contains "if" line; [constructor 3; auto|].
    split_contains "def" line; [constructor 4; auto|].
    constructor 5; auto.
  - destruct (_create_node line x y) as [nd|] eqn:E; [|reflexivity].
    apply create_node_value in E as (E & _). simpl. now rewrite E.
Qed.

(** ** Creation *)

Lemma lstrip_idem (s : string) : lstrip (lstrip s) = lstrip s.
Proof.
  induction s as [|c s IH]; simpl; [reflexivity|].
  destruct (isspace c) eqn:E; [exact IH|]. simpl. now rewrite E.
Qed.

Lemma collect_submit_fresh (lines : list string) (n : nat) :
  Forall fresh_node (collect (submit_lines n lines)).
Proof.
  revert n; induction lines as [|l rest IH]; intros n; simpl; [constructor|].
  destruct (strip l) as [|c line] eqn:E; [apply IH|].
  simpl. destruct (_create_node _ _ _) as [nd|] eqn:Hc; [|apply IH].
  constructor; [|apply IH].
  exists (String c line). repeat split; try discriminate; [|exact Hc].
  rewrite <- E. apply lstrip_idem.
Qed.

Lemma collect_submit_length (lines : list string) (n : nat) :
  List.length (collect (submit_lines n lines)) <= List.length lines.
Proof.
  revert n; induction lines as [|l rest IH]; intros n; simpl; [lia|].
  destruct (strip l); [specialize (IH (S n)); lia|].
  simpl. destruct (_create_node _ _ _); simpl; specialize (IH (S n)); lia.
Qed.

(** [lines[index]] in [_process_connections] is always in range. *)
Lemma parse_index_in_range (lines : list string) :
  List.length (map snd (created lines)) <= List.length lines.
Proof. rewrite length_map. apply collect_submit_length. Qed.

Lemma collect_submit_all (lines : list string) (n : nat) :
  List.length (collect (submit_lines n lines)) = List.length lines ->
  map fst (collect (submit_lines n lines)) = seq n (List.length lines).
Proof.
  revert n; induction lines as [|l rest IH]; intros n; simpl; [reflexivity|].
  pose proof (collect_submit_length rest (S n)) as Hle.
  destruct (strip l); [lia|].
  simpl. destruct (_create_node _ _ _); simpl; [|lia].
  intros H. f_equal. apply IH. lia.
Qed.

Lemma created_line_number (lines : list string) (i : nat) :
  every_line_yields_a_node lines -> i < List.length lines ->
  exists nd, nth_error (created lines) i = Some (i, nd).
Proof.
  intros Hall Hi. pose proof (collect_submit_all lines 0 Hall) as Hseq.
  fold (created lines) in Hseq.
  destruct (nth_error (created lines) i) as [[n nd]|] eqn:E.
  - exists nd. f_equal. f_equal.
    pose proof (map_nth_error fst i (created lines) E) as Hn.
    rewrite Hseq in Hn. simpl in Hn.
    rewrite nth_error_seq in Hn.
    destruct (Nat.ltb_spec i (List.length lines)); [|lia]. simpl in Hn. congruence.
  - apply nth_error_None in E. unfold every_line_yields_a_node in Hall. lia.
Qed.

Lemma node_indent_line (lines : list string) (i : nat) :
  every_line_yields_a_node lines -> i < List.length lines ->
  node_indent lines i = indent_of (nth i lines EmptyString).
Proof.
  intros Hall Hi. unfold node_indent.
  destruct (created_line_number lines i Hall Hi) as [nd ->]. reflexivity.
Qed.

(** ** Connections *)

Lemma scan_back_some (lines : list string) (d j0 j : nat) :
  scan_back lines d j0 = Some j <->
  j < j0 /\ indent_of (nth j lines EmptyString) < d /\
  forall k, j < k < j0 -> ~ indent_of (nth k lines EmptyString) < d.
Proof.
  induction j0 as [|j0 IH]; simpl.
  - split; [discriminate | lia].
  - destruct (Nat.ltb_spec (indent_of (nth j0 lines EmptyString)) d) as [Hd|Hd].
    + split.
      * intros [= <-]. repeat split; [lia | exact Hd | intros; lia].
      * intros (Hlt & _ & Hk). f_equal.
        destruct (Nat.eq_dec j0 j) as [|Hne]; [assumption|].
        exfalso. apply (Hk j0); [lia | exact Hd].
    + rewrite IH. split; intros (Hlt & Hj & Hk).
      * repeat split; [lia | exact Hj |].
        intros k Hk'. destruct (Nat.eq_dec k j0) as [->|Hne]; [lia|].
        apply Hk; lia.
      * assert (j <> j0) by (intros ->; lia).
        repeat split; [lia | exact Hj | intros; apply Hk; lia].
Qed.

Lemma recorded_parent_some (lines : list string) (i j : nat) :
  recorded_parent lines i = Some j <->
  j < i /\
  indent_of (nth j lines EmptyString) < indent_of (nth i lines EmptyString) /\
  forall k, j < k < i ->
    ~ indent_of (nth k lines EmptyString) < indent_of (nth i lines EmptyString).
Proof.
  unfold recorded_parent.
  destruct (Nat.ltb_spec 0 (indent_of (nth i lines EmptyString))) as [Hd|Hd].
  - apply scan_back_some.
  - split; [discriminate | lia].
Qed.

Lemma add_connections_nth (lines : list string) (nodes : list node) (i k : nat) :
  nth_error (add_connections_from i nodes lines) k =
  option_map (fun nd => connect_node nd lines (i + k)) (nth_error nodes k).
Proof.
  revert i k; induction nodes as [|nd rest IH]; intros i [|k]; simpl;
    try reflexivity.
  - now rewrite Nat.add_0_r.
  - rewrite IH. now replace (S i + k) with (i + S k) by lia.
Qed.

Lemma add_connections_length (lines : list string) (nodes : list node) (i : nat) :
  List.length (add_connections_from i nodes lines) = List.length nodes.
Proof.
  revert i; induction nodes as [|nd rest IH]; intros i; simpl; auto.
Qed.

Lemma parse_lines_nth (lines : list string) (i : nat) :
  nth_error (parse_lines lines) i =
  option_map (fun p => connect_node (snd p) lines i)
             (nth_error (created lines) i).
Proof.
  unfold parse_lines, _add_connections_parallel.
  rewrite add_connections_nth, nth_error_map. simpl.
  destruct (nth_error (created lines) i); reflexivity.
Qed.

Lemma created_fresh (lines : list string) (i : nat) (p : nat * node) :
  nth_error (created lines) i = Some p -> fresh_node p.
Proof.
  intros H. apply nth_error_In in H.
  pose proof (collect_submit_fresh lines 0) as Hall.
  rewrite List.Forall_forall in Hall. now apply Hall.
Qed.

(** The parent of a parsed node: none for a statement, the recorded one
    for the other kinds. *)
Lemma parent_of_parse (lines : list string) (i : nat) (nd : node) :
  nth_error (parse_lines lines) i = Some nd ->
  parent_of (parse_lines lines) i =
    match n_type nd with
    | Tetrahedral => None
    | _ => recorded_parent lines i
    end.
Proof.
  intros H. unfold parent_of. rewrite H.
  rewrite parse_lines_nth in H.
  destruct (nth_error (created lines) i) as [[n nd0]|] eqn:E; [|discriminate].
  destruct (created_fresh _ _ _ E) as (line & _ & _ & Hc).
  apply create_node_value in Hc as (_ & _ & _ & _ & Hconn).
  simpl in *. injection H as <-. unfold connect_node.
  destruct (n_type nd0) eqn:T; rewrite Hconn; simpl; rewrite ?Hconn, ?T;
    [reflexivity|..];
    unfold _process_connections, recorded_parent;
    (destruct (0 <? indent_of (nth i lines EmptyString));
     [destruct (scan_back lines (indent_of (nth i lines EmptyString)) i)|]);
    reflexivity.
Qed.

Lemma parent_of_parse_lt (lines : list string) (i j : nat) :
  parent_of (parse_lines lines) i = Some j -> j < i.
Proof.
  intros H.
  destruct (nth_error (parse_lines lines) i) as [nd|] eqn:E.
  - rewrite (parent_of_parse _ _ _ E) in H.
    destruct (n_type nd); try discriminate;
      now apply recorded_parent_some in H.
  - unfold parent_of in H. now rewrite E in H.
Qed.

Lemma ancestor_lt (lines : list string) (i j : nat) :
  ancestor (parse_lines lines) i j -> j < i.
Proof.
  induction 1 as [i j H|i k j _ IH1 _ IH2].
  - now apply parent_of_parse_lt in H.
  - lia.
Qed.

(** C2 as stated fails: the statement ["    print(i)"] comes right after the
    less indented ["for i in range(3):"], yet it gets no parent, because a
    statement node has no ["connections"] list to record one in. *)
Lemma statement_parent_counterexample :
  ~ (forall (code : string) (i j : nat),
        nearest_less (splitlines code) i j ->
        parent_of (parse code) i = Some j).
Proof.
  intros H.
  specialize (H ("for i in range(3):" ++ LF ++ "    print(i)")%string 1 0).
  assert (Hn : nearest_less
                 (splitlines ("for i in range(3):" ++ LF ++ "    print(i)")) 1 0).
  { repeat split; [lia | lazy; lia | intros k Hk; lia]. }
  specialize (H Hn). lazy in H. discriminate H.
Qed.

(** C2, amended.  For every source no node is its own ancestor.  When
    every line of the source yields a node: a statement node has no parent;
    the parent of a loop, conditional or function node is the nearest node
    created before it whose indentation is strictly less than its own, and
    the node is a root when there is none; so every node that has a parent
    is indented strictly more than its parent. *)
Theorem parse_parent_nearest_less (code : string) :
  let lines := splitlines code in
  let nodes := parse code in
  (forall i, ~ ancestor nodes i i) /\
  (every_line_yields_a_node lines ->
   forall (i : nat) (nd : node), nth_error nodes i = Some nd ->
     (n_type nd = Tetrahedral -> parent_of nodes i = None) /\
     (n_type nd <> Tetrahedral ->
      forall j, parent_of nodes i = Some j <-> nearest_less lines i j) /\
     (forall j, parent_of nodes i = Some j ->
                node_indent lines j < node_indent lines i)).
Proof.
  intros lines nodes. unfold nodes, parse. fold lines. split.
  - intros i Hi. apply ancestor_lt in Hi. lia.
  - intros Hall i nd Hnd.
    assert (Hi : i < List.length lines).
    { pose proof (parse_index_in_range lines) as Hle.
      assert (i < List.length (parse_lines lines))
        by (apply nth_error_Some; congruence).
      assert (List.length (parse_lines lines)
              = List.length (map snd (created lines))).
      { apply add_connections_length. }
      lia. }
    assert (Hiff : forall j, recorded_parent lines i = Some j
                             <-> nearest_less lines i j).
    { intros j. rewrite recorded_parent_some. unfold nearest_less.
      rewrite (node_indent_line lines i Hall Hi).
      split; intros (Hlt & Hj & Hk); (split; [exact Hlt|]).
      - rewrite (node_indent_line lines j Hall) by lia.
        split; [exact Hj|]. intros k Hk'.
        rewrite (node_indent_line lines k Hall) by lia. now apply Hk.
      - rewrite (node_indent_line lines j Hall) in Hj by lia.
        split; [exact Hj|]. intros k Hk'.
        specialize (Hk k Hk').
        rewrite (node_indent_line lines k Hall) in Hk by lia. exact Hk. }
    rewrite (parent_of_parse lines i nd Hnd).
    split; [intros ->; reflexivity|]. split.
    + intros Hty j. destruct (n_type nd); [congruence|..]; apply Hiff.
    + intros j Hj. assert (Hr : recorded_parent lines i = Some j)
        by (destruct (n_type nd); [discriminate|..]; exact Hj).
      apply Hiff in Hr. apply Hr.
Qed.

Lemma parse_parent_nearest_less_witness :
  every_line_yields_a_node
    (splitlines ("def f():" ++ LF ++ "    for a in b:")) /\
  forall j,
    parent_of (parse ("def f():" ++ LF ++ "    for a in b:")) 1 = Some j <->
    nearest_less (splitlines ("def f():" ++ LF ++ "    for a in b:")) 1 j.
Proof.
  assert (Hall : every_line_yields_a_node
                   (splitlines ("def f():" ++ LF ++ "    for a in b:")))
    by reflexivity.
  split; [exact Hall|].
  refine (proj1 (proj2 (proj2
            (parse_parent_nearest_less ("def f():" ++ LF ++ "    for a in b:"))
            Hall 1 _ eq_refl)) _).
  discriminate.
Defined.

(** ** The fractal optimizer *)

Lemma count_leaves_subnodes (nd : node) (subs : list node) :
  n_subnodes nd = Some subs -> count_leaves nd = total_leaves subs.
Proof.
  intros H. destruct nd as [t sz v x y c cs sb]. simpl in H. subst sb.
  unfold total_leaves. simpl.
  induction subs as [|m l IH]; simpl; [reflexivity | now rewrite IH].
Qed.

Lemma count_leaves_plain (nd : node) :
  n_subnodes nd = None -> count_leaves nd = 1.
Proof.
  intros H. destruct nd as [t sz v x y c cs sb]. simpl in H. now subst sb.
Qed.

Lemma total_leaves_plain (nodes : list node) :
  no_aggregate nodes -> total_leaves nodes = List.length nodes.
Proof.
  unfold total_leaves. induction 1 as [|nd l H _ IH]; simpl; [reflexivity|].
  now rewrite (count_leaves_plain nd H), IH.
Qed.

Lemma total_leaves_app (l1 l2 : list node) :
  total_leaves (l1 ++ l2) = total_leaves l1 + total_leaves l2.
Proof. unfold total_leaves. now rewrite map_app, list_sum_app. Qed.

Lemma wraps_leaves (group : list node) (nd : node) :
  wraps group nd -> count_leaves nd = total_leaves group.
Proof.
  intros [n|first second others].
  - unfold total_leaves. simpl. lia.
  - now apply count_leaves_subnodes.
Qed.

Lemma similar_total (a b : node) :
  first_token (n_value a) <> None -> first_token (n_value b) <> None ->
  exists r : bool, _nodes_are_similar a b = Some r.
Proof.
  intros Ha Hb. unfold _nodes_are_similar.
  destruct (node_type_eqb _ _); [|eauto].
  destruct (first_token (n_value a)); [|congruence].
  destruct (first_token (n_value b)); [|congruence]. eauto.
Qed.

Lemma last_cons (b c : node) (rest : list node) :
  List.last (b :: rest) c = List.last rest b.
Proof.
  revert b c; induction rest as [|a rest IH]; intros b c; [reflexivity|].
  change (List.last (b :: a :: rest) c) with (List.last (a :: rest) c).
  now rewrite (IH a c), (IH a b).
Qed.

Lemma last_in (c : node) (cs : list node) : In (List.last cs c) (c :: cs).
Proof.
  revert c; induction cs as [|b rest IH]; intros c; [now left|].
  rewrite last_cons. right. apply IH.
Qed.

Lemma similar_run_snoc (group : list node) (c nd : node) :
  similar_run (c :: group) ->
  _nodes_are_similar (List.last group c) nd = Some true ->
  similar_run ((c :: group) ++ [nd]).
Proof.
  revert c; induction group as [|b rest IH]; intros c Hrun Hsim.
  - simpl in *. auto.
  - destruct Hrun as [Hcb Hrest]. split; [exact Hcb|].
    apply IH; [exact Hrest|]. now rewrite last_cons in Hsim.
Qed.

(** The loop of [_group_similar_nodes] ends normally and keeps every node,
    in order. *)
Lemma group_loop_spec (nodes : list node) :
  forall groups current_group : list _,
    values_have_tokens (current_group ++ nodes) ->
    Forall (fun g : list node => g <> []) groups ->
    Forall similar_run groups ->
    similar_run current_group ->
    exists G C,
      group_loop nodes groups current_group = Some (G, C) /\
      concat G ++ C = concat groups ++ current_group ++ nodes /\
      (C = [] -> current_group ++ nodes = []) /\
      Forall (fun g : list node => g <> []) G /\
      Forall similar_run G /\ similar_run C.
Proof.
  induction nodes as [|nd rest IH]; intros groups cur Htok Hne Hruns Hcur.
  - exists groups, cur. simpl. rewrite app_nil_r. auto 10.
  - simpl. destruct cur as [|c cs].
    + apply (IH groups [nd]); simpl; auto.
    + assert (Hsim : exists r, _nodes_are_similar (List.last cs c) nd = Some r).
      { unfold values_have_tokens in Htok.
        rewrite List.Forall_forall in Htok.
        apply similar_total; apply Htok; apply in_or_app.
        - left. apply last_in.
        - right. now left. }
      destruct Hsim as [[|] Hsim]; rewrite Hsim.
      * destruct (IH groups ((c :: cs) ++ [nd])) as (G & C & HG & Hcat & Hnil & H);
          auto.
        { now rewrite <- app_assoc. }
        { now apply similar_run_snoc. }
        exists G, C. split; [exact HG|]. split; [|split; [|exact H]].
        -- rewrite Hcat. now rewrite <- !app_assoc.
        -- intros HC. specialize (Hnil HC). discriminate.
      * destruct (IH (groups ++ [c :: cs]) [nd]) as (G & C & HG & Hcat & Hnil & H).
        { unfold values_have_tokens in *. apply Forall_app in Htok as [_ Ht].
          exact Ht. }
        { apply Forall_app. split; [exact Hne|]. constructor; [discriminate|constructor]. }
        { apply Forall_app. split; [exact Hruns|]. constructor; [exact Hcur|constructor]. }
        { exact I. }
        exists G, C. split; [exact HG|]. split; [|split; [|exact H]].
        -- rewrite Hcat, concat_app. simpl. rewrite app_nil_r.
           now rewrite <- !app_assoc.
        -- intros HC. specialize (Hnil HC). discriminate.
Qed.

Lemma group_similar_nodes_spec (nodes : list node) :
  values_have_tokens nodes ->
  exists groups,
    _group_similar_nodes nodes = Some groups /\
    concat groups = nodes /\
    Forall (fun g : list node => g <> []) groups /\
    Forall similar_run groups.
Proof.
  intros Htok. unfold _group_similar_nodes.
  destruct (group_loop_spec nodes [] []) as (G & C & -> & Hcat & Hnil & Hne & Hruns & HC);
    simpl; auto.
  simpl in Hcat. destruct C as [|c cs].
  - exists G. rewrite app_nil_r in Hcat. auto.
  - exists (G ++ [c :: cs]). repeat split.
    + rewrite concat_app. simpl. now rewrite app_nil_r.
    + apply Forall_app. split; [exact Hne|]. constructor; [discriminate|constructor].
    + apply Forall_app. split; [exact Hruns|]. constructor; [exact HC|constructor].
Qed.

Lemma optimize_groups_spec (groups : list (list node)) :
  Forall (fun g : list node => g <> []) groups ->
  exists result,
    optimize_groups groups = Some result /\ Forall2 wraps groups result.
Proof.
  induction 1 as [|g rest Hg _ (result & Hres & Hw)]; simpl.
  - exists []. split; [reflexivity | constructor].
  - rewrite Hres. destruct g as [|a [|b others]]; [congruence|..]; simpl.
    + exists (a :: result). split; [reflexivity|]. constructor; [constructor | exact Hw].
    + eexists. split; [reflexivity|]. constructor; [constructor | exact Hw].
Qed.

Lemma wraps_total_leaves (groups : list (list node)) (result : list node) :
  Forall2 wraps groups result ->
  total_leaves result = total_leaves (concat groups).
Proof.
  induction 1 as [|g nd groups result Hw _ IH]; [reflexivity|].
  simpl. rewrite total_leaves_app, <- IH, <- (wraps_leaves g nd Hw).
  reflexivity.
Qed.

(** C6: on a list of nodes whose values hold a token, [optimize] returns a
    forest with as many leaves (counting into the aggregates) as the list it
    was given, which is the number of nodes when the list holds no
    aggregate; the forest wraps, group by group, a partition of the list
    into runs of similar neighbours: a run of one is the node itself, a
    longer run is held by one wrapper. *)
Theorem optimize_preserves_leaves (nodes : list node) :
  values_have_tokens nodes ->
  exists (groups : list (list node)) (result : list node),
    optimize nodes = Some result /\
    total_leaves result = total_leaves nodes /\
    (no_aggregate nodes -> total_leaves result = List.length nodes) /\
    concat groups = nodes /\
    Forall similar_run groups /\
    Forall2 wraps groups result.
Proof.
  intros Htok.
  destruct (group_similar_nodes_spec nodes Htok) as (groups & Hg & Hcat & Hne & Hruns).
  destruct (optimize_groups_spec groups Hne) as (result & Hres & Hw).
  exists groups, result. unfold optimize. rewrite Hg.
  pose proof (wraps_total_leaves groups result Hw) as Hl. rewrite Hcat in Hl.
  repeat split; auto.
  intros Hplain. rewrite Hl. now apply total_leaves_plain.
Qed.

Lemma optimize_preserves_leaves_witness :
  let a := Node Tetrahedral 0 "x = 1" 0 0 "red" None None in
  let b := Node Tetrahedral 0 "x = 2" 0 0 "red" None None in
  let c := Node Hexagonal 0 "for i in range(3):" 0 0 "blue" (Some []) None in
  values_have_tokens [a; b; c] /\
  exists (groups : list (list node)) (result : list node),
    optimize [a; b; c] = Some result /\
    total_leaves result = total_leaves [a; b; c] /\
    (no_aggregate [a; b; c] -> total_leaves result = 3) /\
    concat groups = [a; b; c] /\
    Forall similar_run groups /\
    Forall2 wraps groups result.
Proof.
  intros a b c.
  assert (Htok : values_have_tokens [a; b; c])
    by (repeat constructor; simpl; discriminate).
  split; [exact Htok|].
  exact (optimize_preserves_leaves [a; b; c] Htok).
Defined.

(** The values of the nodes that [parse] returns are trimmed, non-blank
    lines, which hold a token, and none of the nodes is an aggregate. *)
Lemma parse_nodes_plain (lines : list string) :
  values_have_tokens (parse_lines lines) /\ no_aggregate (parse_lines lines).
Proof.
  unfold values_have_tokens, no_aggregate. rewrite <- Forall_and.
  apply List.Forall_forall. intros nd Hin.
  apply In_nth_error in Hin as [i Hi].
  rewrite parse_lines_nth in Hi.
  destruct (nth_error (created lines) i) as [[n nd0]|] eqn:E; [|discriminate].
  destruct (created_fresh _ _ _ E) as (line & Hne & Hstrip & Hc).
  apply create_node_value in Hc as (Hv & _ & _ & Hsub & _).
  simpl in *. injection Hi as <-.
  assert (Hkeep : n_value (connect_node nd0 lines i) = n_value nd0 /\
                  n_subnodes (connect_node nd0 lines i) = n_subnodes nd0)
    by (unfold connect_node; destruct (n_connections nd0); auto).
  destruct Hkeep as [-> ->]. split; [|exact Hsub].
  rewrite Hv. unfold first_token. rewrite Hstrip.
  destruct line; [congruence | discriminate].
Qed.

Lemma optimize_parse (code : string) :
  exists result : list node,
    optimize (parse code) = Some result /\
    total_leaves result = List.length (parse code).
Proof.
  destruct (parse_nodes_plain (splitlines code)) as [Htok Hplain].
  destruct (group_similar_nodes_spec (parse code) Htok)
    as (groups & Hg & Hcat & Hne & _).
  destruct (optimize_groups_spec groups Hne) as (result & Hres & Hw).
  exists result. unfold optimize. rewrite Hg. split; [exact Hres|].
  rewrite (wraps_total_leaves groups result Hw), Hcat.
  now apply total_leaves_plain.
Qed.

Lemma demo_code_parents :
  map n_value (parse demo_code) =
    ["print('Start')"; "for i in range(5):"; "print(i)"; "if i > 2:";
     "print('Big')"; "def my_func():"; "print('Func')"] /\
  map (parent_of (parse demo_code)) (seq 0 7) =
    [None; None; None; Some 2; None; Some 4; None] /\
  map (node_indent (splitlines demo_code)) (seq 0 7) = [0; 0; 4; 0; 4; 0; 4].
Proof. repeat split; lazy; reflexivity. Qed.

End ParserFacts.
(* ===================================================================== *)
(** * More on the parser and the optimizer *)
(* ===================================================================== *)

Module ParserOpsFacts.

Import PyStr PyStrFacts Parser ParserFacts ParserOps.

(** ** Similarity *)

Lemma node_type_eqb_eq (s t : node_type) : node_type_eqb s t = true -> s = t.
Proof. destruct s, t; simpl; congruence. Qed.

Lemma node_type_eqb_refl (s : node_type) : node_type_eqb s s = true.
Proof. destruct s; reflexivity. Qed.

Lemma similar_raises (a b : node) :
  _nodes_are_similar a b = None <->
  n_type a = n_type b /\
  (first_token (n_value a) = None \/ first_token (n_value b) = None).
Proof.
  unfold _nodes_are_similar.
  destruct (node_type_eqb (n_type a) (n_type b)) eqn:E.
  - apply node_type_eqb_eq in E.
    destruct (first_token (n_value a)), (first_token (n_value b));
      intuition discriminate.
  - split; [discriminate|]. intros [Ht _]. rewrite Ht in E.
    now rewrite node_type_eqb_refl in E.
Qed.

Lemma similar_refl (a : node) :
  first_token (n_value a) <> None -> _nodes_are_similar a a = Some true.
Proof.
  intros Ha. unfold _nodes_are_similar. rewrite node_type_eqb_refl.
  destruct (first_token (n_value a)); [|congruence].
  now rewrite String.eqb_refl.
Qed.

Lemma similar_sym (a b : node) :
  _nodes_are_similar a b = _nodes_are_similar b a.
Proof.
  unfold _nodes_are_similar.
  assert (Hsym : node_type_eqb (n_type a) (n_type b)
                 = node_type_eqb (n_type b) (n_type a))
    by (destruct (n_type a), (n_type b); reflexivity).
  rewrite Hsym. destruct (node_type_eqb (n_type b) (n_type a)); [|reflexivity].
  destruct (first_token (n_value a)), (first_token (n_value b));
    try reflexivity.
  now rewrite String.eqb_sym.
Qed.

Lemma similar_trans (a b c : node) :
  _nodes_are_similar a b = Some true ->
  _nodes_are_similar b c = Some true ->
  _nodes_are_similar a c = Some true.
Proof.
  unfold _nodes_are_similar.
  destruct (node_type_eqb (n_type a) (n_type b)) eqn:Eab; [|discriminate].
  destruct (node_type_eqb (n_type b) (n_type c)) eqn:Ebc; [|discriminate].
  apply node_type_eqb_eq in Eab, Ebc. rewrite Eab, Ebc, node_type_eqb_refl.
  destruct (first_token (n_value a)); [|discriminate].
  destruct (first_token (n_value b)); [|discriminate].
  destruct (first_token (n_value c)); [|discriminate].
  intros [= H1] [= H2]. apply String.eqb_eq in H1, H2. subst.
  now rewrite String.eqb_refl.
Qed.

(** X4: [_nodes_are_similar] raises (the [IndexError] of [split()[0]])
    exactly when the two nodes have the same type and the value of one of
    them holds no token; where it answers, it is symmetric and transitive,
    and every node whose value holds a token is similar to itself. *)
Theorem nodes_are_similar_equivalence :
  (forall a b : node,
      _nodes_are_similar a b = None <->
      n_type a = n_type b /\
      (first_token (n_value a) = None \/ first_token (n_value b) = None)) /\
  (forall a : node,
      first_token (n_value a) <> None -> _nodes_are_similar a a = Some true) /\
  (forall a b : node, _nodes_are_similar a b = _nodes_are_similar b a) /\
  (forall a b c : node,
      _nodes_are_similar a b = Some true ->
      _nodes_are_similar b c = Some true ->
      _nodes_are_similar a c = Some true).
Proof.
  split; [exact similar_raises|].
  split; [exact similar_refl|].
  split; [exact similar_sym | exact similar_trans].
Qed.

(** ** Grouping *)

Lemma last_snoc (c nd : node) (cs : list node) :
  List.last (cs ++ [nd]) c = nd.
Proof. apply List.last_last. Qed.

Lemma group_loop_none (nodes : list node) :
  forall groups cur : list _,
    group_loop nodes groups cur = None <->
    Exists (fun p => _nodes_are_similar (fst p) (snd p) = None)
           (neighbours match cur with
                       | [] => nodes
                       | c :: cs => List.last cs c :: nodes
                       end).
Proof.
  induction nodes as [|nd rest IH]; intros groups cur.
  - simpl. split; [discriminate|].
    destruct cur; intros H; inversion H.
  - destruct cur as [|c cs].
    + simpl group_loop. rewrite IH. reflexivity.
    + simpl group_loop. cbn [neighbours].
      destruct (_nodes_are_similar (List.last cs c) nd) as [[|]|] eqn:Hsim.
      * rewrite IH. change ((c :: cs) ++ [nd]) with (c :: (cs ++ [nd])).
        cbv iota. rewrite last_snoc. split; intros H.
        -- now apply Exists_cons_tl.
        -- inversion H as [? ? Hh|? ? Ht]; subst; [|exact Ht].
           simpl in Hh. congruence.
      * rewrite IH. simpl. split; intros H.
        -- now apply Exists_cons_tl.
        -- inversion H as [? ? Hh|? ? Ht]; subst; [|exact Ht].
           simpl in Hh. congruence.
      * split; [|reflexivity]. intros _. now apply Exists_cons_hd.
Qed.

Lemma similar_neighbours_cons (a b : node) (rest : list node) :
  similar_neighbours (a :: b :: rest)
  = (if similar (a, b) then 1 else 0) + similar_neighbours (b :: rest).
Proof.
  unfold similar_neighbours. cbn [neighbours List.filter].
  destruct (similar (a, b)); reflexivity.
Qed.

Lemma group_loop_some (nodes : list node) :
  forall (groups cur G C : list _),
    Forall (fun g : list node => g <> []) groups ->
    group_loop nodes groups cur = Some (G, C) ->
    concat G ++ C = concat groups ++ cur ++ nodes /\
    Forall (fun g : list node => g <> []) G /\
    List.length G
    + similar_neighbours match cur with
                         | [] => nodes
                         | c :: cs => List.last cs c :: nodes
                         end
    + match C with [] => 0 | _ => 1 end
    = List.length groups
      + List.length match cur with
                    | [] => nodes
                    | c :: cs => List.last cs c :: nodes
                    end.
Proof.
  induction nodes as [|nd rest IH]; intros groups cur G C Hne.
  - simpl. intros [= <- <-]. rewrite app_nil_r.
    repeat split; auto.
    destruct cur; unfold similar_neighbours; simpl; lia.
  - destruct cur as [|c cs].
    + simpl group_loop. intros H.
      destruct (IH groups [nd] G C Hne H) as (Hcat & HG & Hlen).
      repeat split; auto.
    + simpl group_loop.
      destruct (_nodes_are_similar (List.last cs c) nd) as [[|]|] eqn:Hsim;
        [| |discriminate]; intros H.
      * destruct (IH groups ((c :: cs) ++ [nd]) G C Hne H)
          as (Hcat & HG & Hlen).
        change ((c :: cs) ++ [nd]) with (c :: (cs ++ [nd])) in Hlen.
        cbv iota in Hlen. rewrite last_snoc in Hlen.
        rewrite <- !app_assoc in Hcat.
        repeat split; auto.
        rewrite similar_neighbours_cons. unfold similar at 1. simpl fst.
        simpl snd. rewrite Hsim. simpl in *. lia.
      * destruct (IH (groups ++ [c :: cs]) [nd] G C) as (Hcat & HG & Hlen);
          [|exact H|].
        { apply Forall_app. split; [exact Hne|].
          constructor; [discriminate|constructor]. }
        rewrite concat_app in Hcat. simpl in Hcat.
        rewrite app_nil_r, <- !app_assoc in Hcat.
        repeat split; auto.
        rewrite similar_neighbours_cons. unfold similar at 1. simpl fst.
        simpl snd. rewrite Hsim. rewrite length_app in Hlen.
        simpl in *. lia.
Qed.

Lemma group_similar_nodes_some (nodes : list node)
  (groups : list (list node)) :
  _group_similar_nodes nodes = Some groups ->
  concat groups = nodes /\
  Forall (fun g : list node => g <> []) groups /\
  List.length groups + similar_neighbours nodes = List.length nodes.
Proof.
  unfold _group_similar_nodes.
  destruct (group_loop nodes [] []) as [[G C]|] eqn:Hloop; [|discriminate].
  destruct (group_loop_some nodes [] [] G C ltac:(constructor) Hloop)
    as (Hcat & HG & Hlen).
  simpl in Hcat, Hlen.
  destruct C as [|c cs]; intros [= <-].
  - rewrite app_nil_r in Hcat. repeat split; auto. lia.
  - repeat split.
    + rewrite concat_app. simpl. now rewrite app_nil_r.
    + apply Forall_app. split; [exact HG|].
      constructor; [discriminate|constructor].
    + rewrite length_app. simpl. lia.
Qed.

Lemma optimize_groups_length (groups : list (list node)) (result : list node) :
  optimize_groups groups = Some result ->
  List.length result = List.length groups.
Proof.
  revert result; induction groups as [|g rest IH]; intros result; simpl.
  - intros [= <-]. reflexivity.
  - destruct (optimize_group g); [|discriminate].
    destruct (optimize_groups rest) as [nds|]; [|discriminate].
    intros [= <-]. simpl. f_equal. now apply IH.
Qed.

Lemma concat_length_ge (groups : list (list node)) :
  Forall (fun g : list node => g <> []) groups ->
  List.length groups <= List.length (concat groups).
Proof.
  induction 1 as [|g rest Hg _ IH]; simpl; [lia|].
  rewrite length_app. destruct g; [congruence|]. simpl. lia.
Qed.

Lemma optimize_groups_singletons (groups : list (list node)) :
  Forall (fun g : list node => g <> []) groups ->
  List.length (concat groups) = List.length groups ->
  optimize_groups groups = Some (concat groups).
Proof.
  induction 1 as [|g rest Hg Hrest IH]; simpl; [reflexivity|].
  rewrite length_app. intros Hlen.
  pose proof (concat_length_ge rest Hrest) as Hge.
  destruct g as [|a [|b others]]; [congruence| |simpl in Hlen; lia].
  simpl in *. rewrite IH by lia. reflexivity.
Qed.

(** X5: [optimize] raises (the [IndexError] of [_nodes_are_similar])
    exactly when [_nodes_are_similar] raises on two neighbours of the
    list, that is, when two neighbours have the same type and the value of
    one of them is empty or blank; in particular it returns on the empty
    list and on a list of one node. *)
Theorem optimize_raises_iff (nodes : list node) :
  optimize nodes = None <->
  Exists (fun p => _nodes_are_similar (fst p) (snd p) = None)
         (neighbours nodes).
Proof.
  unfold optimize.
  destruct (_group_similar_nodes nodes) as [groups|] eqn:Hg.
  - destruct (group_similar_nodes_some _ _ Hg) as (_ & Hne & _).
    destruct (optimize_groups_spec groups Hne) as (result & -> & _).
    split; [discriminate|]. intros Hex.
    apply (group_loop_none nodes [] []) in Hex.
    unfold _group_similar_nodes in Hg. rewrite Hex in Hg. discriminate.
  - split; [|reflexivity]. intros _.
    apply (group_loop_none nodes [] []).
    unfold _group_similar_nodes in Hg.
    destruct (group_loop nodes [] []) as [[G [|c cs]]|]; congruence.
Qed.

(** X6: when [optimize] returns, every node that is similar to the node
    before it costs the list one element: the result has as many elements
    as the list had, less the number of such nodes.  The result is the
    list itself exactly when no two neighbours are similar. *)
Theorem optimize_length (nodes result : list node) :
  optimize nodes = Some result ->
  List.length result + similar_neighbours nodes = List.length nodes /\
  (result = nodes <-> similar_neighbours nodes = 0).
Proof.
  unfold optimize.
  destruct (_group_similar_nodes nodes) as [groups|] eqn:Hg; [|discriminate].
  destruct (group_similar_nodes_some _ _ Hg) as (Hcat & Hne & Hlen).
  intros Hres. pose proof (optimize_groups_length _ _ Hres) as Hl.
  split; [lia|]. split.
  - intros ->. lia.
  - intros Hz. rewrite optimize_groups_singletons in Hres.
    + congruence.
    + exact Hne.
    + rewrite Hcat. lia.
Qed.

Lemma optimize_length_witness :
  let a := Node Tetrahedral 0 "x = 1" 0 0 "red" None None in
  let b := Node Tetrahedral 0 "x = 2" 0 0 "red" None None in
  let c := Node Hexagonal 0 "for i in range(3):" 0 0 "blue" (Some []) None in
  exists result : list node,
    optimize [a; b; c] = Some result /\
    List.length result + 1 = 3 /\
    (result = [a; b; c] <-> 1 = 0).
Proof.
  intros a b c. eexists. split; [reflexivity|].
  exact (optimize_length [a; b; c] _ eq_refl).
Defined.

(** ** What [parse] keeps *)

Lemma create_node_kind (line : string) (x y : R) :
  option_map kind_and_text (_create_node line x y)
  = option_map (fun t => (t, line)) (kind_of line).
Proof.
  unfold kind_of, _create_node.
  destruct (contains "print" line || contains "=" line); [reflexivity|].
  destruct (contains "for" line); [reflexivity|].
  destruct (contains "if" line); [reflexivity|].
  destruct (contains "def" line); reflexivity.
Qed.

Lemma connect_node_kind (nd : node) (lines : list string) (i : nat) :
  kind_and_text (connect_node nd lines i) = kind_and_text nd.
Proof. unfold connect_node. destruct (n_connections nd); reflexivity. Qed.

Lemma add_connections_kind (nodes : list node) (lines : list string) (i : nat) :
  map kind_and_text (add_connections_from i nodes lines)
  = map kind_and_text nodes.
Proof.
  revert i; induction nodes as [|nd rest IH]; intros i; simpl; [reflexivity|].
  now rewrite connect_node_kind, IH.
Qed.

Lemma collect_submit_kind (lines : list string) (n : nat) :
  map kind_and_text (map snd (collect (submit_lines n lines)))
  = flat_map line_node lines.
Proof.
  revert n; induction lines as [|l rest IH]; intros n; simpl; [reflexivity|].
  unfold line_node at 1.
  destruct (strip l) as [|c line] eqn:E; [apply IH|].
  pose proof (create_node_kind (String c line)
                (fst (Layout.position n)) (snd (Layout.position n))) as Hk.
  simpl. destruct (_create_node _ _ _) as [nd|]; simpl in Hk.
  - destruct (kind_of (String c line)) as [t|]; [|discriminate Hk].
    simpl in Hk. injection Hk as Hk Hv.
    cbn [collect map snd flat_map app]. unfold kind_and_text at 1.
    now rewrite Hk, Hv, IH.
  - destruct (kind_of (String c line)) as [t|]; [discriminate Hk|].
    apply IH.
Qed.

(** X7: [parse] returns one node for every line of the source whose
    trimmed text [_create_node] accepts, in the order of the lines, with
    that text as its value and the kind that [_create_node] gives to the
    text; every other line, the blank ones among them, leaves nothing. *)
Theorem parse_keeps_accepted_lines (code : string) :
  map kind_and_text (parse code) = flat_map line_node (splitlines code).
Proof.
  unfold parse, parse_lines, _add_connections_parallel, created.
  rewrite add_connections_kind. apply collect_submit_kind.
Qed.

(** X8: a node that [parse] returns has no ["connections"] key when it is
    a statement, and otherwise a list of at most one connection, which
    refers to a node that comes before it in the list. *)
Theorem parse_at_most_one_connection (code : string) (i : nat) (nd : node) :
  nth_error (parse code) i = Some nd ->
  match n_connections nd with
  | None => n_type nd = Tetrahedral
  | Some [] => n_type nd <> Tetrahedral
  | Some [j] => j < i /\ n_type nd <> Tetrahedral
  | Some (_ :: _ :: _) => False
  end.
Proof.
  unfold parse. intros H. rewrite parse_lines_nth in H.
  destruct (nth_error (created (splitlines code)) i) as [[n nd0]|] eqn:E;
    [|discriminate].
  destruct (created_fresh _ _ _ E) as (line & _ & _ & Hc).
  apply create_node_value in Hc as (_ & _ & _ & _ & Hconn).
  simpl in *. injection H as <-. unfold connect_node.
  destruct nd0 as [ty sz v x y col conns subs]. simpl in Hconn. subst conns.
  destruct ty; simpl; [reflexivity|..];
    unfold _process_connections;
    (destruct (0 <? indent_of (nth i (splitlines code) EmptyString));
     [destruct (scan_back (splitlines code)
                  (indent_of (nth i (splitlines code) EmptyString)) i)
        as [j|] eqn:Hs|]);
    simpl; try discriminate;
    (split; [now apply scan_back_some in Hs | discriminate]).
Qed.

Lemma parse_at_most_one_connection_witness :
  exists nd : node,
    nth_error (parse demo_code) 3 = Some nd /\
    n_connections nd = Some [2] /\
    (2 < 3 /\ n_type nd <> Tetrahedral).
Proof.
  eexists. split; [reflexivity|]. split; [reflexivity|].
  exact (parse_at_most_one_connection demo_code 3 _ eq_refl).
Defined.

(** X22: for every source, the parent that [parse] records for the node
    at position [i] of its list is decided by the lines of the source at
    the positions [i] and below, whatever lines the nodes were made from:
    a node that is not a statement gets as parent the node at the nearest
    position [j < i] whose line, [lines[j]], is indented less than
    [lines[i]], and no parent when there is none.  Once a line is blank
    or skipped these are not the lines of the nodes. *)
Theorem parse_parent_by_position (code : string) (i j : nat) (nd : node) :
  nth_error (parse code) i = Some nd ->
  (parent_of (parse code) i = Some j <->
   n_type nd <> Tetrahedral /\
   j < i /\
   indent_of (nth j (splitlines code) EmptyString)
   < indent_of (nth i (splitlines code) EmptyString) /\
   forall k, j < k < i ->
     ~ indent_of (nth k (splitlines code) EmptyString)
       < indent_of (nth i (splitlines code) EmptyString)).
Proof.
  unfold parse. intros Hnd. rewrite (parent_of_parse _ _ _ Hnd).
  destruct (n_type nd) eqn:T.
  - split; [discriminate|]. intros [H _]. congruence.
  - rewrite recorded_parent_some. split; [intros H; split; [discriminate|exact H]|tauto].
  - rewrite recorded_parent_some. split; [intros H; split; [discriminate|exact H]|tauto].
  - rewrite recorded_parent_some. split; [intros H; split; [discriminate|exact H]|tauto].
Qed.

Lemma parse_parent_by_position_witness :
  exists nd : node,
    nth_error (parse demo_code) 3 = Some nd /\
    n_value nd = "if i > 2:" /\
    nth 3 (splitlines demo_code) EmptyString = "    print(i)" /\
    parent_of (parse demo_code) 3 = Some 2.
Proof.
  eexists. split; [reflexivity|]. split; [reflexivity|]. split; [reflexivity|].
  apply (proj2 (parse_parent_by_position demo_code 3 2 _ eq_refl)).
  split; [discriminate|]. split; [lia|]. split; [vm_compute; lia|].
  intros k Hk. lia.
Defined.

End ParserOpsFacts.
(* ===================================================================== *)
(** * Export to Python *)
(* ===================================================================== *)

Module ToPythonFacts.

Import PyStr PyStrFacts Parser ParserFacts ParserOps ParserOpsFacts.

(** ** Strings *)

Lemma append_nil_r (s : string) : (s ++ "")%string = s.
Proof. induction s as [|c s IH]; simpl; [reflexivity|]. now rewrite IH. Qed.

Lemma append_assoc (a b c : string) :
  ((a ++ b) ++ c)%string = (a ++ (b ++ c))%string.
Proof. induction a as [|x a IH]; simpl; [reflexivity|]. now rewrite IH. Qed.

Lemma chars_append (a b : string) :
  list_ascii_of_string (a ++ b)
  = (list_ascii_of_string a ++ list_ascii_of_string b)%list.
Proof. induction a as [|x a IH]; simpl; [reflexivity|]. now rewrite IH. Qed.

Lemma lstrip_suffix (s : string) :
  exists p : string, s = (p ++ lstrip s)%string.
Proof.
  induction s as [|c s (p & IH)]; simpl.
  - now exists "".
  - destruct (isspace c).
    + exists (String c p). simpl. now rewrite <- IH.
    + now exists "".
Qed.

Lemma rstrip_prefix (s : string) :
  exists q : string, s = (rstrip s ++ q)%string.
Proof.
  induction s as [|c s (q & IH)]; simpl.
  - now exists "".
  - destruct (rstrip s) as [|d r] eqn:E.
    + destruct (isspace c).
      * now exists (String c s).
      * exists s. reflexivity.
    + exists q. simpl. simpl in IH. now rewrite <- IH.
Qed.

Lemma rstrip_app (s t : string) :
  rstrip (s ++ t) = match rstrip t with
                    | EmptyString => rstrip s
                    | r => (s ++ r)%string
                    end.
Proof.
  induction s as [|c s IH]; simpl.
  - destruct (rstrip t); reflexivity.
  - rewrite IH. destruct (rstrip t) as [|a r].
    + reflexivity.
    + destruct s; reflexivity.
Qed.

Lemma rstrip_idem (s : string) : rstrip (rstrip s) = rstrip s.
Proof.
  induction s as [|c s IH]; simpl; [reflexivity|].
  destruct (rstrip s) as [|d r] eqn:E.
  - destruct (isspace c) eqn:Ec; [reflexivity|]. simpl. now rewrite Ec.
  - simpl. simpl in IH. rewrite IH. reflexivity.
Qed.

Lemma strip_comm (s : string) : rstrip (lstrip s) = lstrip (rstrip s).
Proof.
  induction s as [|c s IH]; simpl; [reflexivity|].
  destruct (isspace c) eqn:Ec.
  - rewrite IH. destruct (rstrip s) as [|d r]; simpl; [reflexivity|].
    now rewrite Ec.
  - simpl. destruct (rstrip s) as [|d r]; rewrite ?Ec; simpl; now rewrite Ec.
Qed.

Lemma lstrip_length (s : string) : String.length (lstrip s) <= String.length s.
Proof.
  induction s as [|c s IH]; simpl; [lia|].
  destruct (isspace c); simpl; lia.
Qed.

Lemma lstrip_fixed_head (c : ascii) (s : string) :
  lstrip (String c s) = String c s -> isspace c = false.
Proof.
  simpl. destruct (isspace c); [|reflexivity].
  intros H. pose proof (lstrip_length s) as Hl. rewrite H in Hl.
  simpl in Hl. lia.
Qed.

Lemma lstrip_app (v t : string) :
  v <> EmptyString -> lstrip v = v -> lstrip (v ++ t) = (v ++ t)%string.
Proof.
  destruct v as [|c v]; [congruence|]. intros _ H.
  apply lstrip_fixed_head in H. simpl. now rewrite H.
Qed.

Lemma lstrip_blanks (k : nat) (s : string) :
  lstrip (repeat_string "    " k ++ s) = lstrip s.
Proof. induction k as [|k IH]; simpl; [reflexivity|exact IH]. Qed.

Lemma strip_trimmed (s : string) :
  lstrip (strip s) = strip s /\ rstrip (strip s) = strip s.
Proof.
  unfold strip. split; [apply lstrip_idem|].
  now rewrite strip_comm, rstrip_idem.
Qed.

(** ** Lines *)

Local Abbreviation no_linebreak s :=
  (Forall (fun c => is_linebreak c = false) (list_ascii_of_string s)).

Lemma splitlines_from_pieces (s : string) :
  forall (cur : list ascii) (after_cr : bool),
    Forall (fun c => is_linebreak c = false) cur ->
    Forall (fun l => no_linebreak l) (splitlines_from s cur after_cr).
Proof.
  assert (Hrev : forall cur,
             Forall (fun c => is_linebreak c = false) cur ->
             no_linebreak (rev_string cur)).
  { intros cur Hcur. unfold rev_string.
    rewrite list_ascii_of_string_of_list_ascii. now apply Forall_rev. }
  induction s as [|c s IH]; intros cur after_cr Hcur; simpl.
  - destruct cur; constructor; [|constructor]. now apply Hrev.
  - destruct (after_cr && is_lf c); [now apply IH|].
    destruct (is_linebreak c) eqn:E.
    + constructor; [now apply Hrev|]. apply IH. constructor.
    + apply IH. now constructor.
Qed.

Lemma splitlines_from_push (l rest : string) (cur : list ascii) :
  no_linebreak l ->
  splitlines_from (l ++ rest) cur false
  = splitlines_from rest (rev (list_ascii_of_string l) ++ cur) false.
Proof.
  revert cur; induction l as [|c l IH]; intros cur Hl; simpl; [reflexivity|].
  simpl in Hl. inversion Hl as [|? ? Hc Hrest]; subst.
  rewrite Hc. rewrite IH by exact Hrest. now rewrite <- app_assoc.
Qed.

Lemma rev_string_rev (l : string) :
  rev_string (rev (list_ascii_of_string l)) = l.
Proof.
  unfold rev_string. now rewrite rev_involutive, string_of_list_ascii_of_string.
Qed.

Lemma splitlines_join (ls : list string) :
  Forall (fun l => l <> EmptyString /\ no_linebreak l) ls ->
  splitlines (join LF ls) = ls.
Proof.
  unfold splitlines.
  induction 1 as [|l rest [Hne Hl] Hrest IH]; [reflexivity|].
  destruct rest as [|l2 rest].
  - simpl join. rewrite <- (append_nil_r l) at 1.
    rewrite splitlines_from_push by exact Hl. rewrite app_nil_r. simpl.
    destruct (rev (list_ascii_of_string l)) as [|c cs] eqn:E.
    + exfalso. apply Hne. destruct l; [reflexivity|].
      apply (f_equal (@List.length _)) in E. rewrite length_rev in E.
      discriminate.
    + rewrite <- E. now rewrite rev_string_rev.
  - change (join LF (l :: l2 :: rest))
      with (l ++ (LF ++ join LF (l2 :: rest)))%string.
    rewrite splitlines_from_push by exact Hl. rewrite app_nil_r.
    cbn [LF String.append splitlines_from]. simpl andb.
    change (is_linebreak (ascii_of_nat 10)) with true. cbv iota.
    rewrite rev_string_rev. f_equal. exact IH.
Qed.

Lemma no_linebreak_strip (l : string) : no_linebreak l -> no_linebreak (strip l).
Proof.
  intros Hl. unfold strip.
  destruct (rstrip_prefix l) as (q & Hq).
  destruct (lstrip_suffix (rstrip l)) as (p & Hp).
  rewrite Hq, Hp, !chars_append in Hl.
  apply Forall_app in Hl as [Hl _]. now apply Forall_app in Hl as [_ Hl].
Qed.

Lemma no_linebreak_blanks (k : nat) (v : string) :
  no_linebreak v -> no_linebreak (repeat_string "    " k ++ v).
Proof.
  intros Hv. induction k as [|k IH]; simpl; [exact Hv|].
  repeat (constructor; [reflexivity|]). exact IH.
Qed.

(** ** The exported source *)

Lemma python_lines_join (nd : node) (rest : list node) :
  python_lines (nd :: rest)
  = (join LF (map export_line (nd :: rest)) ++ LF)%string.
Proof.
  revert nd; induction rest as [|nd2 rest IH]; intros nd.
  - simpl. unfold python_line, export_line.
    now rewrite append_nil_r, append_assoc.
  - change (python_lines (nd :: nd2 :: rest))
      with (python_line nd ++ python_lines (nd2 :: rest))%string.
    rewrite IH.
    change (join LF (map export_line (nd :: nd2 :: rest)))
      with (export_line nd ++ (LF ++ join LF (map export_line (nd2 :: rest))))%string.
    unfold python_line, export_line. now rewrite !append_assoc.
Qed.

Lemma rstrip_export_line (nd : node) :
  trimmed (n_value nd) ->
  rstrip (export_line nd) = export_line nd /\ export_line nd <> EmptyString.
Proof.
  intros (Hne & _ & Hr). unfold export_line. rewrite rstrip_app, Hr.
  destruct (n_value nd) as [|c v] eqn:E; [congruence|]. split; [reflexivity|].
  destruct (repeat_string "    " (connection_count nd)); discriminate.
Qed.

Lemma rstrip_join (nd : node) (rest : list node) :
  Forall (fun m => trimmed (n_value m)) (nd :: rest) ->
  rstrip (join LF (map export_line (nd :: rest)))
  = join LF (map export_line (nd :: rest)) /\
  join LF (map export_line (nd :: rest)) <> EmptyString.
Proof.
  revert nd; induction rest as [|nd2 rest IH]; intros nd Hall;
    inversion Hall as [|? ? Hnd Hrest]; subst.
  - simpl. now apply rstrip_export_line.
  - change (join LF (map export_line (nd :: nd2 :: rest)))
      with (export_line nd ++ (LF ++ join LF (map export_line (nd2 :: rest))))%string.
    destruct (IH nd2 Hrest) as [Hr Hne].
    rewrite !rstrip_app, Hr.
    destruct (join LF (map export_line (nd2 :: rest))) as [|c j] eqn:E;
      [congruence|].
    split; [reflexivity|].
    destruct (export_line nd); discriminate.
Qed.

Lemma to_python_join (nd : node) (rest : list node) :
  Forall (fun m => trimmed (n_value m)) (nd :: rest) ->
  to_python (nd :: rest)
  = join LF (n_value nd :: map export_line rest).
Proof.
  intros Hall. unfold to_python, strip.
  rewrite python_lines_join, rstrip_app.
  change (rstrip LF) with EmptyString. cbv iota.
  rewrite (proj1 (rstrip_join nd rest Hall)).
  inversion Hall as [|? ? (Hne & Hl & _) _]; subst.
  destruct rest as [|nd2 rest].
  - simpl. unfold export_line. now rewrite lstrip_blanks.
  - change (join LF (map export_line (nd :: nd2 :: rest)))
      with (export_line nd ++ (LF ++ join LF (map export_line (nd2 :: rest))))%string.
    unfold export_line at 1. rewrite append_assoc, lstrip_blanks.
    now rewrite lstrip_app.
Qed.

(** What the list of [parse] knows of each of its nodes. *)
Lemma parse_node_facts (code : string) (nd : node) :
  In nd (parse code) ->
  trimmed (n_value nd) /\ no_linebreak (n_value nd) /\
  kind_of (n_value nd) = Some (n_type nd).
Proof.
  intros Hin.
  assert (Hk : In (kind_and_text nd)
                  (flat_map line_node (splitlines code))).
  { unfold parse, parse_lines, _add_connections_parallel, created in Hin.
    rewrite <- collect_submit_kind with (n := 0).
    rewrite <- (add_connections_kind _ (splitlines code) 0).
    now apply in_map. }
  apply List.in_flat_map in Hk as (l & Hl & Hk).
  unfold line_node in Hk.
  destruct (kind_of (strip l)) as [t|] eqn:Ht; [|destruct Hk].
  destruct Hk as [Hk|[]]. unfold kind_and_text in Hk.
  injection Hk as -> Hv. rewrite <- Hv.
  destruct (strip_trimmed l) as [Hls Hrs].
  repeat split; auto.
  - intros He. rewrite He in Ht. discriminate Ht.
  - apply no_linebreak_strip.
    pose proof (splitlines_from_pieces code [] false ltac:(constructor)) as Hp.
    rewrite List.Forall_forall in Hp. now apply Hp.
Qed.

Lemma parse_first_unindented (code : string) (nd : node) (rest : list node) :
  parse code = nd :: rest -> export_line nd = n_value nd.
Proof.
  intros Hp.
  assert (H0 : nth_error (parse code) 0 = Some nd) by now rewrite Hp.
  unfold parse in H0. rewrite parse_lines_nth in H0.
  destruct (nth_error (created (splitlines code)) 0) as [[n nd0]|] eqn:E;
    [|discriminate].
  destruct (created_fresh _ _ _ E) as (line & _ & _ & Hc).
  apply create_node_value in Hc as (_ & _ & _ & _ & Hconn).
  simpl in *. injection H0 as <-. unfold export_line, connection_count.
  destruct nd0 as [ty sz v x y col conns subs]. simpl in Hconn. subst conns.
  unfold connect_node, _process_connections. simpl.
  destruct ty; simpl; try reflexivity;
    destruct (0 <? indent_of (nth 0 (splitlines code) EmptyString));
    reflexivity.
Qed.

Lemma parse_to_python (code : string) :
  to_python (parse code) = join LF (map export_line (parse code)).
Proof.
  destruct (parse code) as [|nd rest] eqn:Hp; [reflexivity|].
  rewrite to_python_join.
  - simpl map. now rewrite (parse_first_unindented code nd rest Hp).
  - apply List.Forall_forall. intros m Hm.
    apply (parse_node_facts code). now rewrite Hp.
Qed.

(** X9: the source that [to_python] makes of the nodes of [parse] is made
    of one line for each node, in order, separated by line feeds, with
    nothing before the first line and nothing behind the last; the line
    of a node is its value, behind four blanks when the node has a
    connection.  The nesting of the parsed source is thus reduced to one
    level at most, and a statement is never indented. *)
Theorem to_python_of_parse (code : string) :
  to_python (parse code) = join LF (map export_line (parse code)) /\
  Forall (fun nd =>
            export_line nd = n_value nd \/
            n_type nd <> Tetrahedral /\
            export_line nd = ("    " ++ n_value nd)%string)
         (parse code).
Proof.
  split; [apply parse_to_python|].
  apply List.Forall_forall. intros nd Hin.
  apply In_nth_error in Hin as (i & Hi).
  unfold parse in Hi. rewrite parse_lines_nth in Hi.
  destruct (nth_error (created (splitlines code)) i) as [[n nd0]|] eqn:E;
    [|discriminate].
  destruct (created_fresh _ _ _ E) as (line & _ & _ & Hc).
  apply create_node_value in Hc as (_ & _ & _ & _ & Hconn).
  simpl in *. injection Hi as <-. unfold export_line, connection_count.
  destruct nd0 as [ty sz v x y col conns subs]. simpl in Hconn. subst conns.
  unfold connect_node, _process_connections. simpl.
  destruct ty; simpl; auto;
    (destruct (0 <? indent_of (nth i (splitlines code) EmptyString));
     [destruct (scan_back (splitlines code)
                  (indent_of (nth i (splitlines code) EmptyString)) i)|]);
    simpl; auto; right; (split; [discriminate|reflexivity]).
Qed.

(** X10: parsing what has been exported.  [parse] on the source that
    [to_python] makes of the nodes of [parse] returns nodes of the same
    kinds and values, in the same order (their places on the spiral and
    their connections may differ). *)
Theorem parse_to_python_parse (code : string) :
  map kind_and_text (parse (to_python (parse code)))
  = map kind_and_text (parse code).
Proof.
  rewrite parse_to_python.
  unfold parse at 1, parse_lines, _add_connections_parallel, created.
  rewrite add_connections_kind, collect_submit_kind.
  rewrite splitlines_join.
  - assert (Hall : forall nd, In nd (parse code) ->
               line_node (export_line nd) = [kind_and_text nd]).
    { intros nd Hin.
      destruct (parse_node_facts code nd Hin) as ((Hne & Hl & Hr) & _ & Hk).
      unfold line_node, export_line, strip.
      rewrite rstrip_app, Hr.
      destruct (n_value nd) as [|c v] eqn:Ev; [congruence|].
      rewrite lstrip_blanks, Hl, Hk. unfold kind_and_text.
      now rewrite Ev. }
    induction (parse code) as [|nd rest IH]; [reflexivity|].
    simpl. rewrite Hall by now left. simpl. f_equal.
    apply IH. intros m Hm. apply Hall. now right.
  - apply List.Forall_forall. intros l Hl.
    apply in_map_iff in Hl as (nd & <- & Hin).
    destruct (parse_node_facts code nd Hin) as (Ht & Hnl & _).
    split.
    + now apply rstrip_export_line.
    + unfold export_line. now apply no_linebreak_blanks.
Qed.

Lemma wraps_export_line (group : list node) (nd : node) :
  wraps group nd -> export_line nd = group_line group.
Proof. intros [m|first second others]; reflexivity. Qed.

Lemma wrapper_trimmed (t : node_type) : trimmed ("group_" ++ type_lower t).
Proof. destruct t; repeat split; discriminate. Qed.

(** X24: exporting after [optimize].  On the nodes of [parse], [optimize]
    returns, and [to_python] of its result has one line for each group of
    similar neighbours: the line of the node for a group of one, and
    ["group_<kind>"] for a longer group, whose statements are not
    exported. *)
Theorem to_python_after_optimize (code : string) :
  exists (groups : list (list node)) (result : list node),
    optimize (parse code) = Some result /\
    concat groups = parse code /\
    Forall (fun g : list node => g <> []) groups /\
    Forall similar_run groups /\
    to_python result = join LF (map group_line groups).
Proof.
  destruct (parse_nodes_plain (splitlines code)) as [Htok _].
  destruct (group_similar_nodes_spec (parse code) Htok)
    as (groups & Hg & Hcat & Hne & Hruns).
  destruct (optimize_groups_spec groups Hne) as (result & Hres & Hw).
  exists groups, result. unfold optimize. rewrite Hg.
  split; [exact Hres|]. split; [exact Hcat|]. split; [exact Hne|].
  split; [exact Hruns|].
  assert (Hlines : map export_line result = map group_line groups).
  { clear -Hw. induction Hw as [|g nd gs nds Hgn _ IH]; simpl; [reflexivity|].
    now rewrite IH, (wraps_export_line g nd Hgn). }
  rewrite <- Hlines.
  assert (Htrim : Forall (fun m => trimmed (n_value m)) result).
  { assert (Hin : forall g, In g groups -> forall m, In m g -> In m (parse code)).
    { intros g Hgin m Hm. rewrite <- Hcat. apply in_concat. eauto. }
    clear -Hw Hin. induction Hw as [|g nd gs nds Hgn _ IH]; constructor.
    - destruct Hgn as [m|first second others].
      + apply (parse_node_facts code). apply (Hin [m]); now left.
      + apply wrapper_trimmed.
    - apply IH. intros g' Hg'. apply Hin. now right. }
  destruct Hw as [|g nd gs nds Hgn Hrest]; [reflexivity|].
  rewrite to_python_join by exact Htrim. simpl map. do 2 f_equal.
  destruct Hgn as [m|first second others]; [|reflexivity].
  symmetry. simpl in Hcat.
  destruct (parse code) as [|m0 rest0] eqn:Hp; [discriminate|].
  injection Hcat as -> _. exact (parse_first_unindented code m0 rest0 Hp).
Qed.

End ToPythonFacts.

(* ===================================================================== *)
(** * Properties of the persistence format *)
(* ===================================================================== *)

Module EditorFacts.

Import Parser Editor.

Lemma index_in (ids : list nat) (c : nat) :
  In c ids -> exists k, index ids c = Some k /\ nth_error ids k = Some c.
Proof.
  induction ids as [|i rest IH]; simpl; [tauto|].
  intros Hin. destruct (Nat.eqb_spec i c) as [->|Hne].
  - exists 0. auto.
  - destruct Hin as [|Hin]; [congruence|].
    destruct (IH Hin) as (k & -> & Hk). exists (S k). auto.
Qed.

Lemma index_sound (ids : list nat) (c k : nat) :
  index ids c = Some k -> nth_error ids k = Some c.
Proof.
  revert k; induction ids as [|i rest IH]; simpl; intros k; [discriminate|].
  destruct (Nat.eqb_spec i c) as [->|Hne].
  - intros [= <-]. reflexivity.
  - destruct (index rest c) as [k'|]; [|discriminate].
    intros [= <-]. now apply IH.
Qed.

Lemma index_nth (ids : list nat) (c k : nat) :
  List.NoDup ids -> nth_error ids k = Some c -> index ids c = Some k.
Proof.
  intros Hnd; revert k; induction Hnd as [|i rest Hnotin _ IH]; intros k.
  - destruct k; discriminate.
  - destruct k as [|k]; simpl.
    + intros [= ->]. now rewrite Nat.eqb_refl.
    + intros Hk. destruct (Nat.eqb_spec i c) as [->|Hne].
      * exfalso. apply Hnotin. eapply nth_error_In; eauto.
      * now rewrite (IH k Hk).
Qed.

Lemma load_items_length (next : nat) (data : list phix_record) :
  List.length (load_items next data) = List.length data.
Proof. revert next; induction data; intros; simpl; auto. Qed.

(** What the second loop of [load_phixeo] returns are the items of the
    first loop: the appended connections are not in them. *)
Lemma load_connections_keeps (nodes todo : list item)
  (data : list phix_record) (res : list item) :
  List.length todo = List.length data ->
  load_connections nodes todo data = Some res -> res = todo.
Proof.
  revert data res; induction todo as [|it todo IH]; intros [|r data] res;
    simpl; try (intros Hlen; discriminate Hlen).
  - intros _ [= <-]. reflexivity.
  - intros [= Hlen].
    destruct (traverse _ (r_connections r)) as [targets|]; [|discriminate].
    destruct (load_connections nodes todo data) as [rest|] eqn:Hrest;
      [|discriminate].
    intros [= <-]. f_equal. eapply IH; eauto.
Qed.

Lemma load_phixeo_items (next : nat) (data : list phix_record)
  (nodes : list item) :
  load_phixeo next data = Some nodes -> nodes = load_items next data.
Proof.
  unfold load_phixeo. apply load_connections_keeps, load_items_length.
Qed.

(** C8, on the code: a loop with one child is a forest; [save_phixeo]
    writes its two records, the first with the position of the child, and
    [load_phixeo] reads these records without an error, yet the loop it
    returns has no child: the reference that the second loop of
    [load_phixeo] appends goes to the copy of the dictionary that [data(0)]
    returned, not to the item. *)
Theorem load_phixeo_drops_children :
  let loop := Item 7 Hexagonal "i in range(3)" 0 0 [9] in
  let body := Item 9 Tetrahedral "print(i)" 3 4 [] in
  let file := [PhixRecord Hexagonal 0 0 "i in range(3)" [1%Z];
               PhixRecord Tetrahedral 3 4 "print(i)" []] in
  forest [loop; body] /\
  save_phixeo [loop; body] = Some file /\
  load_phixeo 0 file
  = Some [Item 0 Hexagonal "i in range(3)" 0 0 [];
          Item 1 Tetrahedral "print(i)" 3 4 []].
Proof.
  intros loop body file. split; [|split; reflexivity].
  split; simpl.
  - repeat constructor; simpl; intuition lia.
  - repeat (apply List.Forall_cons || apply List.Forall_nil); simpl; auto.
Qed.

End EditorFacts.
(* ===================================================================== *)
(** * Files that cannot be written or read, and reading before writing *)
(* ===================================================================== *)

Module PersistenceFacts.

Import Parser Editor Persistence EditorFacts.

Lemma traverse_none {A B : Type} (f : A -> option B) (l : list A) :
  traverse f l = None <-> Exists (fun a => f a = None) l.
Proof.
  induction l as [|a rest IH]; simpl.
  - split; [discriminate|]. intros H; inversion H.
  - destruct (f a) as [b|] eqn:Hfa.
    + destruct (traverse f rest) as [bs|].
      * split; [discriminate|]. intros H.
        inversion H as [? ? Ha|? ? Hr]; subst; [congruence|].
        apply IH in Hr. discriminate.
      * split; [|reflexivity]. intros _. apply Exists_cons_tl. now apply IH.
    + split; [|reflexivity]. intros _. now apply Exists_cons_hd.
Qed.

Lemma index_none (ids : list nat) (c : nat) :
  index ids c = None <-> ~ In c ids.
Proof.
  split.
  - intros Hnone Hin. destruct (index_in _ _ Hin) as (k & Hk & _). congruence.
  - intros Hnotin. destruct (index ids c) as [k|] eqn:Hk; [|reflexivity].
    exfalso. apply Hnotin. apply index_sound in Hk.
    eapply nth_error_In; eauto.
Qed.

Lemma save_item_none (nodes : list item) (n : item) :
  save_item nodes n = None <-> dangling nodes n.
Proof.
  unfold save_item, dangling.
  destruct (traverse (index (map it_id nodes)) (it_connections n)) as [idxs|] eqn:Ht.
  - split; [discriminate|]. intros Hex.
    assert (Hnone : traverse (index (map it_id nodes)) (it_connections n) = None).
    { apply traverse_none. eapply List.Exists_impl; [|exact Hex].
      intros c Hc. now apply index_none. }
    congruence.
  - split; [|reflexivity]. intros _. apply traverse_none in Ht.
    eapply List.Exists_impl; [|exact Ht]. intros c Hc. now apply index_none.
Qed.

(** X1: [save_phixeo] raises (the [ValueError] of [self.nodes.index(c)])
    exactly when some node of the canvas has a connection to an item that
    is not, or no longer, in [self.nodes]. *)
Theorem save_phixeo_fails_iff_dangling (nodes : list item) :
  save_phixeo nodes = None <-> Exists (dangling nodes) nodes.
Proof.
  unfold save_phixeo. rewrite traverse_none.
  split; intros H; (eapply List.Exists_impl; [|exact H]); intros n Hn;
    now apply save_item_none.
Qed.

Lemma getitem_none {A : Type} (l : list A) (idx : Z) :
  getitem l idx = None <-> out_of_range (List.length l) idx.
Proof.
  unfold getitem, out_of_range.
  destruct (Z.leb_spec 0 idx).
  - rewrite nth_error_None. lia.
  - destruct (Z.leb_spec (- Z.of_nat (List.length l)) idx).
    + rewrite nth_error_None. lia.
    + split; [lia|reflexivity].
Qed.

Lemma load_connections_none (nodes todo : list item) (data : list phix_record) :
  List.length todo = List.length data ->
  load_connections nodes todo data = None <->
  Exists (fun r => Exists (out_of_range (List.length nodes)) (r_connections r))
         data.
Proof.
  revert todo; induction data as [|r data IH]; intros [|it todo]; simpl;
    try (intros Hlen; discriminate Hlen).
  - intros _. split; [discriminate|]. intros H; inversion H.
  - intros [= Hlen]. specialize (IH todo Hlen).
    destruct (traverse _ (r_connections r)) as [targets|] eqn:Ht.
    + destruct (load_connections nodes todo data) as [rest|].
      * split; [discriminate|]. intros H.
        inversion H as [? ? Hr|? ? Hd]; subst.
        -- assert (Hn : traverse
                     (fun idx => option_map it_id (getitem nodes idx))
                     (r_connections r) = None).
           { apply traverse_none. eapply List.Exists_impl; [|exact Hr].
             intros idx Hidx. apply getitem_none in Hidx. now rewrite Hidx. }
           congruence.
        -- apply IH in Hd. discriminate.
      * split; [|reflexivity]. intros _. apply Exists_cons_tl. now apply IH.
    + split; [|reflexivity]. intros _. apply Exists_cons_hd.
      apply traverse_none in Ht. eapply List.Exists_impl; [|exact Ht].
      intros idx Hidx. apply getitem_none.
      simpl in Hidx. destruct (getitem nodes idx); [discriminate Hidx|reflexivity].
Qed.

(** X2: [load_phixeo] raises (the [IndexError] of [nodes[conn_idx]])
    exactly when some record of the file holds a connection index outside
    [-len(data), len(data)). *)
Theorem load_phixeo_fails_iff_out_of_range (next : nat)
  (data : list phix_record) :
  load_phixeo next data = None <->
  Exists (fun r => Exists (out_of_range (List.length data)) (r_connections r))
         data.
Proof.
  unfold load_phixeo.
  rewrite load_connections_none by apply load_items_length.
  now rewrite load_items_length.
Qed.

Lemma save_load_items (next : nat) (data : list phix_record) :
  save_phixeo (load_items next data) = Some (map without_connections data).
Proof.
  unfold save_phixeo.
  generalize (load_items next data) at 1. intros nodes.
  revert next; induction data as [|r data IH]; intros next; simpl;
    [reflexivity|].
  now rewrite IH.
Qed.

(** X3: writing what has been read.  When [load_phixeo] accepts a file,
    the canvas it builds has one node for every record, in order, none of
    them with a connection, and [save_phixeo] on that canvas succeeds and
    writes the records of the file with every ["connections"] list
    empty. *)
Theorem load_then_save (next : nat) (data : list phix_record)
  (nodes : list item) :
  load_phixeo next data = Some nodes ->
  Forall2 (fun n r => it_type n = r_type r /\ it_value n = r_value r /\
                      it_x n = r_x r /\ it_y n = r_y r /\
                      it_connections n = [])
          nodes data /\
  save_phixeo nodes = Some (map without_connections data).
Proof.
  intros Hload. apply load_phixeo_items in Hload. subst nodes. split.
  - clear. revert next; induction data as [|r data IH]; intros next; simpl;
      constructor; auto.
  - apply save_load_items.
Qed.

Lemma load_then_save_witness :
  let data := [PhixRecord Hexagonal 0 0 "i in range(3)" [(-1)%Z];
               PhixRecord Tetrahedral 3 4 "print(i)" []] in
  exists nodes : list item,
    load_phixeo 5 data = Some nodes /\
    save_phixeo nodes
    = Some [PhixRecord Hexagonal 0 0 "i in range(3)" [];
            PhixRecord Tetrahedral 3 4 "print(i)" []].
Proof.
  intros data. eexists. split; [reflexivity|].
  exact (proj2 (load_then_save 5 data _ eq_refl)).
Defined.

End PersistenceFacts.

(* ===================================================================== *)
(** * Properties of the runtime *)
(* ===================================================================== *)

Module RuntimeFacts.

Import PyStr PyStrFacts Parser Runtime.

Section Traces.

Context (py : Python).

Local Abbreviation runs := (runs py).
Local Abbreviation dispatches := (dispatches py).
Local Abbreviation children_run := (children_run py).

Lemma runs_wait_all (futures : list future) (k : prog py) (t : list (event py)) :
  runs (wait_all py futures k) t <->
  exists t', runs k t' /\ t = map EvResult futures ++ t'.
Proof.
  revert t; induction futures as [|f rest IH]; intros t; simpl.
  - split; [eauto | intros (t' & H & ->); exact H].
  - split.
    + intros H. inversion H; subst.
      match goal with H' : runs (wait_all py rest k) _ |- _ =>
        apply IH in H' as (t' & Hk & ->) end.
      eauto.
    + intros (t' & Hk & ->). constructor. apply IH. eauto.
Qed.

Lemma runs_dispatch_loop (conns : list node_id) (futures : list future)
  (k : list future -> prog py) (t : list (event py)) :
  runs (dispatch_loop py conns futures k) t <->
  exists ds fs t',
    dispatches conns ds fs /\ runs (k (futures ++ fs)) t' /\ t = ds ++ t'.
Proof.
  revert futures t; induction conns as [|conn rest IH]; intros futures t; simpl.
  - split.
    + intros H. exists [], [], t. rewrite app_nil_r.
      repeat split; [constructor | exact H].
    + intros (ds & fs & t' & Hd & Hk & ->). inversion Hd; subst.
      now rewrite app_nil_r in Hk.
  - split.
    + intros H. inversion H as [| |n b k0 t0 Hb| | | | | |]; subst. destruct b.
      * apply IH in Hb as (ds & fs & t' & Hd & Hk & ->).
        exists (EvCheck conn true :: ds), fs, t'.
        repeat split; [now constructor | exact Hk].
      * inversion Hb as [| | | | | | |n f k0 t1 Hf|]; subst.
        apply IH in Hf as (ds & fs & t' & Hd & Hk & ->).
        exists (EvCheck conn false :: EvSubmit conn f :: ds), (f :: fs), t'.
        repeat split; [constructor; exact Hd |].
        now rewrite <- app_assoc in Hk.
    + intros (ds & fs & t' & Hd & Hk & ->). inversion Hd; subst; simpl.
      * apply (runs_check py conn true). apply IH. eauto 6.
      * apply (runs_check py conn false). constructor. apply IH.
        do 3 eexists. split; [eassumption|]. split; [|reflexivity].
        now rewrite <- app_assoc.
Qed.

(** A dispatch of [conns] followed by [k]. *)
Lemma runs_run_children (conns : list node_id) (k : prog py)
  (t : list (event py)) :
  runs (run_children py conns k) t <->
  exists body t', children_run conns body /\ runs k t' /\ t = body ++ t'.
Proof.
  unfold run_children, children_run. rewrite runs_dispatch_loop. split.
  - intros (ds & fs & t1 & Hd & Hw & ->). simpl in Hw.
    apply runs_wait_all in Hw as (t' & Hk & ->).
    exists (ds ++ map EvResult fs), t'. rewrite <- app_assoc. eauto 8.
  - intros (body & t' & (ds & fs & Hd & ->) & Hk & ->).
    exists ds, fs, (map EvResult fs ++ t'). rewrite <- app_assoc.
    repeat split; [exact Hd|]. simpl. apply runs_wait_all. eauto.
Qed.

Lemma runs_return_iff (t : list (event py)) : runs Return t <-> t = [].
Proof. split; [inversion 1; reflexivity | intros ->; constructor]. Qed.

Lemma runs_append_iff (s : string) (k : prog py) (t : list (event py)) :
  runs (Append s k) t <-> exists t', runs k t' /\ t = EvAppend s :: t'.
Proof.
  split; [inversion 1; subst; eauto | intros (t' & H & ->); now constructor].
Qed.

Lemma runs_add_iff (n : node_id) (k : prog py) (t : list (event py)) :
  runs (AddExecuted n k) t <-> exists t', runs k t' /\ t = EvAdd n :: t'.
Proof.
  split; [inversion 1; subst; eauto | intros (t' & H & ->); now constructor].
Qed.

Lemma runs_eval_iff (code : string) (k : string + Val py -> prog py)
  (t : list (event py)) :
  runs (PyEval code k) t <->
  exists r t', runs (k r) t' /\ t = EvEval code r :: t'.
Proof.
  split; [inversion 1; subst; eauto | intros (r & t' & H & ->); now constructor].
Qed.

Lemma count_evals_app (t1 t2 : list (event py)) :
  count_evals py (t1 ++ t2) = count_evals py t1 + count_evals py t2.
Proof. unfold count_evals. now rewrite List.filter_app, List.length_app. Qed.

Lemma dispatches_no_eval (conns : list node_id) (ds : list (event py))
  (fs : list future) :
  dispatches conns ds fs -> count_evals py ds = 0.
Proof. unfold count_evals; induction 1; simpl; auto. Qed.

Lemma results_no_eval (fs : list future) :
  count_evals py (map EvResult fs) = 0.
Proof. unfold count_evals; induction fs; simpl; auto. Qed.

Lemma children_run_no_eval (conns : list node_id) (body : list (event py)) :
  children_run conns body -> count_evals py body = 0.
Proof.
  intros (ds & fs & Hd & ->).
  now rewrite count_evals_app, (dispatches_no_eval _ _ _ Hd), results_no_eval.
Qed.

Lemma runs_next_iff (next : Env py -> Env py * list string * draw)
  (k : Env py -> draw -> prog py) (t : list (event py)) :
  runs (PyNext next k) t <->
  exists g r t', runs (k g r) t' /\ t = EvNext g r :: t'.
Proof.
  split; [inversion 1; subst; eauto 6 |
          intros (g & r & t' & H & ->); now constructor].
Qed.

Lemma runs_loop_body (d : node_data) (conns : list node_id)
  (values : iterator (Env py)) (t : list (event py)) :
  d_connections d = Some conns ->
  runs (loop_body py d values) t <-> loop_rounds py d conns values t.
Proof.
  intros Hc. revert t; induction values as [|next rest IH]; intros t; simpl.
  - rewrite runs_return_iff. split.
    + intros ->. constructor.
    + inversion 1. reflexivity.
  - rewrite runs_next_iff. split.
    + intros (g & r & t' & H & ->). destruct r as [val| |e].
      * rewrite Hc in H. apply runs_append_iff in H as (t1 & H & ->).
        apply runs_run_children in H as (body & t2 & Hb & Hk & ->).
        apply IH in Hk.
        apply (rounds_yielded py d conns next rest g val
                 (EvAppend (d_value d ++ "  # " ++ val) :: body) t2);
          [exists body; auto | exact Hk].
      * apply runs_return_iff in H as ->. constructor.
      * apply runs_append_iff in H as (t1 & H & ->).
        apply runs_return_iff in H as ->. constructor.
    + intros H.
      inversion H as [|next0 rest0 g|next0 rest0 g e
                      |next0 rest0 g val round t2 (body & Hb & ->) Ht];
        subst.
      * exists g, Stopped, []. split; [constructor | reflexivity].
      * exists g, (Raised e), [EvAppend ("Error in loop: " ++ e)].
        split; [repeat constructor | reflexivity].
      * exists g, (Yielded val),
               (EvAppend (d_value d ++ "  # " ++ val) :: body ++ t2).
        split; [|reflexivity]. rewrite Hc. constructor.
        apply runs_run_children. exists body, t2.
        repeat split; [exact Hb|]. now apply IH.
Qed.

Lemma rounds_no_eval (d : node_data) (conns : list node_id)
  (values : iterator (Env py)) (t : list (event py)) :
  loop_rounds py d conns values t -> count_evals py t = 0.
Proof.
  induction 1 as [| | |next rest g val round t (body & Hb & ->) _ IH];
    try reflexivity.
  change (count_evals py (EvNext g (Yielded val)
                            :: (EvAppend (d_value d ++ "  # " ++ val) :: body)
                            ++ t))
    with (count_evals py (body ++ t)).
  now rewrite count_evals_app, IH, (children_run_no_eval conns body Hb).
Qed.

(** C1, amended: a loop node whose text splits at [" in "] into a variable
    and a range expression adds itself to the [executed] set and evaluates
    the range expression once; when that raises, or when the value cannot
    be iterated, it appends an error marker and returns; otherwise it
    draws the values one at a time and, for every value in turn, appends
    the record ["<text>  # <value>"] to the output, looks up each child in
    the [executed] set, in the order of the connections, submits to the
    pool the children that are not in it, and waits for the submitted ones
    before it draws the next value; a draw that raises ends the loop with
    an error marker, after the rounds of the values drawn before. *)
Theorem loop_execution (rt : runtime) (n : node_id) (d : node_data)
  (loop_var loop_range : string) (conns : list node_id) :
  nth_error (objects rt) n = Some d ->
  d_type d = Hexagonal ->
  split " in " (d_value d) = [loop_var; loop_range] ->
  d_connections d = Some conns ->
  forall t : list (event py),
    runs (_execute_node_parallel py rt n) t <->
    exists (r : string + Val py) (rest : list (event py)),
      t = EvAdd n :: EvEval loop_range r :: rest /\
      count_evals py t = 1 /\
      match r with
      | inl e => rest = [EvAppend ("Error in loop: " ++ e)]
      | inr v =>
          match py_iter py v with
          | inl e => rest = [EvAppend ("Error in loop: " ++ e)]
          | inr values => loop_rounds py d conns values rest
          end
      end.
Proof.
  intros Hd Hty Hsplit Hc t. unfold _execute_node_parallel.
  rewrite Hd, Hty. unfold execute_hexagonal. rewrite Hsplit.
  rewrite runs_add_iff. split.
  - intros (t1 & H & ->). apply runs_eval_iff in H as (r & rest & H & ->).
    exists r, rest. split; [reflexivity|].
    destruct r as [e|v]; [|destruct (py_iter py v) as [e|values]].
    + apply runs_append_iff in H as (t' & H & ->).
      apply runs_return_iff in H as ->. auto.
    + apply runs_append_iff in H as (t' & H & ->).
      apply runs_return_iff in H as ->. auto.
    + apply (runs_loop_body d conns values rest Hc) in H.
      split; [|exact H].
      change (count_evals py (EvAdd n :: EvEval loop_range (inr v) :: rest))
        with (S (count_evals py rest)).
      now rewrite (rounds_no_eval d conns values rest H).
  - intros (r & rest & -> & _ & H). eexists. split; [|reflexivity].
    apply runs_eval_iff. exists r, rest. split; [|reflexivity].
    destruct r as [e|v]; [|destruct (py_iter py v) as [e|values]];
      try (subst rest; repeat constructor).
    apply (runs_loop_body d conns values rest Hc). exact H.
Qed.

(** C4, amended: a conditional node adds itself to the [executed] set and
    evaluates its text without the trailing colons, once; when that raises
    it appends ["Error in if: <message>"] and returns; when the value is
    true it appends its text to the output, looks up each child in the
    [executed] set, in the order of the connections, submits to the pool
    the children that are not in it and waits for them; when the value is
    false it does nothing more: no child is submitted and no error is
    recorded. *)
Theorem conditional_execution (rt : runtime) (n : node_id) (d : node_data)
  (conns : list node_id) :
  nth_error (objects rt) n = Some d ->
  d_type d = Pentagonal ->
  d_connections d = Some conns ->
  forall t : list (event py),
    runs (_execute_node_parallel py rt n) t <->
    exists (r : string + Val py) (rest : list (event py)),
      t = EvAdd n :: EvEval (rstrip_colon (d_value d)) r :: rest /\
      count_evals py t = 1 /\
      match r with
      | inl e => rest = [EvAppend ("Error in if: " ++ e)]
      | inr v =>
          if py_truthy py v
          then exists body : list (event py),
                 children_run conns body /\
                 rest = EvAppend (d_value d) :: body
          else rest = []
      end.
Proof.
  intros Hd Hty Hc t. unfold _execute_node_parallel.
  rewrite Hd, Hty. unfold execute_pentagonal. rewrite Hc.
  rewrite runs_add_iff. split.
  - intros (t1 & H & ->). apply runs_eval_iff in H as (r & rest & H & ->).
    exists r, rest. split; [reflexivity|].
    destruct r as [e|v]; [|destruct (py_truthy py v)].
    + apply runs_append_iff in H as (t' & H & ->).
      apply runs_return_iff in H as ->. auto.
    + apply runs_append_iff in H as (t' & H & ->).
      apply runs_run_children in H as (body & t'' & Hb & Hk & ->).
      apply runs_return_iff in Hk as ->. rewrite app_nil_r.
      split; [|eauto].
      change (count_evals py (EvAdd n :: EvEval (rstrip_colon (d_value d)) (inr v)
                                :: EvAppend (d_value d) :: body))
        with (S (count_evals py body)).
      now rewrite (children_run_no_eval conns body Hb).
    + apply runs_return_iff in H as ->. auto.
  - intros (r & rest & -> & _ & H). eexists. split; [|reflexivity].
    apply runs_eval_iff. exists r, rest. split; [|reflexivity].
    destruct r as [e|v]; [|destruct (py_truthy py v)];
      try (subst rest; repeat constructor).
    destruct H as (body & Hb & ->). constructor.
    apply runs_run_children. exists body, []. rewrite app_nil_r.
    repeat split; [exact Hb | constructor].
Qed.

(** ** A loop without [" in "] *)

Lemma set_worker_nth (ws : list (option (future * prog py))) (i : nat)
  (w0 w : option (future * prog py)) :
  nth_error ws i = Some w0 -> nth_error (set_worker py ws i w) i = Some w.
Proof.
  revert i; induction ws as [|a rest IH]; intros [|i]; simpl;
    try discriminate; auto.
Qed.

Lemma set_worker_twice (ws : list (option (future * prog py))) (i : nat)
  (a b : option (future * prog py)) :
  set_worker py (set_worker py ws i a) i b = set_worker py ws i b.
Proof.
  revert i; induction ws as [|w rest IH]; intros [|i]; simpl;
    try reflexivity. now rewrite IH.
Qed.

Lemma malformed_loop_code (rt : runtime) (n : node_id) (d : node_data) :
  nth_error (objects rt) n = Some d ->
  d_type d = Hexagonal ->
  ~ occurs " in " (d_value d) ->
  _execute_node_parallel py rt n =
  AddExecuted n (Append ("Error in loop: " ++ unpack_too_few) Return).
Proof.
  intros Hd Hty Habs. unfold _execute_node_parallel.
  rewrite Hd, Hty. unfold execute_hexagonal.
  apply contains_false_iff in Habs. now rewrite (split_absent _ _ Habs).
Qed.

(** C7: a loop node whose text lacks [" in "] adds itself to the
    [executed] set, appends the error marker and returns: these are all its
    operations, so none of its children is submitted.  A worker that holds
    the task finishes it in three moves, none of which can block: the
    future of the task is finished, the output has the marker as its one
    new entry, and the queue, the other workers and the main thread are as
    before, so that what waits for the node and what is queued beside it
    goes on. *)
Theorem malformed_loop_is_local (rt : runtime) (n : node_id) (d : node_data) :
  nth_error (objects rt) n = Some d ->
  d_type d = Hexagonal ->
  ~ occurs " in " (d_value d) ->
  (forall t : list (event py),
      runs (_execute_node_parallel py rt n) t <->
      t = [EvAdd n; EvAppend ("Error in loop: " ++ unpack_too_few)]) /\
  (forall (st : pool py) (i : nat) (f : future),
      nth_error (workers st) i = Some (Some (f, _execute_node_parallel py rt n)) ->
      run_schedule py rt [Worker i; Worker i; Worker i] st =
      Some (Pool (Shared ({[n]} ∪ executed (sh st))
                         (output (sh st) ++ [("Error in loop: " ++ unpack_too_few)%string])
                         (globals (sh st)) (work_queue (sh st))
                         (next_future (sh st)) ({[f]} ∪ finished (sh st))
                         (entered (sh st)))
                 (set_worker py (workers st) i None)
                 (main st))).
Proof.
  intros Hd Hty Habs. rewrite (malformed_loop_code rt n d Hd Hty Habs). split.
  - intros t. rewrite runs_add_iff. split.
    + intros (t1 & H & ->). apply runs_append_iff in H as (t2 & H & ->).
      apply runs_return_iff in H as ->. reflexivity.
    + intros ->. eexists. split; [|reflexivity]. repeat constructor.
  - intros st i f Hw. cbn [run_schedule]. unfold step at 1. rewrite Hw.
    cbn [perform workers sh main].
    unfold step at 1. cbn [workers sh main].
    erewrite set_worker_nth by exact Hw.
    cbn [perform workers sh main executed output globals work_queue
         next_future finished entered].
    unfold step at 1. cbn [workers sh main].
    erewrite set_worker_nth by (eapply set_worker_nth; exact Hw).
    cbn [executed output globals work_queue next_future finished entered].
    now rewrite !set_worker_twice.
Qed.

(** ** The pool *)

(** A move of a thread is one operation of its code. *)
Lemma perform_event (s s' : shared py) (p p' : prog py) :
  perform py s p = Some (s', p') ->
  exists e : event py, forall t, runs p' t -> runs p (e :: t).
Proof.
  destruct p as [|n k|n k|str k|code k|code k|next k|n k|f k]; simpl;
    try discriminate.
  - intros [= <- <-]. exists (EvAdd n). now constructor.
  - intros [= <- <-]. eexists (EvCheck n _). intros t. apply runs_check.
  - intros [= <- <-]. exists (EvAppend str). now constructor.
  - destruct (py_exec py code (globals s)) as [[g printed] r].
    intros [= <- <-]. exists (EvExec code r). intros t. apply runs_exec.
  - destruct (py_eval py code (globals s)) as [[g printed] r].
    intros [= <- <-]. exists (EvEval code r). intros t. apply runs_eval.
  - destruct (next (globals s)) as [[g printed] r].
    intros [= <- <-]. exists (EvNext (globals s) r). intros t.
    apply runs_next.
  - intros [= <- <-]. eexists (EvSubmit n _). intros t. apply runs_submit.
  - destruct (bool_decide (f ∈ finished s)); [|discriminate].
    intros [= <- <-]. exists (EvResult f). now constructor.
Qed.

Lemma step_in_choices (rt : runtime) (c : choice) (st st' : pool py) :
  step py rt c st = Some st' -> In c (choices py st).
Proof.
  destruct c as [| |i]; simpl; auto. intros H. right. right.
  apply in_map, in_seq. split; [lia|]. simpl.
  destruct (nth_error (workers st) i) eqn:E; [|discriminate].
  apply nth_error_Some. congruence.
Qed.

(** [outcomes] lists returns of runs only. *)
Lemma outcomes_sound (rt : runtime) (bound : nat) :
  forall (st : pool py) (out : list string) (calls : list node_id),
    In (Returned out calls) (outcomes py rt bound st) ->
    exists (schedule : list choice) (st' : pool py),
      run_schedule py rt schedule st = Some st' /\
      returned py st' = true /\
      output (sh st') = out /\ entered (sh st') = calls.
Proof.
  induction bound as [|bound IH]; intros st out calls Hin.
  - simpl in Hin. destruct (returned py st) eqn:Hr.
    + destruct Hin as [[= <- <-]|[]]. exists [], st. auto.
    + destruct Hin as [|[]]; discriminate.
  - cbn [outcomes] in Hin. destruct (returned py st) eqn:Hr.
    + destruct Hin as [[= <- <-]|[]]. exists [], st. auto.
    + match type of Hin with In _ (match ?l with _ => _ end) =>
        assert (Hin' : In (Returned out calls) l)
          by (destruct l; [destruct Hin as [|[]]; discriminate | exact Hin])
      end.
      apply List.in_flat_map in Hin' as (c & _ & Hc).
      destruct (step py rt c st) as [st1|] eqn:Hstep; [|destruct Hc].
      destruct (IH st1 out calls Hc) as (schedule & st' & Hrun & Hret & Hout).
      exists (c :: schedule), st'. simpl. rewrite Hstep. auto.
Qed.

(** [outcomes] lists the return of every run, if the bound allows for its
    length: the first pool of the run in which [execute] has returned. *)
Lemma outcomes_complete (rt : runtime) (schedule : list choice) :
  forall (bound : nat) (st st' : pool py),
    List.length schedule <= bound ->
    run_schedule py rt schedule st = Some st' ->
    returned py st' = true ->
    exists (k : nat) (st1 : pool py),
      run_schedule py rt (firstn k schedule) st = Some st1 /\
      returned py st1 = true /\
      In (Returned (output (sh st1)) (entered (sh st1)))
         (outcomes py rt bound st).
Proof.
  induction schedule as [|c rest IH]; intros bound st st' Hlen Hrun Hret.
  - simpl in Hrun. injection Hrun as <-. exists 0, st.
    repeat split; auto. destruct bound; simpl; rewrite Hret; now left.
  - destruct (returned py st) eqn:Hr.
    + exists 0, st. repeat split; auto.
      destruct bound; simpl; rewrite Hr; now left.
    + destruct bound as [|bound]; [simpl in Hlen; lia|].
      simpl in Hrun. destruct (step py rt c st) as [st1|] eqn:Hstep;
        [|discriminate].
      destruct (IH bound st1 st' ltac:(simpl in Hlen; lia) Hrun Hret)
        as (k & st2 & Hk & Hret2 & Hin).
      exists (S k), st2.
      change (firstn (S k) (c :: rest)) with (c :: firstn k rest).
      cbn [run_schedule]. rewrite Hstep. repeat split; auto.
      cbn [outcomes]. rewrite Hr.
      match goal with |- In _ (match ?l with _ => _ end) =>
        assert (Hl : In (Returned (output (sh st2)) (entered (sh st2))) l)
      end.
      { apply List.in_flat_map. exists c. split.
        - eapply step_in_choices; eauto.
        - now rewrite Hstep. }
      destruct (flat_map _ _); [destruct Hl | exact Hl].
Qed.

Lemma outcomes_nonempty (rt : runtime) (bound : nat) (st : pool py) :
  outcomes py rt bound st <> [].
Proof.
  destruct bound; cbn [outcomes]; destruct (returned py st);
    try discriminate.
  destruct (flat_map _ (choices py st)); discriminate.
Qed.

Lemma forallb_flat_map {A B : Type} (P : B -> bool) (f : A -> list B)
  (l : list A) :
  forallb P (flat_map f l) = forallb (fun a => forallb P (f a)) l.
Proof.
  induction l as [|a l IH]; simpl; [reflexivity|].
  now rewrite forallb_app, IH.
Qed.

(** [every_run] goes through the runs that [outcomes] lists. *)
Lemma every_run_outcomes (P : outcome -> bool) (rt : runtime) (bound : nat) :
  forall st : pool py,
    every_run py P rt bound st = forallb P (outcomes py rt bound st).
Proof.
  induction bound as [|bound IH]; intros st; cbn [every_run outcomes];
    (destruct (returned py st);
     [cbn [forallb]; now rewrite andb_true_r|]).
  { cbn [forallb]. now rewrite andb_true_r. }
  set (G := fun c => match step py rt c st with
                     | Some st' => [st']
                     | None => []
                     end).
  assert (HF : flat_map (fun c => match step py rt c st with
                                  | Some st' => outcomes py rt bound st'
                                  | None => []
                                  end) (choices py st)
               = flat_map (outcomes py rt bound) (flat_map G (choices py st))).
  { induction (choices py st) as [|c l IHl]; simpl; [reflexivity|].
    rewrite List.flat_map_app, <- IHl. unfold G at 1.
    destruct (step py rt c st); simpl; [now rewrite app_nil_r | reflexivity]. }
  rewrite HF. destruct (flat_map G (choices py st)) as [|st1 next] eqn:Hn.
  - cbn [flat_map forallb]. now rewrite andb_true_r.
  - assert (Hne : flat_map (outcomes py rt bound) (st1 :: next) <> []).
    { simpl. intros H. apply app_eq_nil in H as [H _].
      now apply outcomes_nonempty in H. }
    destruct (flat_map (outcomes py rt bound) (st1 :: next)) as [|o os] eqn:Hf;
      [congruence|].
    rewrite <- Hf, forallb_flat_map. clear Hn Hne Hf HF.
    induction (st1 :: next) as [|s l IHl]; simpl; [reflexivity|].
    now rewrite IH, IHl.
Qed.

(** What [every_run] says of a run: the property holds of the pool in which
    [execute] returns. *)
Lemma every_run_returned (P : outcome -> bool) (rt : runtime) (bound : nat)
  (schedule : list choice) (st st' : pool py) :
  every_run py P rt bound st = true ->
  List.length schedule <= bound ->
  run_schedule py rt schedule st = Some st' ->
  returned py st' = true ->
  exists (k : nat) (st1 : pool py),
    run_schedule py rt (firstn k schedule) st = Some st1 /\
    returned py st1 = true /\
    P (Returned (output (sh st1)) (entered (sh st1))) = true.
Proof.
  intros Hall Hlen Hrun Hret. rewrite every_run_outcomes in Hall.
  destruct (outcomes_complete rt schedule bound st st' Hlen Hrun Hret)
    as (k & st1 & Hk & Hr & Hin).
  exists k, st1. repeat split; auto.
  rewrite forallb_forall in Hall. now apply Hall.
Qed.

End Traces.

(** ** The theorems at work, and where the specification departs *)

Lemma loop_execution_witness :
  split " in " "i in (lambda: [(yield 1.0), (yield 1/0)])()"
  = ["i"; "(lambda: [(yield 1.0), (yield 1/0)])()"] /\
  runs example_python
       (_execute_node_parallel example_python loop_over_generator 0)
       [EvAdd 0;
        EvEval (py:=example_python) "(lambda: [(yield 1.0), (yield 1/0)])()"
               (inr VGenerator);
        EvNext (py:=example_python) tt (Yielded "1.0");
        EvAppend "i in (lambda: [(yield 1.0), (yield 1/0)])()  # 1.0";
        EvCheck 1 false; EvSubmit 1 0; EvResult 0;
        EvNext (py:=example_python) tt (Raised "division by zero");
        EvAppend "Error in loop: division by zero"].
Proof.
  split; [reflexivity|].
  apply (proj2 (loop_execution example_python loop_over_generator 0
                  (NodeData Hexagonal "i in (lambda: [(yield 1.0), (yield 1/0)])()"
                            (Some [1]) None (50, 0)%Q)
                  "i" "(lambda: [(yield 1.0), (yield 1/0)])()" [1]
                  eq_refl eq_refl eq_refl eq_refl _)).
  exists (inr VGenerator).
  eexists. split; [reflexivity|]. split; [reflexivity|]. simpl.
  apply (rounds_yielded example_python _ [1] _ _ tt "1.0"
           [EvAppend "i in (lambda: [(yield 1.0), (yield 1/0)])()  # 1.0";
            EvCheck 1 false; EvSubmit 1 0; EvResult 0]
           [EvNext (py:=example_python) tt (Raised "division by zero");
            EvAppend "Error in loop: division by zero"]).
  - exists [EvCheck 1 false; EvSubmit 1 0; EvResult 0]. split; [|reflexivity].
    exists [EvCheck 1 false; EvSubmit 1 0], [0].
    split; [repeat constructor | reflexivity].
  - apply rounds_raised.
Defined.

Lemma conditional_execution_witness :
  rstrip_colon "True" = "True" /\
  runs example_python
       (_execute_node_parallel example_python bare_conditional_with_child 0)
       [EvAdd 0; EvEval (py:=example_python) "True" (inr (VBool true));
        EvAppend "True";
        EvCheck 1 false; EvSubmit 1 0; EvResult 0].
Proof.
  split; [reflexivity|].
  apply (proj2 (conditional_execution example_python
                  bare_conditional_with_child 0
                  (NodeData Pentagonal "True" (Some [1]) None (50, 0)%Q)
                  [1] eq_refl eq_refl eq_refl _)).
  exists (inr (VBool true)).
  eexists. split; [reflexivity|]. split; [reflexivity|]. simpl.
  exists [EvCheck 1 false; EvSubmit 1 0; EvResult 0]. split; [|reflexivity].
  exists [EvCheck 1 false; EvSubmit 1 0], [0].
  split; [repeat constructor | reflexivity].
Defined.

Lemma malformed_loop_is_local_witness :
  contains " in " "for x range(3):" = false /\
  runs example_python
       (_execute_node_parallel example_python malformed_loop_with_child 0)
       [EvAdd 0;
        EvAppend "Error in loop: not enough values to unpack (expected 2, got 1)"].
Proof.
  split; [reflexivity|].
  apply (proj1 (malformed_loop_is_local example_python
                  malformed_loop_with_child 0
                  (NodeData Hexagonal "for x range(3):" (Some [1]) None (50, 0)%Q)
                  eq_refl eq_refl
                  (proj1 (contains_false_iff " in " "for x range(3):") eq_refl))).
  reflexivity.
Defined.

(** C1 as stated fails.  The loop of [loop_with_child] runs over the two
    values of [range(2)]; called on an empty [executed] set, it has one way
    to run, in which its child is called once, after the first record: at
    the second value the child is in the [executed] set and is passed
    over.  Under [execute], with the child created first, the child is
    never printed more than once either, however the pool runs.  Nor do
    the children of one round run one after the other: with two children,
    the output of the second can come before the output of the first. *)
Lemma loop_children_once_counterexample :
  py_iter example_python (VRange 2) = inr (iterate ["0"; "1"]) /\
  outcomes example_python loop_with_child 40
           (start_node example_python loop_with_child 4 0 ∅)
  = [Returned ["i in range(2)  # 0"; "x"; "i in range(2)  # 1"] [0; 1]] /\
  forallb (fun o => match o with
                    | Returned out _ => count_occ string_dec out "x" <=? 1
                    | _ => false
                    end)
          (outcomes example_python child_before_loop 60
                    (start example_python child_before_loop 4)) = true /\
  returns_output ["i in range(2)  # 0"; "x"; "1"; "i in range(2)  # 1"]
    (outcomes example_python loop_with_two_children 60
              (start_node example_python loop_with_two_children 4 0 ∅)) = true /\
  returns_output ["i in range(2)  # 0"; "1"; "x"; "i in range(2)  # 1"]
    (outcomes example_python loop_with_two_children 60
              (start_node example_python loop_with_two_children 4 0 ∅)) = true.
Proof. repeat split; vm_compute; reflexivity. Qed.

(** C4 as stated fails.  The text ["if True:"] has the form
    ["if <expr>:"] and [True] is true, yet neither the text nor the output
    of the child is appended: what is evaluated is ["if True"], the text
    without its colon, which is not an expression, and the error marker is
    all the node leaves.  And with the bare condition [True] as text, a
    child that is in the [executed] set already is not run. *)
Lemma conditional_text_counterexample :
  rstrip_colon "if True:" = "if True" /\
  py_eval example_python "True" tt = (tt, [], inr (VBool true)) /\
  outcomes example_python conditional_with_child 40
           (start_node example_python conditional_with_child 4 0 ∅)
  = [Returned ["Error in if: invalid syntax (<string>, line 1)"] [0]] /\
  outcomes example_python bare_conditional_with_child 40
           (start_node example_python bare_conditional_with_child 4 0 {[1]})
  = [Returned ["True"] [0]].
Proof. repeat split; vm_compute; reflexivity. Qed.

(** A loop without [" in "] beside a statement: however the pool runs
    [execute], it returns, with the error marker and the output of the
    statement. *)
Lemma malformed_loop_sibling_runs :
  forallb (fun o => match o with
                    | Returned out _ =>
                        (count_occ string_dec out "x" =? 1) &&
                        (count_occ string_dec out
                           "Error in loop: not enough values to unpack (expected 2, got 1)"
                         =? 1) && (List.length out =? 2)
                    | _ => false
                    end)
          (outcomes example_python malformed_loop_and_sibling 60
                    (start example_python malformed_loop_and_sibling 4)) = true.
Proof. vm_compute. reflexivity. Qed.

(** C5, on the code: on one connected program [execute] returns different
    outputs according to the moves of the threads, and to the number of
    workers.  In [loop_after_statements] a loop is connected to two
    statements, the first of which is slow.  With one worker, while the
    first statement runs the second waits in the queue, the main thread
    finds it not executed and never submits the loop: the output is that of
    the two statements.  With four workers a second worker runs the second
    statement at once, the main thread finds both statements in the
    [executed] set and submits the loop: the output begins with the second
    statement and holds the records of the loop, which no run with one
    worker returns, since there the first statement always prints first.
    In [child_before_loop] the output depends on whether the main thread
    reads the [executed] set before or after the worker has added the child
    to it.  And with one worker [execute] never returns on
    [aggregate_with_subnode], because the only worker waits for the task it
    has submitted; with four it can return. *)
Theorem pool_size_output_differs :
  observe loop_after_statements 1 one_worker_busy
  = Some (true, ["999999"; "x"], [0; 1]) /\
  observe loop_after_statements 4 second_worker_helps
  = Some (true, ["x"; "i in range(2)  # 0"; "i in range(2)  # 1"; "999999"],
          [0; 1; 2]) /\
  every_run example_python
    (fun o => match o with
              | Returned ("999999" :: _) _ => true
              | _ => false
              end)
    loop_after_statements 60 (start example_python loop_after_statements 1)
  = true /\
  observe child_before_loop 1 main_first = Some (true, ["x"], [0]) /\
  observe child_before_loop 4 worker_first
  = Some (true, ["x"; "i in range(2)  # 0"; "i in range(2)  # 1"], [0; 1]) /\
  observe child_before_loop 4 main_first = Some (true, ["x"], [0]) /\
  observe child_before_loop 1 worker_first
  = Some (true, ["x"; "i in range(2)  # 0"; "i in range(2)  # 1"], [0; 1]) /\
  every_run example_python
    (fun o => match o with Stuck => true | _ => false end)
    aggregate_with_subnode 60 (start example_python aggregate_with_subnode 1)
  = true /\
  returns_output ["group_tetrahedral"; "1"]
    (outcomes example_python aggregate_with_subnode 60
              (start example_python aggregate_with_subnode 4)) = true.
Proof. repeat split; vm_compute; reflexivity. Qed.

(** C10, on the code: with the schedule [submitted_twice] the statement of
    [aggregate_with_subnode] is called twice in one run of [execute], once
    for the main thread and once for the aggregate: both looked it up in
    the [executed] set before either of the two tasks had begun. *)
Theorem subnode_evaluated_twice :
  observe aggregate_with_subnode 4 submitted_twice
  = Some (true, ["group_tetrahedral"; "1"; "1"], [0; 1; 1]).
Proof. vm_compute. reflexivity. Qed.

End RuntimeFacts.

(* ===================================================================== *)
(** * [execute] on a forest without aggregates *)
(* ===================================================================== *)

Module RuntimeInvariant.

Import PyStr Parser Runtime.

Section Invariant.

Context (py : Python) (rt : runtime).

Hypothesis Hplain : Forall (fun d => d_subnodes d = None) (objects rt).

Local Abbreviation quiet := (quiet py).
Local Abbreviation top_level := (top_level py rt).

Lemma quiet_mono (E E' : gset node_id) (p : prog py) :
  quiet E p -> E ⊆ E' -> quiet E' p.
Proof.
  induction 1; intros Hsub; constructor; auto.
Qed.

Lemma top_level_mono :
  forall (E : gset node_id) (ns : list node_id) (p : prog py),
    top_level E ns p -> forall E', E ⊆ E' -> top_level E' ns p.
Proof.
  intros E ns p H.
  induction H as [E ns|E ns f k _ IH|E ns n k _ IHt _ IHf|E n rest k Hc _ IH
                 |E n rest p _ IH];
    intros E' Hsub.
  - constructor.
  - constructor. auto.
  - constructor; [apply IHt; now apply union_mono_l | apply IHf; exact Hsub].
  - constructor; [|auto]. intros c Hin. apply Hsub, Hc, Hin.
  - apply top_skip. auto.
Qed.

(** *** The code of a task submits nothing *)

Lemma quiet_wait_all (E : gset node_id) (futures : list future) (k : prog py) :
  quiet E k -> quiet E (wait_all py futures k).
Proof. intros Hk. induction futures; simpl; [exact Hk | now constructor]. Qed.

Lemma quiet_dispatch_loop (E : gset node_id) (conns : list node_id) :
  (forall c, In c conns -> c ∈ E) ->
  forall (futures : list future) (k : list future -> prog py),
    (forall fs, quiet E (k fs)) -> quiet E (dispatch_loop py conns futures k).
Proof.
  induction conns as [|c rest IH]; intros Hin futures k Hk; simpl; [apply Hk|].
  constructor; [apply Hin; now left|].
  apply IH; [intros c' Hc'; apply Hin; now right | exact Hk].
Qed.

Lemma quiet_run_children (E : gset node_id) (conns : list node_id) (k : prog py) :
  (forall c, In c conns -> c ∈ E) -> quiet E k ->
  quiet E (run_children py conns k).
Proof.
  intros Hin Hk. apply quiet_dispatch_loop; [exact Hin|].
  intros fs. now apply quiet_wait_all.
Qed.

Lemma quiet_loop_body (E : gset node_id) (d : node_data)
  (values : iterator (Env py)) :
  (forall c conns, d_connections d = Some conns -> In c conns -> c ∈ E) ->
  quiet E (loop_body py d values).
Proof.
  intros Hin. induction values as [|next rest IH]; simpl; constructor.
  intros g [val| |e]; [|constructor|repeat constructor].
  constructor. destruct (d_connections d) as [conns|] eqn:Hc.
  - apply quiet_run_children; [intros c; now apply Hin | apply IH].
  - repeat constructor.
Qed.

Lemma quiet_execute_node (E : gset node_id) (n : node_id) :
  (forall c, In c (connections_of rt n) -> c ∈ E) ->
  quiet E (_execute_node_parallel py rt n).
Proof.
  unfold connections_of, _execute_node_parallel. intros Hin.
  destruct (nth_error (objects rt) n) as [d|] eqn:Hd; [|constructor].
  assert (Hsub : d_subnodes d = None).
  { rewrite List.Forall_forall in Hplain. apply Hplain.
    eapply nth_error_In; eauto. }
  assert (Hconns : forall c conns, d_connections d = Some conns ->
                                   In c conns -> c ∈ E).
  { intros c conns Hc. rewrite Hc in Hin. apply Hin. }
  constructor. destruct (d_type d).
  - unfold execute_tetrahedral. constructor. intros [e|]; repeat constructor.
  - unfold execute_hexagonal.
    destruct (split " in " (d_value d)) as [|a [|b [|c l]]];
      try (repeat constructor; fail).
    constructor. intros [e|v]; [repeat constructor|].
    destruct (py_iter py v); [repeat constructor|].
    now apply quiet_loop_body.
  - unfold execute_pentagonal. constructor. intros [e|v]; [repeat constructor|].
    destruct (py_truthy py v); [|constructor]. constructor.
    destruct (d_connections d) as [conns|] eqn:Hc; [|repeat constructor].
    apply quiet_run_children; [intros c; now apply (Hconns c conns)|constructor].
  - unfold execute_fractal. rewrite Hsub. repeat constructor.
Qed.

Lemma quiet_step (E : gset node_id) (s s' : shared py) (p p' : prog py) :
  quiet E p -> E ⊆ executed s -> perform py s p = Some (s', p') ->
  quiet E p' /\ executed s ⊆ executed s' /\
  work_queue s' = work_queue s /\ entered s' = entered s.
Proof.
  intros Hq Hsub.
  destruct Hq as [|n k Hk|n k Hn Hk|str k Hk|code k Hk|code k Hk|next k Hk
                 |f k Hk];
    simpl; try discriminate.
  - intros [= <- <-]. simpl. repeat split; auto. set_solver.
  - intros [= <- <-]. rewrite bool_decide_eq_true_2 by set_solver. auto.
  - intros [= <- <-]. simpl. auto.
  - destruct (py_exec py code (globals s)) as [[g printed] r].
    intros [= <- <-]. simpl. auto.
  - destruct (py_eval py code (globals s)) as [[g printed] r].
    intros [= <- <-]. simpl. auto.
  - destruct (next (globals s)) as [[g printed] r].
    intros [= <- <-]. simpl. auto.
  - destruct (bool_decide (f ∈ finished s)); [|discriminate].
    intros [= <- <-]. auto.
Qed.

(** *** The code of [execute] submits a node once *)

Lemma top_wait_all (E : gset node_id) (ns : list node_id) (futures : list future) :
  top_level E ns (wait_all py futures Return).
Proof. induction futures; simpl; constructor; auto. Qed.

Lemma top_all_executed (E : gset node_id) (node : node_id) (rest : list node_id)
  (k : bool -> prog py) (todo : list node_id) :
  (forall c, In c (connections_of rt node) -> In c todo \/ c ∈ E) ->
  (forall E', E ⊆ E' -> top_level E' rest (k false)) ->
  (forall E', (forall c, In c (connections_of rt node) -> c ∈ E') ->
              top_level E' (node :: rest) (k true)) ->
  top_level E (node :: rest) (all_executed py todo k).
Proof.
  revert E; induction todo as [|c todo IH]; intros E Hcov Hfalse Htrue; simpl.
  - apply Htrue. intros c Hc. destruct (Hcov c Hc) as [[]|]; assumption.
  - constructor.
    + apply IH.
      * intros c' Hc'. destruct (Hcov c' Hc') as [[->|]|]; [right|left|right];
          auto; set_solver.
      * intros E' HE'. apply Hfalse. set_solver.
      * exact Htrue.
    + apply top_skip. now apply Hfalse.
Qed.

Lemma top_submit_ready (ns : list node_id) :
  forall (E : gset node_id) (futures : list future),
    top_level E ns (submit_ready py rt ns futures).
Proof.
  induction ns as [|node rest IH]; intros E futures; simpl.
  - apply top_wait_all.
  - constructor; [apply top_skip, IH|].
    assert (Hsubmit : forall E',
               (forall c, In c (connections_of rt node) -> c ∈ E') ->
               top_level E' (node :: rest)
                 (Submit node (fun f => submit_ready py rt rest (futures ++ [f])))).
    { intros E' Hc. constructor; [exact Hc | intros f; apply IH]. }
    unfold _can_execute. pose proof (eq_refl (connections_of rt node)) as Hconn.
    unfold connections_of at 2 in Hconn.
    destruct (nth_error (objects rt) node) as [d|];
      [destruct (d_connections d) as [conns|]|].
    + apply top_all_executed.
      * intros c Hc. left. now rewrite Hconn in Hc.
      * intros E' _. apply IH.
      * exact Hsubmit.
    + apply Hsubmit. intros c Hc. rewrite Hconn in Hc. destruct Hc.
    + apply Hsubmit. intros c Hc. rewrite Hconn in Hc. destruct Hc.
Qed.

Lemma nodup_drop_middle (a pre b : list node_id) :
  List.NoDup (a ++ pre ++ b) -> List.NoDup (a ++ b).
Proof.
  induction pre as [|x pre IH]; simpl; [auto|].
  intros H. apply IH. eapply List.NoDup_remove_1. exact H.
Qed.

(** A move of the main thread: it submits nothing, or the next node it has
    found ready. *)
Lemma top_level_step :
  forall (E : gset node_id) (ns : list node_id) (p : prog py),
    top_level E ns p ->
    forall (s s' : shared py) (p' : prog py),
      E ⊆ executed s -> perform py s p = Some (s', p') ->
      executed s' = executed s /\ entered s' = entered s /\
      exists (pre ns' : list node_id),
        top_level (executed s) ns' p' /\
        ((ns = pre ++ ns' /\ work_queue s' = work_queue s) \/
         (exists n : node_id,
             ns = pre ++ n :: ns' /\
             work_queue s' = work_queue s ++ [(next_future s, n)] /\
             forall c, In c (connections_of rt n) -> c ∈ executed s)).
Proof.
  intros E ns p H.
  induction H as [E ns|E ns f k Hk _|E ns n k Ht _ Hf _|E n rest k Hc Hk _
                 |E n rest p _ IH];
    intros s s' p' Hsub; simpl.
  - discriminate.
  - destruct (bool_decide (f ∈ finished s)); [|discriminate].
    intros [= <- <-]. repeat split. exists [], ns. split.
    + eapply top_level_mono; eauto.
    + left. auto.
  - intros [= <- <-]. repeat split. exists [], ns. split; [|left; auto].
    destruct (bool_decide (n ∈ executed s)) eqn:Hb.
    + apply bool_decide_eq_true in Hb.
      eapply top_level_mono; [exact Ht|].
      apply union_least; [now apply singleton_subseteq_l | exact Hsub].
    + eapply top_level_mono; eauto.
  - intros [= <- <-]. simpl. repeat split. exists [], rest. split.
    + eapply top_level_mono; [apply Hk | exact Hsub].
    + right. exists n. repeat split. intros c Hin. apply Hsub, Hc, Hin.
  - intros Hp. destruct (IH s s' p' Hsub Hp) as (He & Hent & pre & ns' & Ht & Hq).
    repeat split; auto. exists (n :: pre), ns'. split; [exact Ht|].
    destruct Hq as [[-> Hq]|(m & -> & Hq)]; [left | right; exists m]; auto.
Qed.

Lemma Forall_set_worker (P : option (future * prog py) -> Prop)
  (ws : list (option (future * prog py))) (i : nat)
  (w : option (future * prog py)) :
  Forall P ws -> P w -> Forall P (set_worker py ws i w).
Proof.
  intros Hws Hw. revert i; induction Hws as [|w0 rest H0 Hrest IH]; intros [|i];
    simpl; constructor; auto.
Qed.

Lemma workers_mono (E E' : gset node_id)
  (ws : list (option (future * prog py))) :
  E ⊆ E' ->
  Forall (fun w => match w with Some (_, p) => quiet E p | None => True end) ws ->
  Forall (fun w => match w with Some (_, p) => quiet E' p | None => True end) ws.
Proof.
  intros Hsub. apply List.Forall_impl. intros [[f p]|]; [|auto].
  intros Hq. eapply quiet_mono; eauto.
Qed.

(** Every move keeps [pool_inv]. *)
Lemma step_inv (c : choice) (st st' : pool py) :
  pool_inv py rt st -> step py rt c st = Some st' -> pool_inv py rt st'.
Proof.
  intros (ns & Hmain & Hnd & Hqueue & Hws). destruct c as [| |i]; simpl.
  - destruct (perform py (sh st) (main st)) as [[s p]|] eqn:Hp; [|discriminate].
    intros [= <-].
    destruct (top_level_step _ _ _ Hmain _ _ _ ltac:(reflexivity) Hp)
      as (He & Hent & pre & ns' & Ht & Hq).
    exists ns'. simpl. rewrite He, Hent. split; [exact Ht|].
    destruct Hq as [[-> ->]|(n & -> & -> & Hc)].
    + split; [|split; assumption].
      rewrite app_assoc in Hnd |- *. now apply nodup_drop_middle in Hnd.
    + split; [|split; [|assumption]].
      * rewrite app_assoc in Hnd. apply nodup_drop_middle in Hnd.
        rewrite map_app. simpl. now rewrite <- !app_assoc in *.
      * apply Forall_app. split; [assumption|]. constructor; [exact Hc|constructor].
  - destruct (work_queue (sh st)) as [|[f n] queue] eqn:Hq; [discriminate|].
    destruct (first_idle py (workers st)) as [i|]; [|discriminate].
    intros [= <-]. exists ns. simpl. inversion Hqueue as [|fn q Hn Hrest]; subst.
    repeat split; auto.
    + simpl in Hnd. now rewrite <- app_assoc.
    + apply Forall_set_worker; [assumption|].
      now apply quiet_execute_node.
  - destruct (nth_error (workers st) i) as [[[f p]|]|] eqn:Hw; try discriminate.
    assert (Hq : quiet (executed (sh st)) p).
    { rewrite List.Forall_forall in Hws.
      apply (Hws (Some (f, p))). eapply nth_error_In; eauto. }
    assert (Hstep : forall s p',
               perform py (sh st) p = Some (s, p') ->
               pool_inv py rt
                 (Pool s (set_worker py (workers st) i (Some (f, p'))) (main st))).
    { intros s p' Hp.
      destruct (quiet_step _ _ _ _ _ Hq ltac:(reflexivity) Hp)
        as (Hq' & Hsub & Hqu & Hent).
      exists ns. simpl. rewrite Hqu, Hent. repeat split.
      - eapply top_level_mono; eauto.
      - assumption.
      - eapply List.Forall_impl; [|exact Hqueue]. intros fn Hfn c' Hc'.
        apply Hsub, Hfn, Hc'.
      - apply Forall_set_worker.
        + eapply workers_mono; eauto.
        + eapply quiet_mono; eauto. }
    destruct p; try (destruct (perform py (sh st) _) as [[s1 p1]|] eqn:Hp;
                     [|discriminate]; intros [= <-]; now apply Hstep).
    intros [= <-]. exists ns. simpl. repeat split; auto.
    apply Forall_set_worker; auto.
Qed.

Lemma run_schedule_inv (schedule : list choice) :
  forall st st' : pool py,
    pool_inv py rt st -> run_schedule py rt schedule st = Some st' ->
    pool_inv py rt st'.
Proof.
  induction schedule as [|c rest IH]; intros st st' Hinv; simpl.
  - now intros [= <-].
  - destruct (step py rt c st) as [st1|] eqn:Hstep; [|discriminate].
    apply IH. eapply step_inv; eauto.
Qed.

Lemma insert_sorted_in (key : node_id -> Q) (n x : node_id) (l : list node_id) :
  In x (insert_sorted key n l) <-> x = n \/ In x l.
Proof.
  induction l as [|m rest IH]; simpl; [intuition congruence|].
  destruct (Qle_bool (key n) (key m)); simpl; [intuition congruence|].
  rewrite IH. intuition congruence.
Qed.

Lemma insert_sorted_nodup (key : node_id -> Q) (n : node_id) (l : list node_id) :
  ~ In n l -> List.NoDup l -> List.NoDup (insert_sorted key n l).
Proof.
  intros Hn Hl. induction Hl as [|m rest Hm Hrest IH]; simpl.
  - constructor; [auto | constructor].
  - destruct (Qle_bool (key n) (key m)).
    + constructor; [exact Hn | now constructor].
    + constructor.
      * rewrite insert_sorted_in. simpl in Hn. intuition congruence.
      * apply IH. simpl in Hn. intuition.
Qed.

Lemma sorted_nodup (key : node_id -> Q) (l : list node_id) :
  List.NoDup l -> List.NoDup (sorted key l).
Proof.
  induction 1 as [|n rest Hn _ IH]; simpl; [constructor|].
  apply insert_sorted_nodup; [|exact IH].
  intros Hin. apply Hn. clear -Hin.
  induction rest as [|m rest IH]; simpl in *; [assumption|].
  apply insert_sorted_in in Hin as [->|Hin]; auto.
Qed.

Lemma insert_sorted_perm (key : node_id -> Q) (n : node_id) (l : list node_id) :
  Permutation (insert_sorted key n l) (n :: l).
Proof.
  induction l as [|m rest IH]; simpl; [reflexivity|].
  destruct (Qle_bool (key n) (key m)); [reflexivity|].
  rewrite IH. apply perm_swap.
Qed.

Lemma sorted_perm (key : node_id -> Q) (l : list node_id) :
  Permutation (sorted key l) l.
Proof.
  induction l as [|n rest IH]; simpl; [reflexivity|].
  rewrite insert_sorted_perm. now rewrite IH.
Qed.

Lemma start_inv (max_workers : nat) :
  List.NoDup (nodes rt) -> pool_inv py rt (start py rt max_workers).
Proof.
  intros Hnodup.
  unfold start, execute. destruct (nodes rt) as [|first rest] eqn:Hn.
  - exists []. simpl. repeat split; try constructor.
    induction max_workers; simpl; constructor; auto.
  - exists (sorted (fun n => distance2 rt n first) (first :: rest)).
    cbn [sh main workers executed entered work_queue map app].
    repeat split.
    + apply top_submit_ready.
    + apply sorted_nodup. exact Hnodup.
    + constructor.
    + induction max_workers; simpl; constructor; auto.
Qed.

End Invariant.

(** X18: on a forest of distinct nodes none of which is an aggregate,
    whatever the number of workers and however the threads move,
    [execute] calls [_execute_node_parallel] at most once for a node. *)
Lemma plain_forest_called_once (py : Python) (rt : runtime)
  (max_workers : nat) (schedule : list choice) (st : pool py) :
  Forall (fun d => d_subnodes d = None) (objects rt) ->
  List.NoDup (nodes rt) ->
  run_schedule py rt schedule (start py rt max_workers) = Some st ->
  List.NoDup (entered (sh st)).
Proof.
  intros Hplain Hnodup Hrun.
  destruct (run_schedule_inv py rt Hplain schedule _ _
              (start_inv py rt Hplain max_workers Hnodup) Hrun)
    as (ns & _ & Hnd & _).
  now apply List.NoDup_app_remove_r in Hnd.
Qed.

Lemma plain_forest_called_once_witness :
  exists st : pool example_python,
    run_schedule example_python child_before_loop worker_first
                 (start example_python child_before_loop 4) = Some st /\
    entered (sh st) = [0; 1] /\
    List.NoDup (entered (sh st)).
Proof.
  eexists. split; [vm_compute; reflexivity|]. split; [reflexivity|].
  apply (plain_forest_called_once example_python child_before_loop 4
           worker_first).
  - repeat constructor.
  - repeat constructor; simpl; intuition discriminate.
  - reflexivity.
Defined.

End RuntimeInvariant.
(* ===================================================================== *)
(** * [execute] on a forest without aggregates: order, progress, completion *)
(* ===================================================================== *)

Module RuntimeOrderFacts.

Import PyStr Parser Runtime RuntimeFacts RuntimeInvariant RuntimeOrder.

Section Order.

Context (py : Python) (rt : runtime) (max_workers : nat).

Hypothesis Hplain : Forall (fun d => d_subnodes d = None) (objects rt).

Local Abbreviation calm := (calm py).
Local Abbreviation will_wait := (will_wait py).
Local Abbreviation supervises := (supervises py).
Local Abbreviation held := (held py).

(** *** The code of a task *)

Lemma calm_mono (E E' : gset node_id) (l l' : list node_id) (p : prog py) :
  calm E l p -> E ⊆ E' -> incl l l' -> calm E' l' p.
Proof. induction 1; intros Hsub Hincl; constructor; auto. Qed.

Lemma calm_dispatch_loop (E : gset node_id) (l : list node_id)
  (conns : list node_id) :
  (forall c, In c conns -> c ∈ E) ->
  forall (futures : list future) (k : list future -> prog py),
    calm E l (k futures) -> calm E l (dispatch_loop py conns futures k).
Proof.
  induction conns as [|c rest IH]; intros Hin futures k Hk; simpl; [exact Hk|].
  constructor; [apply Hin; now left|].
  apply IH; [intros c' Hc'; apply Hin; now right | exact Hk].
Qed.

Lemma calm_run_children (E : gset node_id) (l : list node_id)
  (conns : list node_id) (k : prog py) :
  (forall c, In c conns -> c ∈ E) -> calm E l k ->
  calm E l (run_children py conns k).
Proof. intros Hin Hk. now apply calm_dispatch_loop. Qed.

Lemma calm_loop_body (E : gset node_id) (l : list node_id) (d : node_data)
  (values : iterator (Env py)) :
  (forall c conns, d_connections d = Some conns -> In c conns -> c ∈ E) ->
  calm E l (loop_body py d values).
Proof.
  intros Hin. induction values as [|next rest IH]; simpl; constructor.
  intros g [val| |e]; [|constructor|repeat constructor].
  constructor. destruct (d_connections d) as [conns|] eqn:Hc.
  - apply calm_run_children; [intros c; now apply Hin | apply IH].
  - repeat constructor.
Qed.

Lemma calm_execute_node (E : gset node_id) (l : list node_id) (n : node_id) :
  In n l -> (forall c, In c (connections_of rt n) -> c ∈ E) ->
  calm E l (_execute_node_parallel py rt n).
Proof.
  unfold connections_of, _execute_node_parallel. intros Hn Hin.
  destruct (nth_error (objects rt) n) as [d|] eqn:Hd; [|constructor].
  assert (Hsub : d_subnodes d = None).
  { rewrite List.Forall_forall in Hplain. apply Hplain.
    eapply nth_error_In; eauto. }
  assert (Hconns : forall c conns, d_connections d = Some conns ->
                                   In c conns -> c ∈ E).
  { intros c conns Hc. rewrite Hc in Hin. apply Hin. }
  constructor; [exact Hn|]. destruct (d_type d).
  - unfold execute_tetrahedral. constructor. intros [e|]; repeat constructor.
  - unfold execute_hexagonal.
    destruct (split " in " (d_value d)) as [|a [|b [|c l0]]];
      try (repeat constructor; fail).
    constructor. intros [e|v]; [repeat constructor|].
    destruct (py_iter py v); [repeat constructor|].
    now apply calm_loop_body.
  - unfold execute_pentagonal. constructor. intros [e|v]; [repeat constructor|].
    destruct (py_truthy py v); [|constructor]. constructor.
    destruct (d_connections d) as [conns|] eqn:Hc; [|repeat constructor].
    apply calm_run_children; [intros c; now apply (Hconns c conns)|constructor].
  - unfold execute_fractal. rewrite Hsub. repeat constructor.
Qed.

(** A move of a task: it changes nothing but the output, the globals and
    the [executed] set, to which it adds a node that has been called. *)
Lemma calm_step (E : gset node_id) (l : list node_id) (s s' : shared py)
  (p p' : prog py) :
  calm E l p -> E ⊆ executed s -> perform py s p = Some (s', p') ->
  calm E l p' /\ executed s ⊆ executed s' /\
  (forall x, x ∈ executed s' -> x ∈ executed s \/ In x l) /\
  work_queue s' = work_queue s /\ entered s' = entered s /\
  next_future s' = next_future s /\ finished s' = finished s.
Proof.
  intros Hc Hsub.
  destruct Hc as [|n k Hn Hk|n k Hn Hk|str k Hk|code k Hk|code k Hk|next k Hk];
    simpl; try discriminate.
  - intros [= <- <-]. simpl. repeat split; auto.
    + apply union_subseteq_r.
    + intros x Hx. apply elem_of_union in Hx as [Hx|Hx]; [|now left].
      apply elem_of_singleton in Hx. subst. now right.
  - intros [= <- <-]. rewrite bool_decide_eq_true_2 by (apply Hsub, Hn).
    repeat split; auto.
  - intros [= <- <-]. simpl. repeat split; auto.
  - destruct (py_exec py code (globals s)) as [[g printed] r].
    intros [= <- <-]. simpl. repeat split; auto.
  - destruct (py_eval py code (globals s)) as [[g printed] r].
    intros [= <- <-]. simpl. repeat split; auto.
  - destruct (next (globals s)) as [[g printed] r].
    intros [= <- <-]. simpl. repeat split; auto.
Qed.

(** A task never waits: it can always make its next move. *)
Lemma calm_progress (E : gset node_id) (l : list node_id) (s : shared py)
  (p : prog py) :
  calm E l p -> p <> Return ->
  exists s' p', perform py s p = Some (s', p').
Proof.
  intros Hc Hne. destruct Hc; simpl; try congruence; eauto.
  - destruct (py_exec py code (globals s)) as [[g printed] r]. eauto.
  - destruct (py_eval py code (globals s)) as [[g printed] r]. eauto.
  - destruct (next (globals s)) as [[g printed] r]. eauto.
Qed.

(** *** The code of the main thread *)

Lemma will_wait_wait_all (f : future) (futures : list future) (k : prog py) :
  In f futures -> will_wait f (wait_all py futures k).
Proof.
  induction futures as [|g rest IH]; simpl; [tauto|].
  intros [->|Hin]; [constructor | apply will_wait_later; auto].
Qed.

Lemma will_wait_all_executed (f : future) (conns : list node_id)
  (k : bool -> prog py) :
  (forall b, will_wait f (k b)) -> will_wait f (all_executed py conns k).
Proof.
  intros Hk. induction conns as [|c rest IH]; simpl; [apply Hk|].
  constructor. intros [|]; [exact IH | apply Hk].
Qed.

Lemma will_wait_can_execute (f : future) (node : node_id)
  (k : bool -> prog py) :
  (forall b, will_wait f (k b)) -> will_wait f (_can_execute py rt node k).
Proof.
  intros Hk. unfold _can_execute.
  destruct (nth_error (objects rt) node) as [d|]; [|apply Hk].
  destruct (d_connections d); [|apply Hk].
  now apply will_wait_all_executed.
Qed.

Lemma will_wait_submit_ready (f : future) (ns : list node_id) :
  forall futures : list future,
    In f futures -> will_wait f (submit_ready py rt ns futures).
Proof.
  induction ns as [|node rest IH]; intros futures Hin; simpl.
  - now apply will_wait_wait_all.
  - constructor. intros [|]; [now apply IH|].
    apply will_wait_can_execute. intros [|]; [|now apply IH].
    constructor. intros g. apply IH. apply in_or_app. now left.
Qed.

Lemma supervises_wait_all (N : list node_id) (nf : future)
  (futures : list future) :
  (forall f, In f futures -> f < nf) ->
  supervises N nf (wait_all py futures Return).
Proof.
  induction futures as [|g rest IH]; intros Hlt; simpl; constructor.
  - apply Hlt. now left.
  - apply IH. intros f Hf. apply Hlt. now right.
Qed.

Lemma supervises_all_executed (N : list node_id) (nf : future)
  (conns : list node_id) (k : bool -> prog py) :
  (forall b, supervises N nf (k b)) ->
  supervises N nf (all_executed py conns k).
Proof.
  intros Hk. induction conns as [|c rest IH]; simpl; [apply Hk|].
  constructor. intros [|]; [exact IH | apply Hk].
Qed.

Lemma supervises_can_execute (N : list node_id) (nf : future)
  (node : node_id) (k : bool -> prog py) :
  (forall b, supervises N nf (k b)) ->
  supervises N nf (_can_execute py rt node k).
Proof.
  intros Hk. unfold _can_execute.
  destruct (nth_error (objects rt) node) as [d|]; [|apply Hk].
  destruct (d_connections d); [|apply Hk].
  now apply supervises_all_executed.
Qed.

Lemma supervises_submit_ready (N : list node_id) (ns : list node_id) :
  incl ns N ->
  forall (nf : future) (futures : list future),
    (forall f, In f futures -> f < nf) ->
    supervises N nf (submit_ready py rt ns futures).
Proof.
  induction ns as [|node rest IH]; intros Hincl nf futures Hlt; simpl.
  - now apply supervises_wait_all.
  - assert (Hrest : incl rest N) by (intros x Hx; apply Hincl; now right).
    constructor. intros [|]; [now apply IH|].
    apply supervises_can_execute. intros [|]; [|now apply IH].
    constructor.
    + apply Hincl. now left.
    + apply will_wait_submit_ready. apply in_or_app. right. now left.
    + apply IH; [exact Hrest|]. intros f Hf.
      apply in_app_or in Hf as [Hf|[<-|[]]]; [|lia].
      specialize (Hlt f Hf). lia.
Qed.

(** A move of the main thread: it looks up a node, ends a wait for a task
    that is finished, or submits a node of [N] under the next handle, for
    which it will wait. *)
Lemma supervises_step (N : list node_id) (s s' : shared py) (p p' : prog py) :
  supervises N (next_future s) p -> perform py s p = Some (s', p') ->
  executed s' = executed s /\ entered s' = entered s /\
  finished s' = finished s /\
  supervises N (next_future s') p' /\
  (forall f, will_wait f p -> will_wait f p' \/ f ∈ finished s) /\
  ((work_queue s' = work_queue s /\ next_future s' = next_future s) \/
   (exists n : node_id,
       In n N /\ work_queue s' = work_queue s ++ [(next_future s, n)] /\
       next_future s' = S (next_future s) /\
       will_wait (next_future s) p')).
Proof.
  intros Hs. inversion Hs as [|f k Hf Hk|n k Hk|n k Hn Hw Hk]; subst; simpl.
  - intros Hd; discriminate Hd.
  - destruct (bool_decide _) eqn:Hb; [|intros Hd; discriminate Hd].
    apply bool_decide_eq_true in Hb.
    intros [= <- <-]. repeat split; auto.
    intros g Hg. inversion Hg; subst; auto.
  - intros [= <- <-]. repeat split; auto.
    intros g Hg. inversion Hg; subst; auto.
  - intros [= <- <-]. simpl. repeat split; auto.
    + intros g Hg. inversion Hg; subst; auto.
    + right. exists n. auto.
Qed.

(** The main thread can move unless it has returned or waits for a task
    that is not finished. *)
Lemma supervises_progress (N : list node_id) (nf : future) (s : shared py)
  (p : prog py) :
  supervises N nf p ->
  p = Return \/
  (exists s' p', perform py s p = Some (s', p')) \/
  (exists f k, p = Result f k /\ f < nf /\ f ∉ finished s).
Proof.
  intros Hs. destruct Hs as [|f k Hf Hk|n k Hk|n k Hn Hw Hk]; simpl.
  - now left.
  - destruct (bool_decide _) eqn:Hb.
    + right. left. eauto.
    + right. right. exists f, k. apply bool_decide_eq_false in Hb. auto.
  - right. left. eauto.
  - right. left. eauto.
Qed.

(** *** The handles that the workers hold *)

Lemma length_set_worker (ws : list (option (future * prog py))) (i : nat)
  (w : option (future * prog py)) :
  List.length (set_worker py ws i w) = List.length ws.
Proof.
  revert i; induction ws as [|w0 rest IH]; intros [|i]; simpl; auto.
Qed.

Lemma first_idle_nth (ws : list (option (future * prog py))) (i : nat) :
  first_idle py ws = Some i -> nth_error ws i = Some None.
Proof.
  revert i; induction ws as [|w rest IH]; intros i; simpl; [discriminate|].
  destruct w as [w|].
  - destruct (first_idle py rest) as [j|]; [|discriminate].
    intros [= <-]. simpl. now apply IH.
  - intros [= <-]. reflexivity.
Qed.

Lemma held_set_worker (ws : list (option (future * prog py))) (i : nat)
  (w w' : option (future * prog py)) :
  nth_error ws i = Some w ->
  exists a b : list future,
    held ws = a ++ held [w] ++ b /\
    held (set_worker py ws i w') = a ++ held [w'] ++ b.
Proof.
  revert i; induction ws as [|w0 rest IH]; intros [|i]; simpl;
    try discriminate.
  - intros [= ->]. exists [], (held rest). unfold RuntimeOrder.held. simpl.
    now rewrite !app_nil_r.
  - intros Hi. destruct (IH i Hi) as (a & b & Ha & Hb).
    exists (held [w0] ++ a), b. unfold RuntimeOrder.held in *. simpl in *.
    rewrite !app_nil_r in *. rewrite Ha, Hb. now rewrite <- !app_assoc.
Qed.

Lemma held_in (ws : list (option (future * prog py))) (f : future) :
  In f (held ws) <->
  exists (i : nat) (p : prog py), nth_error ws i = Some (Some (f, p)).
Proof.
  unfold RuntimeOrder.held. rewrite List.in_flat_map. split.
  - intros (w & Hw & Hf). destruct w as [[g p]|]; [|destruct Hf].
    destruct Hf as [<-|[]]. apply In_nth_error in Hw as (i & Hi). eauto.
  - intros (i & p & Hi). exists (Some (f, p)). split; [|now left].
    eapply nth_error_In; eauto.
Qed.

(** *** Every move keeps [order_inv] *)

Lemma nodup_insert (a b : list future) (f : future) :
  List.NoDup (a ++ b) -> ~ In f (a ++ b) -> List.NoDup (a ++ f :: b).
Proof.
  induction a as [|x a IH]; simpl; intros Hnd Hf.
  - now constructor.
  - inversion Hnd as [|? ? Hx Hrest]; subst. constructor.
    + rewrite in_app_iff in *. simpl. intuition congruence.
    + apply IH; [exact Hrest|]. intuition.
Qed.

Lemma prerequisites_snoc (l : list node_id) (n : node_id) :
  prerequisites_first rt l ->
  (forall c, In c (connections_of rt n) -> In c l) ->
  prerequisites_first rt (l ++ [n]).
Proof.
  intros Hpre Hn pre post m Heq c Hc.
  destruct (List.exists_last (l := m :: post)) as (post' & z & Hlast);
    [discriminate|].
  rewrite Hlast, app_assoc in Heq. apply app_inj_tail in Heq as [Hl Hz].
  destruct post as [|y post].
  - destruct post' as [|? [|? ?]]; try discriminate.
    injection Hlast as ->. rewrite app_nil_r in Hl. subst. now apply Hn.
  - assert (Hp : exists post0, post' = m :: post0).
    { destruct post' as [|x post0]; [destruct post; discriminate|].
      injection Hlast as -> _. eauto. }
    destruct Hp as (post0 & ->).
    apply (Hpre pre post0 m); [exact Hl | exact Hc].
Qed.

Ltac conjuncts := repeat match goal with |- _ /\ _ => split end.

Ltac open_inv H :=
  destruct H as (Hpool & Hlen & Hexe & Hincl & Hcalm & Hpre & Hsup & Hq & Hnf
                 & Hnd & Hheld & Hfin & Hstarted & Hwait).

Lemma order_step_main (st st' : pool py) :
  order_inv py rt max_workers st -> step py rt Main st = Some st' ->
  order_inv py rt max_workers st'.
Proof.
  intros Hinv Hstep.
  pose proof Hinv as Hinv0. open_inv Hinv0.
  assert (Hpool' := step_inv py rt Hplain Main st st' Hpool Hstep).
  simpl in Hstep.
  destruct (perform py (sh st) (main st)) as [[s p]|] eqn:Hp; [|discriminate].
  injection Hstep as <-.
  destruct (supervises_step _ _ _ _ _ Hsup Hp)
    as (He & Hent & Hf & Hsup' & Hww & Hqueue).
  unfold order_inv. cbn [sh workers main].
  rewrite He, Hent, Hf.
  split; [exact Hpool'|]. split; [exact Hlen|]. split; [exact Hexe|].
  destruct Hqueue as [[Hsame Hnext]|(n & Hn & Hadd & Hnext & Hnew)].
  - rewrite Hnext in Hsup'. rewrite Hsame, Hnext. conjuncts; auto.
    intros f Hlt. destruct (Hwait f Hlt) as [|Hw]; [now left|].
    destruct (Hww f Hw); auto.
  - rewrite Hnext in Hsup'.
    rewrite Hadd, Hnext, !map_app, length_app. simpl.
    conjuncts; auto.
    + intros x Hx. rewrite app_assoc in Hx.
      apply in_app_or in Hx as [Hx|[<-|[]]]; [now apply Hincl | exact Hn].
    + rewrite Hq, Hnf. replace (List.length (work_queue (sh st)) + 1)
        with (S (List.length (work_queue (sh st)))) by lia.
      now rewrite seq_S.
    + lia.
    + intros f Hlt.
      destruct (Nat.eq_dec f (next_future (sh st))) as [->|Hne];
        [now right|].
      destruct (Hwait f ltac:(lia)) as [|Hw]; [now left|].
      destruct (Hww f Hw); auto.
Qed.

Lemma calm_workers_mono (E E' : gset node_id) (l l' : list node_id)
  (ws : list (option (future * prog py))) :
  E ⊆ E' -> incl l l' ->
  Forall (fun w => match w with Some (_, p) => calm E l p | None => True end) ws ->
  Forall (fun w => match w with Some (_, p) => calm E' l' p | None => True end) ws.
Proof.
  intros Hsub Hincl. apply List.Forall_impl. intros [[f p]|]; [|auto].
  intros Hc. eapply calm_mono; eauto.
Qed.

Lemma order_step_start (st st' : pool py) :
  order_inv py rt max_workers st -> step py rt Start st = Some st' ->
  order_inv py rt max_workers st'.
Proof.
  intros Hinv Hstep.
  pose proof Hinv as Hinv0. open_inv Hinv0.
  assert (Hpool' := step_inv py rt Hplain Start st st' Hpool Hstep).
  simpl in Hstep.
  destruct (work_queue (sh st)) as [|[f n] queue] eqn:Hqueue; [discriminate|].
  destruct (first_idle py (workers st)) as [i|] eqn:Hidle; [|discriminate].
  injection Hstep as <-.
  apply first_idle_nth in Hidle.
  destruct (held_set_worker (workers st) i None
              (Some (f, _execute_node_parallel py rt n)) Hidle)
    as (a & b & Ha & Hb).
  unfold RuntimeOrder.held at 2 in Ha. unfold RuntimeOrder.held at 2 in Hb.
  simpl in Ha, Hb.
  simpl in Hq. injection Hq as Hf Hq. subst f.
  assert (Hconn : forall c, In c (connections_of rt n) ->
                            c ∈ executed (sh st)).
  { destruct Hpool as (ns & _ & _ & Hqu & _). rewrite Hqueue in Hqu.
    inversion Hqu as [|? ? Hn _]; subst. exact Hn. }
  assert (Hnew : ~ In (List.length (entered (sh st))) (a ++ b)).
  { rewrite <- Ha. intros Hin. apply Hheld in Hin as [Hlt _]. lia. }
  unfold order_inv. cbn [sh workers main executed entered work_queue
                          next_future finished].
  rewrite length_app. simpl List.length.
  rewrite Hb.
  conjuncts; auto.
  - now rewrite length_set_worker.
  - intros x Hx. apply in_or_app. left. now apply Hexe.
  - intros x Hx. apply Hincl. simpl.
    rewrite <- app_assoc in Hx. exact Hx.
  - apply Forall_set_worker.
    + eapply calm_workers_mono; [reflexivity| |exact Hcalm].
      intros x Hx. apply in_or_app. now left.
    + apply calm_execute_node; [apply in_or_app; right; now left|exact Hconn].
  - apply prerequisites_snoc; [exact Hpre|].
    intros c Hc. apply Hexe, Hconn, Hc.
  - rewrite Hq. f_equal. lia.
  - simpl in Hnf. lia.
  - apply nodup_insert; [now rewrite <- Ha | exact Hnew].
  - intros g Hg. apply in_app_or in Hg as [Hg|[<-|Hg]].
    + destruct (Hheld g) as [Hlt Hnf']; [rewrite Ha; apply in_or_app; now left|].
      split; [lia | exact Hnf'].
    + split; [lia|]. intros Hin. apply Hfin in Hin. lia.
    + destruct (Hheld g) as [Hlt Hnf']; [rewrite Ha; apply in_or_app; now right|].
      split; [lia | exact Hnf'].
  - intros g Hg. apply Hfin in Hg. lia.
  - intros g Hlt.
    destruct (Nat.eq_dec g (List.length (entered (sh st)))) as [->|Hne].
    + right. apply in_or_app. right. now left.
    + destruct (Hstarted g ltac:(lia)) as [|Hin]; [now left|].
      right. rewrite Ha in Hin. apply in_app_or in Hin as [Hin|Hin];
        apply in_or_app; [now left | right; now right].
Qed.

Lemma order_step_finish (st : pool py) (i : nat) (f : future) :
  order_inv py rt max_workers st ->
  nth_error (workers st) i = Some (Some (f, Return)) ->
  pool_inv py rt
    (Pool (Shared (executed (sh st)) (output (sh st)) (globals (sh st))
                  (work_queue (sh st)) (next_future (sh st))
                  ({[f]} ∪ finished (sh st)) (entered (sh st)))
          (set_worker py (workers st) i None) (main st)) ->
  order_inv py rt max_workers
    (Pool (Shared (executed (sh st)) (output (sh st)) (globals (sh st))
                  (work_queue (sh st)) (next_future (sh st))
                  ({[f]} ∪ finished (sh st)) (entered (sh st)))
          (set_worker py (workers st) i None) (main st)).
Proof.
  intros Hinv Hw Hpool'. open_inv Hinv.
  destruct (held_set_worker (workers st) i _ None Hw) as (a & b & Ha & Hb).
  unfold RuntimeOrder.held at 2 in Ha. unfold RuntimeOrder.held at 2 in Hb.
  simpl in Ha, Hb.
  assert (Hnd' : List.NoDup (a ++ b) /\ ~ In f (a ++ b)).
  { rewrite Ha in Hnd. split; [eapply List.NoDup_remove_1; eauto|].
    now apply List.NoDup_remove_2 in Hnd. }
  destruct Hnd' as [Hnd' Hfresh].
  assert (Hf : f < List.length (entered (sh st)) /\ f ∉ finished (sh st)).
  { apply Hheld. rewrite Ha. apply in_or_app. right. now left. }
  unfold order_inv. cbn [sh workers main executed entered work_queue
                          next_future finished].
  rewrite Hb.
  conjuncts; auto.
  - now rewrite length_set_worker.
  - apply Forall_set_worker; [exact Hcalm | exact I].
  - intros g Hg.
    destruct (Hheld g) as [Hlt Hnot].
    { rewrite Ha. apply in_app_or in Hg as [Hg|Hg]; apply in_or_app;
        [now left | right; now right]. }
    split; [exact Hlt|]. intros Hin.
    apply elem_of_union in Hin as [Hin|Hin]; [|now apply Hnot].
    apply elem_of_singleton in Hin. subst. now apply Hfresh.
  - intros g Hg. apply elem_of_union in Hg as [Hg|Hg]; [|now apply Hfin].
    apply elem_of_singleton in Hg. subst. apply Hf.
  - intros g Hlt. destruct (Hstarted g Hlt) as [Hin|Hin].
    + left. apply elem_of_union. now right.
    + rewrite Ha in Hin. apply in_app_or in Hin as [Hin|[<-|Hin]].
      * right. apply in_or_app. now left.
      * left. apply elem_of_union. left. now apply elem_of_singleton.
      * right. apply in_or_app. now right.
  - intros g Hlt. destruct (Hwait g Hlt) as [Hin|Hw']; [|now right].
    left. apply elem_of_union. now right.
Qed.

Lemma order_step_task (st : pool py) (i : nat) (f : future)
  (p p' : prog py) (s : shared py) :
  order_inv py rt max_workers st ->
  nth_error (workers st) i = Some (Some (f, p)) ->
  perform py (sh st) p = Some (s, p') ->
  pool_inv py rt (Pool s (set_worker py (workers st) i (Some (f, p')))
                       (main st)) ->
  order_inv py rt max_workers
    (Pool s (set_worker py (workers st) i (Some (f, p'))) (main st)).
Proof.
  intros Hinv Hw Hp Hpool'. open_inv Hinv.
  assert (Hc : calm (executed (sh st)) (entered (sh st)) p).
  { rewrite List.Forall_forall in Hcalm.
    apply (Hcalm (Some (f, p))). eapply nth_error_In; eauto. }
  destruct (calm_step _ _ _ _ _ _ Hc ltac:(reflexivity) Hp)
    as (Hc' & Hsub & Hadd & Hqu & Hent & Hnext & Hf).
  destruct (held_set_worker (workers st) i _ (Some (f, p')) Hw)
    as (a & b & Ha & Hb).
  unfold RuntimeOrder.held at 2 in Ha. unfold RuntimeOrder.held at 2 in Hb.
  simpl in Ha, Hb. rewrite <- Ha in Hb.
  unfold order_inv. cbn [sh workers main].
  rewrite Hqu, Hent, Hnext, Hf, Hb.
  conjuncts; auto.
  - now rewrite length_set_worker.
  - intros x Hx. destruct (Hadd x Hx); auto.
  - apply Forall_set_worker.
    + eapply calm_workers_mono; [exact Hsub| |exact Hcalm].
      intros x Hx. exact Hx.
    + eapply calm_mono; [exact Hc' | exact Hsub | intros x Hx; exact Hx].
Qed.

(** Every move keeps [order_inv]. *)
Lemma order_step (c : choice) (st st' : pool py) :
  order_inv py rt max_workers st -> step py rt c st = Some st' ->
  order_inv py rt max_workers st'.
Proof.
  intros Hinv Hstep. destruct c as [| |i].
  - eapply order_step_main; eauto.
  - eapply order_step_start; eauto.
  - assert (Hpool' : pool_inv py rt st').
    { destruct Hinv as (Hpool & _). eapply step_inv; eauto. }
    simpl in Hstep.
    destruct (nth_error (workers st) i) as [[[f p]|]|] eqn:Hw;
      try discriminate.
    destruct p;
      try (destruct (perform py (sh st) _) as [[s1 p1]|] eqn:Hp;
           [|discriminate]; injection Hstep as <-;
           eapply order_step_task; eauto).
    injection Hstep as <-. now apply order_step_finish.
Qed.

Lemma order_run (schedule : list choice) :
  forall st st' : pool py,
    order_inv py rt max_workers st ->
    run_schedule py rt schedule st = Some st' ->
    order_inv py rt max_workers st'.
Proof.
  induction schedule as [|c rest IH]; intros st st' Hinv; simpl.
  - now intros [= <-].
  - destruct (step py rt c st) as [st1|] eqn:Hstep; [|discriminate].
    apply IH. eapply order_step; eauto.
Qed.

Lemma sorted_incl (key : node_id -> Q) (l : list node_id) :
  incl (sorted key l) l.
Proof.
  induction l as [|n rest IH]; simpl; [intros x []|].
  intros x Hx. apply RuntimeInvariant.insert_sorted_in in Hx as [->|Hx];
    [now left | right; now apply IH].
Qed.

Lemma order_start :
  List.NoDup (nodes rt) -> order_inv py rt max_workers (start py rt max_workers).
Proof.
  intros Hnodup. unfold order_inv, start.
  cbn [sh workers main executed entered work_queue next_future finished].
  assert (Hheld : held (repeat None max_workers) = []).
  { unfold RuntimeOrder.held. induction max_workers; simpl; auto. }
  rewrite Hheld. simpl.
  conjuncts; auto.
  - now apply start_inv.
  - apply repeat_length.
  - intros x Hx. now apply elem_of_empty in Hx.
  - intros x [].
  - clear. induction max_workers; simpl; constructor; auto.
  - intros pre post n Heq. destruct pre; discriminate.
  - unfold execute. destruct (nodes rt) as [|first rest]; [constructor|].
    apply supervises_submit_ready; [apply sorted_incl|]. intros f [].
  - constructor.
  - intros f [].
  - intros f Hf. now apply elem_of_empty in Hf.
  - intros f Hf. lia.
  - intros f Hf. lia.
Qed.

(** *** No thread is left waiting *)

Lemma worker_can_step (st : pool py) (i : nat) (f : future) (p : prog py)
  (E : gset node_id) (l : list node_id) :
  nth_error (workers st) i = Some (Some (f, p)) -> calm E l p ->
  exists st', step py rt (Worker i) st = Some st'.
Proof.
  intros Hw Hc. simpl. rewrite Hw.
  destruct Hc; simpl; eauto.
  - destruct (py_exec py code (globals (sh st))) as [[g printed] r]. eauto.
  - destruct (py_eval py code (globals (sh st))) as [[g printed] r]. eauto.
  - destruct (next (globals (sh st))) as [[g printed] r]. eauto.
Qed.

Lemma first_idle_none (ws : list (option (future * prog py))) :
  first_idle py ws = None -> Forall (fun w => w <> None) ws.
Proof.
  induction ws as [|w rest IH]; simpl; [constructor|].
  destruct w as [w|]; [|discriminate].
  destruct (first_idle py rest); [discriminate|].
  intros _. constructor; [discriminate | now apply IH].
Qed.

Lemma order_progress (st : pool py) :
  order_inv py rt max_workers st -> 0 < max_workers ->
  returned py st = false ->
  exists c st', step py rt c st = Some st'.
Proof.
  intros Hinv Hmax Hret. open_inv Hinv.
  assert (Hworker : forall i f p,
             nth_error (workers st) i = Some (Some (f, p)) ->
             exists st', step py rt (Worker i) st = Some st').
  { intros i f p Hw. eapply worker_can_step; [exact Hw|].
    rewrite List.Forall_forall in Hcalm.
    apply (Hcalm (Some (f, p))). eapply nth_error_In; eauto. }
  destruct (supervises_progress _ _ (sh st) _ Hsup)
    as [Hmain|[(s' & p' & Hp)|(f & k & Hmain & Hlt & Hnot)]].
  - unfold returned in Hret. rewrite Hmain in Hret. discriminate.
  - exists Main. simpl. rewrite Hp. eauto.
  - destruct (Nat.lt_ge_cases f (List.length (entered (sh st)))) as [Hlo|Hlo].
    + destruct (Hstarted f Hlo) as [Hin|Hin]; [contradiction|].
      apply held_in in Hin as (i & p & Hw).
      destruct (Hworker i f p Hw) as (st' & Hst). eauto.
    + destruct (work_queue (sh st)) as [|[g n] queue] eqn:Hqueue;
        [simpl in Hnf; lia|].
      destruct (first_idle py (workers st)) as [i|] eqn:Hidle.
      * exists Start. simpl. rewrite Hqueue, Hidle. eauto.
      * apply first_idle_none in Hidle.
        destruct (workers st) as [|w ws] eqn:Hws; [simpl in Hlen; lia|].
        inversion Hidle as [|? ? Hw0 _]; subst.
        destruct w as [[f0 p0]|]; [|congruence].
        destruct (Hworker 0 f0 p0) as (st' & Hst); [reflexivity|]. eauto.
Qed.

Lemma held_nil (ws : list (option (future * prog py))) :
  held ws = [] -> Forall (fun w => w = None) ws.
Proof.
  unfold RuntimeOrder.held.
  induction ws as [|w rest IH]; simpl; [constructor|].
  destruct w as [[f p]|]; simpl; [discriminate|].
  intros H. constructor; auto.
Qed.

Lemma order_returned (st : pool py) :
  order_inv py rt max_workers st -> returned py st = true ->
  work_queue (sh st) = [] /\
  Forall (fun w => w = None) (workers st) /\
  next_future (sh st) = List.length (entered (sh st)) /\
  (forall f, f < List.length (entered (sh st)) -> f ∈ finished (sh st)).
Proof.
  intros Hinv Hret. open_inv Hinv.
  assert (Hmain : main st = Return).
  { unfold returned in Hret. destruct (main st); congruence. }
  assert (Hall : forall f, f < next_future (sh st) -> f ∈ finished (sh st)).
  { intros f Hlt. destruct (Hwait f Hlt) as [|Hw]; [assumption|].
    rewrite Hmain in Hw. inversion Hw. }
  assert (Hqueue : work_queue (sh st) = []).
  { destruct (work_queue (sh st)) as [|[g n] queue]; [reflexivity|].
    simpl in Hnf. specialize (Hall (List.length (entered (sh st))) ltac:(lia)).
    apply Hfin in Hall. lia. }
  rewrite Hqueue in Hnf. simpl in Hnf.
  conjuncts; auto.
  - apply held_nil. destruct (held (workers st)) as [|f fs] eqn:Hh;
      [reflexivity|].
    destruct (Hheld f) as [Hlt Hnot]; [now left|].
    exfalso. apply Hnot, Hall. lia.
  - lia.
  - intros f Hlt. apply Hall. lia.
Qed.

(** *** The run can always be brought to its end *)

Lemma run_schedule_app (s1 s2 : list choice) (st : pool py) :
  run_schedule py rt (s1 ++ s2) st
  = match run_schedule py rt s1 st with
    | Some st' => run_schedule py rt s2 st'
    | None => None
    end.
Proof.
  revert st; induction s1 as [|c s1 IH]; intros st; simpl; [reflexivity|].
  destruct (step py rt c st); [apply IH | reflexivity].
Qed.

(** What a stretch of the run that leaves the main thread alone keeps. *)
Local Abbreviation aside st st' :=
  (order_inv py rt max_workers st' /\ main st' = main st /\
   next_future (sh st') = next_future (sh st) /\
   (forall g, g ∈ finished (sh st) -> g ∈ finished (sh st'))).

(** What is asked of a stretch of the run that ends the task of worker
    [i]. *)
Local Abbreviation finishes i f st st' :=
  (aside st st' /\ f ∈ finished (sh st') /\
   work_queue (sh st') = work_queue (sh st) /\
   nth_error (workers st') i = Some None).

Lemma finish_task_step (i : nat) (f : future) (p k : prog py)
  (st : pool py) (s : shared py) :
  order_inv py rt max_workers st ->
  nth_error (workers st) i = Some (Some (f, p)) ->
  step py rt (Worker i) st
  = Some (Pool s (set_worker py (workers st) i (Some (f, k))) (main st)) ->
  next_future s = next_future (sh st) ->
  finished s = finished (sh st) ->
  work_queue s = work_queue (sh st) ->
  (forall st1 : pool py,
      order_inv py rt max_workers st1 ->
      nth_error (workers st1) i = Some (Some (f, k)) ->
      exists (schedule : list choice) (st' : pool py),
        run_schedule py rt schedule st1 = Some st' /\ finishes i f st1 st') ->
  exists (schedule : list choice) (st' : pool py),
    run_schedule py rt schedule st = Some st' /\ finishes i f st st'.
Proof.
  intros Hinv Hw Hstep Hn Hf Hq IH.
  pose proof (order_step _ _ _ Hinv Hstep) as Hinv1.
  destruct (IH _ Hinv1) as (schedule & st' & Hrun & (Hi & Hm & Hnf & Hfin)
                            & Hdone & Hqueue & Hidle).
  { simpl. eapply set_worker_nth; eauto. }
  exists (Worker i :: schedule), st'. cbn [run_schedule]. rewrite Hstep.
  simpl in Hm, Hnf, Hfin, Hqueue.
  conjuncts; auto; try congruence.
  intros g Hg. apply Hfin. now rewrite Hf.
Qed.

Lemma finish_task (i : nat) (f : future) (p : prog py) :
  forall st : pool py,
    order_inv py rt max_workers st ->
    nth_error (workers st) i = Some (Some (f, p)) ->
    exists (schedule : list choice) (st' : pool py),
      run_schedule py rt schedule st = Some st' /\ finishes i f st st'.
Proof.
  induction p as [|n k IH|n k IH|str k IH|code k IH|code k IH|next k IH|n k IH
                 |g k IH];
    intros st Hinv Hw.
  - (* the task is over *)
    assert (Hstep : step py rt (Worker i) st
                    = Some (Pool (Shared (executed (sh st)) (output (sh st))
                                         (globals (sh st)) (work_queue (sh st))
                                         (next_future (sh st))
                                         ({[f]} ∪ finished (sh st))
                                         (entered (sh st)))
                                 (set_worker py (workers st) i None)
                                 (main st))).
    { simpl. now rewrite Hw. }
    eexists [Worker i], _. cbn [run_schedule]. rewrite Hstep.
    split; [reflexivity|]. cbn [sh main workers finished next_future work_queue].
    conjuncts; auto.
    + eapply order_step; eauto.
    + intros g Hg. apply elem_of_union. now right.
    + apply elem_of_union. left. now apply elem_of_singleton.
    + eapply set_worker_nth; eauto.
  - eapply (finish_task_step i f _ k st);
      [exact Hinv | exact Hw | simpl; now rewrite Hw | reflexivity..| exact IH].
  - eapply (finish_task_step i f _ (k (bool_decide (n ∈ executed (sh st)))) st);
      [exact Hinv | exact Hw | simpl; now rewrite Hw | reflexivity..| apply IH].
  - eapply (finish_task_step i f _ k st);
      [exact Hinv | exact Hw | simpl; now rewrite Hw | reflexivity..| exact IH].
  - destruct (py_exec py code (globals (sh st))) as [[g0 printed] r] eqn:He.
    eapply (finish_task_step i f _ (k r) st);
      [exact Hinv | exact Hw | simpl; rewrite Hw; simpl; now rewrite He
      | reflexivity..| apply IH].
  - destruct (py_eval py code (globals (sh st))) as [[g0 printed] r] eqn:He.
    eapply (finish_task_step i f _ (k r) st);
      [exact Hinv | exact Hw | simpl; rewrite Hw; simpl; now rewrite He
      | reflexivity..| apply IH].
  - destruct (next (globals (sh st))) as [[g0 printed] r] eqn:He.
    eapply (finish_task_step i f _ (k (globals (sh st)) r) st);
      [exact Hinv | exact Hw | simpl; rewrite Hw; simpl; now rewrite He
      | reflexivity..| apply IH].
  - (* a task submits nothing *)
    exfalso. destruct Hinv as (_ & _ & _ & _ & Hcalm & _).
    rewrite List.Forall_forall in Hcalm.
    specialize (Hcalm (Some (f, Submit n k)) ltac:(eapply nth_error_In; eauto)).
    inversion Hcalm.
  - exfalso. destruct Hinv as (_ & _ & _ & _ & Hcalm & _).
    rewrite List.Forall_forall in Hcalm.
    specialize (Hcalm (Some (f, Result g k)) ltac:(eapply nth_error_In; eauto)).
    inversion Hcalm.
Qed.

Lemma idle_first (ws : list (option (future * prog py))) (i : nat) :
  nth_error ws i = Some None -> exists j, first_idle py ws = Some j.
Proof.
  revert i; induction ws as [|w rest IH]; intros [|i]; simpl;
    try discriminate.
  - intros [= ->]. eauto.
  - intros Hi. destruct w as [w|]; [|eauto].
    destruct (IH i Hi) as (j & ->). simpl. eauto.
Qed.

(** The task at the head of the queue can be started and brought to its
    end. *)
Lemma start_next (st : pool py) (g : future) (n : node_id)
  (queue : list (future * node_id)) :
  order_inv py rt max_workers st -> 0 < max_workers ->
  work_queue (sh st) = (g, n) :: queue ->
  exists (schedule : list choice) (st' : pool py),
    run_schedule py rt schedule st = Some st' /\ aside st st' /\
    g ∈ finished (sh st') /\ work_queue (sh st') = queue.
Proof.
  intros Hinv Hmax Hqueue.
  (* a worker is made idle *)
  assert (Hidle : exists (sA : list choice) (st0 : pool py) (j : nat),
             run_schedule py rt sA st = Some st0 /\ aside st st0 /\
             work_queue (sh st0) = work_queue (sh st) /\
             first_idle py (workers st0) = Some j).
  { destruct (first_idle py (workers st)) as [j|] eqn:Hfirst.
    - exists [], st, j. simpl. conjuncts; auto.
    - apply first_idle_none in Hfirst.
      assert (Hlen : List.length (workers st) = max_workers)
        by (destruct Hinv as (_ & Hl & _); exact Hl).
      destruct (workers st) as [|w ws] eqn:Hws; [simpl in Hlen; lia|].
      apply List.Forall_inv in Hfirst.
      destruct w as [[f0 p0]|]; [|congruence].
      destruct (finish_task 0 f0 p0 st Hinv) as (sA & st0 & Hrun & Ha & _ & Hq & Hi);
        [now rewrite Hws|].
      destruct (idle_first _ _ Hi) as (j & Hj).
      exists sA, st0, j. auto. }
  destruct Hidle as (sA & st0 & j & HrunA & (Hinv0 & Hm0 & Hn0 & Hf0) & Hq0 & Hj).
  (* it takes the task *)
  rewrite Hqueue in Hq0.
  assert (Hstart : step py rt Start st0
                   = Some (Pool (Shared (executed (sh st0)) (output (sh st0))
                                        (globals (sh st0)) queue
                                        (next_future (sh st0))
                                        (finished (sh st0))
                                        (entered (sh st0) ++ [n]))
                                (set_worker py (workers st0) j
                                   (Some (g, _execute_node_parallel py rt n)))
                                (main st0))).
  { simpl. now rewrite Hq0, Hj. }
  pose proof (order_step _ _ _ Hinv0 Hstart) as Hinv1.
  (* and runs it to its end *)
  destruct (finish_task j g (_execute_node_parallel py rt n) _ Hinv1)
    as (sC & st2 & HrunC
                                           & (Hinv2 & Hm2 & Hn2 & Hf2)
                                           & Hdone & Hq2 & _).
  { simpl. eapply set_worker_nth. apply first_idle_nth. exact Hj. }
  exists (sA ++ Start :: sC), st2.
  rewrite run_schedule_app, HrunA. cbn [run_schedule]. rewrite Hstart.
  simpl in Hm2, Hn2, Hf2, Hq2.
  conjuncts; auto; try congruence.
Qed.

(** Every task that has been submitted can be brought to its end. *)
Lemma finish_future (f : future) (d : nat) :
  forall st : pool py,
    order_inv py rt max_workers st -> 0 < max_workers ->
    f < next_future (sh st) ->
    f + 1 - List.length (entered (sh st)) <= d ->
    exists (schedule : list choice) (st' : pool py),
      run_schedule py rt schedule st = Some st' /\ aside st st' /\
      f ∈ finished (sh st').
Proof.
  induction d as [|d IH]; intros st Hinv Hmax Hlt Hd.
  - pose proof Hinv as Hinv0. open_inv Hinv0.
    destruct (Hstarted f ltac:(lia)) as [Hfin0|Hin].
    + exists [], st. simpl. conjuncts; auto.
    + apply held_in in Hin as (i & p & Hw).
      destruct (finish_task i f p st Hinv Hw) as (s1 & st' & Hrun & Ha & Hdone & _).
      exists s1, st'. auto.
  - destruct (Nat.lt_ge_cases f (List.length (entered (sh st)))) as [Hlo|Hlo].
    + apply IH; auto. lia.
    + pose proof Hinv as Hinv0. open_inv Hinv0.
      destruct (work_queue (sh st)) as [|[g n] queue] eqn:Hqueue;
        [simpl in Hnf; lia|].
      destruct (start_next st g n queue Hinv Hmax Hqueue)
        as (s1 & st1 & Hrun1 & (Hinv1 & Hm1 & Hn1 & Hf1) & _ & Hq1).
      assert (Hlen1 : List.length (entered (sh st1))
                      = S (List.length (entered (sh st)))).
      { destruct Hinv1 as (_ & _ & _ & _ & _ & _ & _ & _ & Hnf1 & _).
        rewrite Hq1, Hn1, Hnf in Hnf1. simpl in Hnf1. lia. }
      destruct (IH st1 Hinv1 Hmax) as (s2 & st2 & Hrun2 & (Hinv2 & Hm2 & Hn2 & Hf2)
                                       & Hdone); [lia | lia |].
      exists (s1 ++ s2), st2. rewrite run_schedule_app, Hrun1.
      conjuncts; auto; try congruence.
Qed.

(** The main thread can be brought to its return. *)
Lemma main_returns (p : prog py) :
  forall st : pool py,
    order_inv py rt max_workers st -> 0 < max_workers -> main st = p ->
    exists (schedule : list choice) (st' : pool py),
      run_schedule py rt schedule st = Some st' /\ returned py st' = true.
Proof.
  induction p as [|n k IH|n k IH|str k IH|code k IH|code k IH|next k IH|n k IH
                 |f k IH];
    intros st Hinv Hmax Hmain;
    assert (Hsup : supervises (nodes rt) (next_future (sh st)) (main st))
      by (destruct Hinv as (_ & _ & _ & _ & _ & _ & Hs & _); exact Hs);
    rewrite Hmain in Hsup; try (inversion Hsup; fail).
  - exists [], st. split; [reflexivity|]. unfold returned. now rewrite Hmain.
  - assert (Hstep : step py rt Main st
                    = Some (Pool (sh st) (workers st)
                                 (k (bool_decide (n ∈ executed (sh st)))))).
    { simpl. now rewrite Hmain. }
    destruct (IH _ _ (order_step _ _ _ Hinv Hstep) Hmax eq_refl)
      as (s1 & st' & Hrun & Hret).
    exists (Main :: s1), st'. cbn [run_schedule]. rewrite Hstep. auto.
  - assert (Hstep : step py rt Main st
                    = Some (Pool (Shared (executed (sh st)) (output (sh st))
                                         (globals (sh st))
                                         (work_queue (sh st)
                                          ++ [(next_future (sh st), n)])
                                         (S (next_future (sh st)))
                                         (finished (sh st)) (entered (sh st)))
                                 (workers st) (k (next_future (sh st))))).
    { simpl. now rewrite Hmain. }
    destruct (IH _ _ (order_step _ _ _ Hinv Hstep) Hmax eq_refl)
      as (s1 & st' & Hrun & Hret).
    exists (Main :: s1), st'. cbn [run_schedule]. rewrite Hstep. auto.
  - assert (Hlt : f < next_future (sh st)) by (inversion Hsup; assumption).
    destruct (finish_future f _ st Hinv Hmax Hlt (Nat.le_refl _))
      as (s1 & st1 & Hrun1 & (Hinv1 & Hm1 & _) & Hdone).
    assert (Hstep : step py rt Main st1 = Some (Pool (sh st1) (workers st1) k)).
    { simpl. rewrite Hm1, Hmain. simpl.
      now rewrite bool_decide_eq_true_2 by exact Hdone. }
    destruct (IH _ (order_step _ _ _ Hinv1 Hstep) Hmax eq_refl)
      as (s2 & st' & Hrun2 & Hret).
    exists (s1 ++ Main :: s2), st'. rewrite run_schedule_app, Hrun1.
    cbn [run_schedule]. rewrite Hstep. auto.
Qed.

(** *** Forests without connections *)

Local Abbreviation submits := (submits py).

Lemma submits_wait_all (futures : list future) :
  submits [] (wait_all py futures Return).
Proof. induction futures; simpl; constructor; auto. Qed.

Lemma can_execute_unconnected (node : node_id) (k : bool -> prog py) :
  unconnected rt -> _can_execute py rt node k = k true.
Proof.
  intros Hun. unfold _can_execute.
  destruct (nth_error (objects rt) node) as [d|] eqn:Hd; [|reflexivity].
  unfold unconnected in Hun. rewrite List.Forall_forall in Hun.
  destruct (Hun d) as [-> | ->]; [eapply nth_error_In; eauto|..]; reflexivity.
Qed.

Lemma submits_submit_ready (ns : list node_id) :
  unconnected rt ->
  forall futures : list future, submits ns (submit_ready py rt ns futures).
Proof.
  intros Hun. induction ns as [|node rest IH]; intros futures; simpl.
  - apply submits_wait_all.
  - constructor. rewrite can_execute_unconnected by exact Hun.
    constructor. intros f. apply IH.
Qed.

Lemma sorted_nodes_nodup : List.NoDup (nodes rt) -> List.NoDup (sorted_nodes rt).
Proof.
  intros Hnd. unfold sorted_nodes.
  destruct (nodes rt) as [|first rest] eqn:Hn; [constructor|].
  rewrite <- Hn in *. now apply RuntimeInvariant.sorted_nodup.
Qed.

Lemma complete_start :
  unconnected rt -> complete_inv py rt (start py rt max_workers).
Proof.
  intros Hun. exists (sorted_nodes rt). unfold start, execute, sorted_nodes.
  cbn [sh main entered work_queue map app].
  destruct (nodes rt) as [|first rest]; split; try reflexivity.
  - constructor.
  - now apply submits_submit_ready.
Qed.

Lemma complete_step (c : choice) (st st' : pool py) :
  List.NoDup (nodes rt) ->
  order_inv py rt max_workers st -> complete_inv py rt st ->
  step py rt c st = Some st' -> complete_inv py rt st'.
Proof.
  intros Hnodup Hinv (ns & Hsub & Hall) Hstep. open_inv Hinv.
  destruct c as [| |i]; simpl in Hstep.
  - destruct (perform py (sh st) (main st)) as [[s p]|] eqn:Hp; [|discriminate].
    injection Hstep as <-. unfold complete_inv. cbn [sh main].
    inversion Hsub as [Hns Hm|ns0 f k Hk Hns Hm|n ns0 k Hk Hns Hm
                      |n ns0 k Hk Hns Hm];
      subst ns; rewrite <- Hm in Hp; simpl in Hp.
    + discriminate.
    + destruct (bool_decide _); [|discriminate].
      injection Hp as <- <-. exists ns0. auto.
    + injection Hp as <- <-. exists (n :: ns0). split; [|exact Hall].
      rewrite bool_decide_eq_false_2; [exact Hk|].
      intros Hin. apply Hexe in Hin.
      pose proof (sorted_nodes_nodup Hnodup) as Hnd'.
      rewrite <- Hall in Hnd'.
      apply List.NoDup_remove_2 with (a := n)
                                     (l := entered (sh st) ++ map snd (work_queue (sh st)))
                                     (l' := ns0).
      * now rewrite <- app_assoc.
      * apply in_or_app. left. apply in_or_app. now left.
    + injection Hp as <- <-. exists ns0. simpl. split; [apply Hk|].
      rewrite map_app. simpl. rewrite <- !app_assoc. exact Hall.
  - destruct (work_queue (sh st)) as [|[f n] queue] eqn:Hqueue; [discriminate|].
    destruct (first_idle py (workers st)) as [i|]; [|discriminate].
    injection Hstep as <-. exists ns. simpl. split; [exact Hsub|].
    rewrite <- Hall. simpl. now rewrite <- app_assoc.
  - destruct (nth_error (workers st) i) as [[[f p]|]|] eqn:Hw;
      try discriminate.
    assert (Hc : calm (executed (sh st)) (entered (sh st)) p).
    { rewrite List.Forall_forall in Hcalm.
      apply (Hcalm (Some (f, p))). eapply nth_error_In; eauto. }
    assert (Htask : forall s p',
               perform py (sh st) p = Some (s, p') ->
               complete_inv py rt
                 (Pool s (set_worker py (workers st) i (Some (f, p')))
                       (main st))).
    { intros s p' Hp.
      destruct (calm_step _ _ _ _ _ _ Hc ltac:(reflexivity) Hp)
        as (_ & _ & _ & Hqu & Hent & _).
      exists ns. cbn [sh main]. rewrite Hqu, Hent. auto. }
    destruct p;
      try (destruct (perform py (sh st) _) as [[s1 p1]|] eqn:Hp;
           [|discriminate]; injection Hstep as <-; now apply Htask).
    injection Hstep as <-. exists ns. simpl. auto.
Qed.

Lemma complete_run (schedule : list choice) :
  List.NoDup (nodes rt) ->
  forall st st' : pool py,
    order_inv py rt max_workers st -> complete_inv py rt st ->
    run_schedule py rt schedule st = Some st' ->
    complete_inv py rt st'.
Proof.
  intros Hnodup.
  induction schedule as [|c rest IH]; intros st st' Hinv Hcomp; simpl.
  - now intros [= <-].
  - destruct (step py rt c st) as [st1|] eqn:Hstep; [|discriminate].
    apply IH; [eapply order_step | eapply complete_step]; eauto.
Qed.

End Order.

(** X11: on a forest of distinct nodes none of which is an aggregate,
    whatever the number of workers and however the threads move, [execute]
    calls [_execute_node_parallel] for nodes of [self.nodes] only, and for
    a node only behind every node it is connected to: the connections of a
    node are what it waits for, not what it runs. *)
Theorem calls_follow_connections (py : Python) (rt : runtime)
  (max_workers : nat) (schedule : list choice) (st : pool py) :
  Forall (fun d => d_subnodes d = None) (objects rt) ->
  List.NoDup (nodes rt) ->
  run_schedule py rt schedule (start py rt max_workers) = Some st ->
  prerequisites_first rt (entered (sh st)) /\
  incl (entered (sh st)) (nodes rt).
Proof.
  intros Hplain Hnodup Hrun.
  pose proof (order_run py rt max_workers Hplain schedule _ _
                (order_start py rt max_workers Hplain Hnodup) Hrun) as Hinv.
  destruct Hinv as (_ & _ & _ & Hincl & _ & Hpre & _).
  split; [exact Hpre|].
  intros x Hx. apply Hincl. apply in_or_app. now left.
Qed.

Lemma calls_follow_connections_witness :
  exists st : pool example_python,
    run_schedule example_python child_before_loop worker_first
                 (start example_python child_before_loop 4) = Some st /\
    entered (sh st) = [0; 1] /\
    prerequisites_first child_before_loop (entered (sh st)) /\
    incl (entered (sh st)) [0; 1].
Proof.
  eexists. split; [vm_compute; reflexivity|]. split; [reflexivity|].
  apply (calls_follow_connections example_python child_before_loop 4
           worker_first).
  - repeat constructor.
  - repeat constructor; simpl; intuition discriminate.
  - reflexivity.
Defined.

(** X12: on a forest of distinct nodes none of which is an aggregate, with
    at least one worker, [execute] is never stuck: as long as the main
    thread has not returned, some thread can move. *)
Theorem plain_forest_never_stuck (py : Python) (rt : runtime)
  (max_workers : nat) (schedule : list choice) (st : pool py) :
  Forall (fun d => d_subnodes d = None) (objects rt) ->
  List.NoDup (nodes rt) ->
  0 < max_workers ->
  run_schedule py rt schedule (start py rt max_workers) = Some st ->
  returned py st = false ->
  exists (c : choice) (st' : pool py), step py rt c st = Some st'.
Proof.
  intros Hplain Hnodup Hmax Hrun Hret.
  apply (order_progress py rt max_workers); auto.
  apply (order_run py rt max_workers Hplain schedule _ _
           (order_start py rt max_workers Hplain Hnodup) Hrun).
Qed.

Lemma plain_forest_never_stuck_witness :
  exists st : pool example_python,
    run_schedule example_python malformed_loop_and_sibling both_submitted
                 (start example_python malformed_loop_and_sibling 1) = Some st /\
    returned example_python st = false /\
    exists (c : choice) (st' : pool example_python),
      step example_python malformed_loop_and_sibling c st = Some st'.
Proof.
  eexists. split; [vm_compute; reflexivity|]. split; [reflexivity|].
  apply (plain_forest_never_stuck example_python malformed_loop_and_sibling 1
           both_submitted).
  - repeat constructor.
  - repeat constructor; simpl; intuition discriminate.
  - lia.
  - reflexivity.
  - reflexivity.
Defined.

(** X23: on a forest of distinct nodes none of which is an aggregate, with
    at least one worker, [execute] can return from wherever the run has
    got to: whatever the threads have done so far, there is a way for
    them to go on after which the main thread has returned. *)
Theorem plain_forest_can_return (py : Python) (rt : runtime)
  (max_workers : nat) (schedule : list choice) (st : pool py) :
  Forall (fun d => d_subnodes d = None) (objects rt) ->
  List.NoDup (nodes rt) ->
  0 < max_workers ->
  run_schedule py rt schedule (start py rt max_workers) = Some st ->
  exists (more : list choice) (st' : pool py),
    run_schedule py rt more st = Some st' /\ returned py st' = true.
Proof.
  intros Hplain Hnodup Hmax Hrun.
  apply (main_returns py rt max_workers Hplain (main st)); auto.
  apply (order_run py rt max_workers Hplain schedule _ _
           (order_start py rt max_workers Hplain Hnodup) Hrun).
Qed.

Lemma plain_forest_can_return_witness :
  exists st : pool example_python,
    run_schedule example_python malformed_loop_and_sibling both_submitted
                 (start example_python malformed_loop_and_sibling 1) = Some st /\
    returned example_python st = false /\
    exists (more : list choice) (st' : pool example_python),
      run_schedule example_python malformed_loop_and_sibling more st
      = Some st' /\
      returned example_python st' = true.
Proof.
  eexists. split; [vm_compute; reflexivity|]. split; [reflexivity|].
  apply (plain_forest_can_return example_python malformed_loop_and_sibling 1
           both_submitted).
  - repeat constructor.
  - repeat constructor; simpl; intuition discriminate.
  - lia.
  - reflexivity.
Defined.

(** X13: on a forest of distinct nodes none of which is an aggregate, when
    [execute] returns every task that was submitted has been called and
    has run to its end: the queue is empty, every worker is idle, and
    every handle that was given out is that of a finished task. *)
Theorem execute_returns_when_all_done (py : Python) (rt : runtime)
  (max_workers : nat) (schedule : list choice) (st : pool py) :
  Forall (fun d => d_subnodes d = None) (objects rt) ->
  List.NoDup (nodes rt) ->
  run_schedule py rt schedule (start py rt max_workers) = Some st ->
  returned py st = true ->
  work_queue (sh st) = [] /\
  Forall (fun w => w = None) (workers st) /\
  next_future (sh st) = List.length (entered (sh st)) /\
  (forall f, f < next_future (sh st) -> f ∈ finished (sh st)).
Proof.
  intros Hplain Hnodup Hrun Hret.
  pose proof (order_run py rt max_workers Hplain schedule _ _
                (order_start py rt max_workers Hplain Hnodup) Hrun) as Hinv.
  destruct (order_returned py rt max_workers st Hinv Hret)
    as (Hq & Hw & Hn & Hf).
  repeat split; auto. intros f Hlt. apply Hf. now rewrite <- Hn.
Qed.

Lemma execute_returns_when_all_done_witness :
  exists st : pool example_python,
    run_schedule example_python malformed_loop_and_sibling one_by_one
                 (start example_python malformed_loop_and_sibling 1) = Some st /\
    returned example_python st = true /\
    work_queue (sh st) = [] /\
    Forall (fun w => w = None) (workers st) /\
    next_future (sh st) = List.length (entered (sh st)) /\
    (forall f, f < next_future (sh st) -> f ∈ finished (sh st)).
Proof.
  eexists. split; [vm_compute; reflexivity|]. split; [reflexivity|].
  apply (execute_returns_when_all_done example_python
           malformed_loop_and_sibling 1 one_by_one).
  - repeat constructor.
  - repeat constructor; simpl; intuition discriminate.
  - reflexivity.
  - reflexivity.
Defined.

(** X14: on a forest of distinct nodes without connections and without
    aggregates, when [execute] returns it has called
    [_execute_node_parallel] exactly once for every node of [self.nodes],
    however the threads moved: the list of the calls holds the nodes of
    [self.nodes], each of them once. *)
Theorem unconnected_forest_runs_every_node (py : Python) (rt : runtime)
  (max_workers : nat) (schedule : list choice) (st : pool py) :
  Forall (fun d => d_subnodes d = None) (objects rt) ->
  unconnected rt ->
  List.NoDup (nodes rt) ->
  run_schedule py rt schedule (start py rt max_workers) = Some st ->
  returned py st = true ->
  Permutation (entered (sh st)) (nodes rt).
Proof.
  intros Hplain Hun Hnodup Hrun Hret.
  pose proof (order_start py rt max_workers Hplain Hnodup) as Hstart.
  pose proof (order_run py rt max_workers Hplain schedule _ _ Hstart Hrun)
    as Hinv.
  destruct (complete_run py rt max_workers Hplain schedule Hnodup _ _ Hstart
              (complete_start py rt max_workers Hun) Hrun)
    as (ns & Hsub & Hall).
  destruct (order_returned py rt max_workers st Hinv Hret) as (Hq & _).
  rewrite Hq in Hall. simpl in Hall.
  assert (Hns : ns = []).
  { unfold returned in Hret. destruct (main st); try discriminate.
    inversion Hsub. reflexivity. }
  subst ns. rewrite app_nil_r in Hall. rewrite Hall.
  unfold sorted_nodes. destruct (nodes rt) as [|first rest] eqn:Hn;
    [reflexivity|].
  rewrite <- Hn. apply RuntimeInvariant.sorted_perm.
Qed.

Lemma unconnected_forest_runs_every_node_witness :
  exists st : pool example_python,
    run_schedule example_python malformed_loop_and_sibling one_by_one
                 (start example_python malformed_loop_and_sibling 1) = Some st /\
    returned example_python st = true /\
    Permutation (entered (sh st)) [0; 1].
Proof.
  eexists. split; [vm_compute; reflexivity|]. split; [reflexivity|].
  apply (unconnected_forest_runs_every_node example_python
           malformed_loop_and_sibling 1 one_by_one).
  - repeat constructor.
  - unfold unconnected.
    repeat (apply List.Forall_cons || apply List.Forall_nil); simpl; auto.
  - repeat constructor; simpl; intuition discriminate.
  - reflexivity.
  - reflexivity.
Defined.

End RuntimeOrderFacts.
(* ===================================================================== *)
(** * Loops and conditionals at the edge *)
(* ===================================================================== *)

Module RuntimeEdgeFacts.

Import PyStr PyStrFacts Parser Runtime RuntimeFacts RuntimeEdge.

(** ** [split] on a string that holds the separator twice *)

Lemma string_length_append (x y : string) :
  String.length (x ++ y) = String.length x + String.length y.
Proof. induction x as [|c x IH]; simpl; [reflexivity|]. now rewrite IH. Qed.

Lemma split_from_skip (sep x y : string) (cur : list ascii) :
  split_from sep (x ++ y) (String.length x) cur = split_from sep y 0 cur.
Proof.
  induction x as [|c x IH]; [reflexivity|].
  change (split_from sep (String c (x ++ y)) (S (String.length x)) cur
          = split_from sep y 0 cur).
  cbn [split_from]. exact IH.
Qed.

Lemma split_from_match (c0 : ascii) (sep' y : string) (cur : list ascii) :
  split_from (String c0 sep') (String c0 sep' ++ y) 0 cur
  = rev_string cur :: split_from (String c0 sep') y 0 [].
Proof.
  assert (Hp : String.prefix (String c0 sep') (String c0 sep' ++ y) = true)
    by (apply prefix_iff; eauto).
  change (String c0 sep' ++ y)%string with (String c0 (sep' ++ y)) in *.
  cbn [split_from]. rewrite Hp. f_equal.
  replace (String.length (String c0 sep') - 1) with (String.length sep')
    by (simpl; lia).
  apply split_from_skip.
Qed.

Lemma split_from_nonempty (sep s : string) :
  forall (k : nat) (cur : list ascii),
    1 <= List.length (split_from sep s k cur).
Proof.
  induction s as [|c s IH]; intros k cur; cbn [split_from]; [simpl; lia|].
  destruct k; [|apply IH].
  destruct (String.prefix sep (String c s)); [simpl; lia | apply IH].
Qed.

Lemma split_from_once (c0 : ascii) (sep' a b : string) :
  forall cur : list ascii,
    2 <= List.length
           (split_from (String c0 sep') (a ++ String c0 sep' ++ b) 0 cur).
Proof.
  induction a as [|c a IH]; intros cur.
  - change (EmptyString ++ String c0 sep' ++ b)%string
      with (String c0 sep' ++ b)%string.
    rewrite split_from_match. simpl.
    pose proof (split_from_nonempty (String c0 sep') b 0 []). lia.
  - destruct (String.prefix (String c0 sep')
                (String c a ++ String c0 sep' ++ b)) eqn:E.
    + apply prefix_iff in E as [y Hy]. rewrite Hy, split_from_match. simpl.
      pose proof (split_from_nonempty (String c0 sep') y 0 []). lia.
    + change (String c a ++ String c0 sep' ++ b)%string
        with (String c (a ++ String c0 sep' ++ b)) in *.
      cbn [split_from]. rewrite E. apply IH.
Qed.

Lemma common_suffix (p : string) :
  forall x b y : string,
    (x ++ b)%string = (p ++ y)%string ->
    String.length p <= String.length x ->
    exists z : string, y = (z ++ b)%string.
Proof.
  induction p as [|d p IH]; intros x b y Heq Hlen.
  - exists x. simpl in Heq. congruence.
  - destruct x as [|e x]; [simpl in Hlen; lia|].
    simpl in Heq. injection Heq as _ Heq.
    apply (IH x b y Heq). simpl in Hlen. lia.
Qed.

Lemma split_from_twice (c0 : ascii) (sep' a b : string) :
  occurs (String c0 sep') b ->
  forall cur : list ascii,
    3 <= List.length
           (split_from (String c0 sep') (a ++ String c0 sep' ++ b) 0 cur).
Proof.
  intros Hocc. induction a as [|c a IH]; intros cur.
  - change (EmptyString ++ String c0 sep' ++ b)%string
      with (String c0 sep' ++ b)%string.
    rewrite split_from_match. simpl.
    destruct Hocc as (a2 & b2 & ->).
    pose proof (split_from_once c0 sep' a2 b2 []). lia.
  - destruct (String.prefix (String c0 sep')
                (String c a ++ String c0 sep' ++ b)) eqn:E.
    + apply prefix_iff in E as [y Hy]. rewrite Hy, split_from_match. simpl.
      assert (Hz : exists z : string, y = (z ++ b)%string).
      { apply (common_suffix (String c0 sep') (String c a ++ String c0 sep')).
        - rewrite <- Hy. now rewrite ToPythonFacts.append_assoc.
        - rewrite string_length_append. lia. }
      destruct Hz as (z & ->). destruct Hocc as (a2 & b2 & ->).
      rewrite <- ToPythonFacts.append_assoc.
      pose proof (split_from_once c0 sep' (z ++ a2) b2 []). lia.
    + change (String c a ++ String c0 sep' ++ b)%string
        with (String c (a ++ String c0 sep' ++ b)) in *.
      cbn [split_from]. rewrite E. apply IH.
Qed.

Section Edge.

Context (py : Python).

Local Abbreviation runs := (runs py).

(** X16: a loop whose text holds [" in "] and, behind that occurrence,
    holds it once more (two occurrences that do not overlap, as in a loop
    over a comprehension) cannot be unpacked into a variable and a range:
    the node adds itself to the [executed] set, appends
    ["Error in loop: too many values to unpack (expected 2)"] and
    returns; nothing is evaluated and no child is looked up. *)
Theorem loop_with_two_in (rt : runtime) (n : node_id) (d : node_data)
  (a b : string) :
  nth_error (objects rt) n = Some d ->
  d_type d = Hexagonal ->
  d_value d = (a ++ " in " ++ b)%string ->
  occurs " in " b ->
  forall t : list (event py),
    runs (_execute_node_parallel py rt n) t <->
    t = [EvAdd n; EvAppend ("Error in loop: " ++ unpack_too_many)].
Proof.
  intros Hd Hty Hv Hocc t. unfold _execute_node_parallel.
  rewrite Hd, Hty. unfold execute_hexagonal, split. rewrite Hv.
  pose proof (split_from_twice " " "in " a b Hocc []) as Hlen.
  change (String " " "in ") with " in " in Hlen.
  destruct (split_from " in " (a ++ " in " ++ b) 0 [])
    as [|p1 [|p2 [|p3 ps]]]; simpl in Hlen; try lia.
  clear Hlen. rewrite runs_add_iff. split.
  - intros (t1 & H & ->). apply runs_append_iff in H as (t2 & H & ->).
    apply runs_return_iff in H as ->. reflexivity.
  - intros ->. eexists. split; [|reflexivity]. repeat constructor.
Qed.

(** X17: a loop or a conditional whose dictionary has no ["connections"]
    key.  The loop evaluates its range and draws a first value; when
    there is one, it appends the record of that value and then the marker
    of the [KeyError], ["Error in loop: 'connections'"]: no other value
    is drawn.  The conditional, when its condition is true, appends its
    text and then ["Error in if: 'connections'"].  With no value, or a
    false condition, nothing is appended. *)
Theorem missing_connections_key (rt : runtime) (n : node_id) (d : node_data) :
  nth_error (objects rt) n = Some d ->
  d_connections d = None ->
  (d_type d = Hexagonal ->
   forall loop_var loop_range : string,
     split " in " (d_value d) = [loop_var; loop_range] ->
     forall t : list (event py),
       runs (_execute_node_parallel py rt n) t <->
       exists (r : string + Val py) (rest : list (event py)),
         t = EvAdd n :: EvEval loop_range r :: rest /\
         match r with
         | inl e => rest = [EvAppend ("Error in loop: " ++ e)]
         | inr v =>
             match py_iter py v with
             | inl e => rest = [EvAppend ("Error in loop: " ++ e)]
             | inr Exhausted => rest = []
             | inr (Pending _ _) =>
                 exists (g : Env py) (first : draw),
                   rest = EvNext g first ::
                          match first with
                          | Yielded val =>
                              [EvAppend (d_value d ++ "  # " ++ val);
                               EvAppend ("Error in loop: "
                                         ++ key_error_connections)]
                          | Stopped => []
                          | Raised e => [EvAppend ("Error in loop: " ++ e)]
                          end
             end
         end) /\
  (d_type d = Pentagonal ->
   forall t : list (event py),
     runs (_execute_node_parallel py rt n) t <->
     exists r : string + Val py,
       t = EvAdd n :: EvEval (rstrip_colon (d_value d)) r ::
           match r with
           | inl e => [EvAppend ("Error in if: " ++ e)]
           | inr v =>
               if py_truthy py v
               then [EvAppend (d_value d);
                     EvAppend ("Error in if: " ++ key_error_connections)]
               else []
           end).
Proof.
  intros Hd Hc. split.
  - intros Hty loop_var loop_range Hsplit t. unfold _execute_node_parallel.
    rewrite Hd, Hty. unfold execute_hexagonal. rewrite Hsplit.
    rewrite runs_add_iff. split.
    + intros (t1 & H & ->). apply runs_eval_iff in H as (r & rest & H & ->).
      exists r, rest. split; [reflexivity|].
      destruct r as [e|v];
        [|destruct (py_iter py v) as [e|[|next others]]]; simpl in H.
      * apply runs_append_iff in H as (? & H & ->).
        now apply runs_return_iff in H as ->.
      * apply runs_append_iff in H as (? & H & ->).
        now apply runs_return_iff in H as ->.
      * now apply runs_return_iff in H.
      * apply runs_next_iff in H as (g & first & t2 & H & ->).
        exists g, first. f_equal.
        destruct first as [val| |e]; rewrite ?Hc in H;
          repeat (apply runs_append_iff in H as (? & H & ->));
          apply runs_return_iff in H as ->; reflexivity.
    + intros (r & rest & -> & H). eexists. split; [|reflexivity].
      apply runs_eval_iff. exists r, rest. split; [|reflexivity].
      destruct r as [e|v];
        [|destruct (py_iter py v) as [e|[|next others]]]; simpl;
        try (subst rest; repeat constructor; fail).
      destruct H as (g & first & ->). constructor.
      destruct first as [val| |e]; rewrite ?Hc; repeat constructor.
  - intros Hty t. unfold _execute_node_parallel.
    rewrite Hd, Hty. unfold execute_pentagonal. rewrite Hc.
    rewrite runs_add_iff. split.
    + intros (t1 & H & ->). apply runs_eval_iff in H as (r & rest & H & ->).
      exists r. do 2 f_equal.
      destruct r as [e|v]; [|destruct (py_truthy py v)];
        repeat (apply runs_append_iff in H as (? & H & ->));
        apply runs_return_iff in H as ->; reflexivity.
    + intros (r & ->). eexists. split; [|reflexivity].
      apply runs_eval_iff. eexists r, _. split; [|reflexivity].
      destruct r as [e|v]; [|destruct (py_truthy py v)]; repeat constructor.
Qed.

Lemma runs_exec_iff (code : string) (k : option string -> prog py)
  (t : list (event py)) :
  runs (PyExec code k) t <->
  exists r t', runs (k r) t' /\ t = EvExec code r :: t'.
Proof.
  split; [inversion 1; subst; eauto | intros (r & t' & H & ->); now constructor].
Qed.

(** X20: a statement node and a function node never look at their
    connections.  The statement adds itself to the [executed] set and
    runs its text, once; an exception is caught and recorded as
    ["Error: <message>"].  A node of type ["Fractal"] without a
    ["subnodes"] key adds itself to the [executed] set and appends its
    text.  Neither looks up, submits or waits for any node. *)
Theorem leaf_nodes_ignore_connections (rt : runtime) (n : node_id)
  (d : node_data) :
  nth_error (objects rt) n = Some d ->
  (d_type d = Tetrahedral ->
   forall t : list (event py),
     runs (_execute_node_parallel py rt n) t <->
     exists r : option string,
       t = EvAdd n :: EvExec (d_value d) r ::
           match r with
           | Some e => [EvAppend ("Error: " ++ e)]
           | None => []
           end) /\
  (d_type d = Fractal -> d_subnodes d = None ->
   forall t : list (event py),
     runs (_execute_node_parallel py rt n) t <->
     t = [EvAdd n; EvAppend (d_value d)]).
Proof.
  intros Hd. split.
  - intros Hty t. unfold _execute_node_parallel. rewrite Hd, Hty.
    unfold execute_tetrahedral. rewrite runs_add_iff. split.
    + intros (t1 & H & ->). apply runs_exec_iff in H as (r & rest & H & ->).
      exists r. do 2 f_equal. destruct r as [e|].
      * apply runs_append_iff in H as (t2 & H & ->).
        now apply runs_return_iff in H as ->.
      * now apply runs_return_iff in H.
    + intros (r & ->). eexists. split; [|reflexivity].
      apply runs_exec_iff. eexists r, _. split; [|reflexivity].
      destruct r; repeat constructor.
  - intros Hty Hsub t. unfold _execute_node_parallel. rewrite Hd, Hty.
    unfold execute_fractal. rewrite Hsub, runs_add_iff. split.
    + intros (t1 & H & ->). apply runs_append_iff in H as (t2 & H & ->).
      now apply runs_return_iff in H as ->.
    + intros ->. eexists. split; [|reflexivity]. repeat constructor.
Qed.

(** X21: the pool of four workers of [__init__] can be brought to a
    standstill.  On four aggregates that hold one statement each there is
    a way for the threads to move after which the main thread has not
    returned and no thread can move: every worker waits for the statement
    of its aggregate, and the four statements wait in the queue for a
    worker.  No code is run on the way, so this holds whatever the
    interpreter does. *)
Theorem four_workers_can_deadlock :
  exists st : pool py,
    run_schedule py four_aggregates all_workers_wait
                 (start py four_aggregates 4) = Some st /\
    returned py st = false /\
    List.length (work_queue (sh st)) = 4 /\
    forall c : choice, step py four_aggregates c st = None.
Proof.
  eexists. split; [vm_compute; reflexivity|].
  split; [reflexivity|]. split; [reflexivity|].
  intros [| |i]; [reflexivity | reflexivity |].
  do 4 (destruct i as [|i]; [reflexivity|]).
  destruct i; reflexivity.
Qed.

End Edge.

Lemma missing_connections_key_witness :
  runs example_python
       (_execute_node_parallel example_python loop_without_connections 0)
       [EvAdd 0; EvEval (py:=example_python) "range(2)" (inr (VRange 2));
        EvNext (py:=example_python) tt (Yielded "0");
        EvAppend "i in range(2)  # 0";
        EvAppend "Error in loop: 'connections'"].
Proof.
  apply (proj2 (proj1 (missing_connections_key example_python
                         loop_without_connections 0 _ eq_refl eq_refl)
                      eq_refl "i" "range(2)" eq_refl _)).
  exists (inr (VRange 2)). eexists. split; [reflexivity|].
  exists tt, (Yielded "0"). reflexivity.
Defined.

Lemma loop_with_two_in_witness :
  occurs " in " "[j for j in range(2)]" /\
  runs example_python
       (_execute_node_parallel example_python loop_over_comprehension 0)
       [EvAdd 0;
        EvAppend "Error in loop: too many values to unpack (expected 2)"].
Proof.
  assert (Hocc : occurs " in " "[j for j in range(2)]")
    by (exists "[j for j", "range(2)]"; reflexivity).
  split; [exact Hocc|].
  apply (proj2 (loop_with_two_in example_python loop_over_comprehension 0 _
                  "i" "[j for j in range(2)]" eq_refl eq_refl eq_refl Hocc _)).
  reflexivity.
Defined.

Lemma leaf_nodes_ignore_connections_witness :
  runs example_python
       (_execute_node_parallel example_python child_before_loop 0)
       [EvAdd 0; EvExec (py:=example_python) "print('x')" None].
Proof.
  apply (proj2 (proj1 (leaf_nodes_ignore_connections example_python
                         child_before_loop 0 _ eq_refl)
                      eq_refl _)).
  exists None. reflexivity.
Defined.

End RuntimeEdgeFacts.
